(** * Telegram chat recovery: the Postbox decoder, the message schema,
      media identifiers and key recovery, embedded from the Python sources

    Sources embedded here:
    - [scripts/extract_messages.py]: [byteutil], [PostboxDecoder],
      [MessageIndex], [read_intermediate_fwd_info],
      [read_intermediate_message_complete], [get_peer_info],
      [extract_complete_chat];
    - [scripts/list_chats.py]: the older [byteutil.read_fmt];
    - [scripts/create_media_index.py]: [parse_media_ids],
      [extract_referenced_media_id];
    - [scripts/decrypt_db.py]: [murmur], [tempkey_kdf], [tempkey_parse]. *)

From Stdlib Require Import ZArith Strings.Byte String Ascii.
From stdpp Require Import base list gmap numbers.

Open Scope Z_scope.

(** ** Bytes, Python strings *)

(** A Python [bytes] object. *)
Abbreviation bytes := (list byte).

(** A Python [str]: the sequence of its Unicode code points. *)
Abbreviation pystr := (list Z).

Definition byte_val (b : byte) : Z := Z.of_N (Byte.to_N b).

Definition mk_byte (z : Z) : byte :=
  match Byte.of_N (Z.to_N (z mod 256)) with
  | Some b => b
  | None => x00
  end.

(** A [bytes] literal from its numeric values. *)
Definition mk_bytes (l : list Z) : bytes := mk_byte <$> l.

(** A [str] literal. *)
Definition str (s : string) : pystr :=
  (fun a => Z.of_N (N_of_ascii a)) <$> list_ascii_of_string s.
Arguments str s%_string.

(** [bytes.hex()]: two lowercase hexadecimal digits per byte. *)
Definition hex_digit (d : Z) : Z :=
  if d <? 10 then 48 + d else 87 + d.

Definition hex (bs : bytes) : pystr :=
  flat_map (fun b => [hex_digit (byte_val b / 16); hex_digit (byte_val b mod 16)]) bs.

(** [str(n)] for an [int]: decimal digits, with a leading minus sign. *)
Fixpoint pos_digits (fuel : nat) (n : Z) (acc : pystr) : pystr :=
  match fuel with
  | O => acc
  | S fuel' =>
      let acc' := (48 + n mod 10) :: acc in
      if n / 10 =? 0 then acc' else pos_digits fuel' (n / 10) acc'
  end.

Definition str_of_int (n : Z) : pystr :=
  if n <? 0
  then 45 :: pos_digits (S (Z.to_nat (Z.log2 (- n)))) (- n) []
  else pos_digits (S (Z.to_nat (Z.log2 n))) n [].

(** *** [bytes.decode('utf-8', errors='replace')]

    One U+FFFD per ill-formed subsequence, following the decoder of the
    Python runtime: an invalid start byte consumes one byte, an invalid
    continuation byte consumes the bytes before it, and a sequence cut
    short by the end of the data consumes what is left. *)

Definition U_FFFD : Z := 65533.

Definition is_cont (b : Z) : bool := (128 <=? b) && (b <? 192).

Fixpoint utf8_decode_replace (bs : bytes) : pystr :=
  match bs with
  | [] => []
  | b1 :: t1 =>
      let c1 := byte_val b1 in
      if c1 <? 128 then c1 :: utf8_decode_replace t1
      else if c1 <? 194 then U_FFFD :: utf8_decode_replace t1
      else if c1 <? 224 then
        match t1 with
        | [] => [U_FFFD]
        | b2 :: t2 =>
            let c2 := byte_val b2 in
            if is_cont c2
            then ((c1 - 192) * 64 + (c2 - 128)) :: utf8_decode_replace t2
            else U_FFFD :: utf8_decode_replace t1
        end
      else if c1 <? 240 then
        match t1 with
        | [] => [U_FFFD]
        | b2 :: t2 =>
            let c2 := byte_val b2 in
            if negb (is_cont c2)
               || ((c1 =? 224) && (c2 <? 160))
               || ((c1 =? 237) && (160 <=? c2))
            then U_FFFD :: utf8_decode_replace t1
            else
              match t2 with
              | [] => [U_FFFD]
              | b3 :: t3 =>
                  let c3 := byte_val b3 in
                  if is_cont c3
                  then ((c1 - 224) * 4096 + (c2 - 128) * 64 + (c3 - 128))
                         :: utf8_decode_replace t3
                  else U_FFFD :: utf8_decode_replace t2
              end
        end
      else if c1 <? 245 then
        match t1 with
        | [] => [U_FFFD]
        | b2 :: t2 =>
            let c2 := byte_val b2 in
            if negb (is_cont c2)
               || ((c1 =? 240) && (c2 <? 144))
               || ((c1 =? 244) && (144 <=? c2))
            then U_FFFD :: utf8_decode_replace t1
            else
              match t2 with
              | [] => [U_FFFD]
              | b3 :: t3 =>
                  let c3 := byte_val b3 in
                  if negb (is_cont c3)
                  then U_FFFD :: utf8_decode_replace t2
                  else
                    match t3 with
                    | [] => [U_FFFD]
                    | b4 :: t4 =>
                        let c4 := byte_val b4 in
                        if is_cont c4
                        then ((c1 - 240) * 262144 + (c2 - 128) * 4096
                              + (c3 - 128) * 64 + (c4 - 128))
                               :: utf8_decode_replace t4
                        else U_FFFD :: utf8_decode_replace t3
                    end
              end
        end
      else U_FFFD :: utf8_decode_replace t1
  end.

(** [str.encode('utf-8')] on the code points below 128, which is all the
    passphrase of the key container uses; higher code points are encoded
    with the usual two to four byte forms. *)
Definition utf8_encode_cp (c : Z) : bytes :=
  if c <? 128 then [mk_byte c]
  else if c <? 2048 then [mk_byte (192 + c / 64); mk_byte (128 + c mod 64)]
  else if c <? 65536 then
    [mk_byte (224 + c / 4096); mk_byte (128 + (c / 64) mod 64); mk_byte (128 + c mod 64)]
  else
    [mk_byte (240 + c / 262144); mk_byte (128 + (c / 4096) mod 64);
     mk_byte (128 + (c / 64) mod 64); mk_byte (128 + c mod 64)].

Definition utf8_encode (s : pystr) : bytes := flat_map utf8_encode_cp s.

(** ** Python values, exceptions and the state-and-exception monad *)

(** The values the decoders build. A [float] is kept as the 64-bit pattern
    [struct.unpack] read it from; a [dict] is the list of its items in
    insertion order, with one item per key. *)
#[local] Set Warnings "-register-all".

Inductive pyvalue : Type :=
  | PNone
  | PBool (b : bool)
  | PInt (z : Z)
  | PFloat (bits : Z)
  | PStr (s : pystr)
  | PList (l : list pyvalue)
  | PTuple (a b : pyvalue)
  | PDict (d : list (pystr * pyvalue)).

(** [d[k] = v]: the value of an existing key is replaced where it stands,
    a new key goes to the end. *)
Fixpoint dict_set (k : pystr) (v : pyvalue) (d : list (pystr * pyvalue))
  : list (pystr * pyvalue) :=
  match d with
  | [] => [(k, v)]
  | (k', v') :: d' =>
      if bool_decide (k' = k) then (k, v) :: d' else (k', v') :: dict_set k v d'
  end.

(** [d.get(k)], [None] of the option standing for a missing key. *)
Fixpoint dict_get (k : pystr) (d : list (pystr * pyvalue)) : option pyvalue :=
  match d with
  | [] => None
  | (k', v') :: d' => if bool_decide (k' = k) then Some v' else dict_get k d'
  end.

(** Truth value of an object, as [if v:] tests it. *)
Definition truthy (v : pyvalue) : bool :=
  match v with
  | PNone => false
  | PBool b => b
  | PInt z => negb (z =? 0)
  | PFloat bits => negb ((bits =? 0) || (bits =? 2 ^ 63))
  | PStr s => negb (bool_decide (s = []))
  | PList l => match l with [] => false | _ => true end
  | PTuple _ _ => true
  | PDict d => match d with [] => false | _ => true end
  end.

(** The exceptions the modelled code raises. [EOFError] is what the spec
    calls TruncatedInput, [ValueError_enum] (the [ValueType(...)] call on a
    number that is no member) what it calls UnknownTag, and [HashMismatch]
    what it calls KeyVerificationFailed. [DecoderError] stands for whatever
    else a registered schema decoder may raise, and [RecursionError] is
    what the interpreter raises where objects nest deeper than its
    recursion limit has room for. *)
Inductive pyexc : Type :=
  | EOFError (msg : pystr)
  | StructError
  | ValueError_enum (v : Z)
  | ValueError_cipher
  | TypeError
  | AttributeError
  | KeyError (key : pystr)
  | HashMismatch (dbHash calcHash : Z)
  | DecoderError (msg : pystr)
  | RecursionError.

(** What a call does: return, raise, or (for the loops of the generator
    only) use up the number of steps the model gives the loop; the steps
    given are always enough (lemmas [iter_kv_total], [get_total]). *)
Inductive res (A : Type) : Type :=
  | Ok (a : A)
  | Raise (e : pyexc)
  | OutOfFuel.
Arguments Ok {A} a.
Arguments Raise {A} e.
Arguments OutOfFuel {A}.

(** What a registered schema decoder does: it returns or raises. *)
Inductive outcome : Type :=
  | Returned (v : pyvalue)
  | Raised (e : pyexc).

(** A method of an object with mutable state [S]: the state survives an
    exception, as the object does. *)
Definition M (S A : Type) : Type := S -> res A * S.

Definition ret {S A} (a : A) : M S A := fun s => (Ok a, s).

Definition bind {S A B} (m : M S A) (k : A -> M S B) : M S B :=
  fun s =>
    match m s with
    | (Ok a, s') => k a s'
    | (Raise e, s') => (Raise e, s')
    | (OutOfFuel, s') => (OutOfFuel, s')
    end.

Definition raise {S A} (e : pyexc) : M S A := fun s => (Raise e, s).

Notation "x <- m ;; k" := (bind m (fun x => k))
  (at level 100, m at next level, right associativity).
Notation "'let*' p ':=' m 'in' k" := (bind m (fun x => match x with p => k end))
  (at level 10, p pattern, m at level 200, k at level 200).

(** [[f() for _ in range(n)]]: [n] calls in order, stopping at the first
    exception. *)
Fixpoint repeatM {S A} (n : nat) (m : M S A) : M S (list A) :=
  match n with
  | O => ret []
  | S n' => x <- m ;; xs <- repeatM n' m ;; ret (x :: xs)
  end.

(** ** [byteutil]: typed reads over an [io.BytesIO] cursor *)

Inductive endianness : Type := LittleEndian | BigEndian.

(** The [byteutil] object: its [endian] and the [BytesIO] buffer, which is
    the data and the cursor. *)
Record byteutil : Type := mk_byteutil {
  endian : endianness;
  buf_data : bytes;
  buf_pos : nat
}.

(** [byteutil(io.BytesIO(data), endian)]. *)
Definition byteutil_init (data : bytes) (e : endianness) : byteutil :=
  mk_byteutil e data 0.

(** [buf.read(n)]: at most [n] bytes from the cursor, all that is left when
    [n] is negative; the cursor moves past what was read. Never raises. *)
Definition buf_read (n : Z) : M byteutil bytes :=
  fun b =>
    let rest := drop (buf_pos b) (buf_data b) in
    let out := if n <? 0 then rest else take (Z.to_nat n) rest in
    (Ok out, mk_byteutil (endian b) (buf_data b) (buf_pos b + length out)).

(** [buf.tell()] and [buf.seek(0, io.SEEK_SET)]. *)
Definition buf_tell : M byteutil nat := fun b => (Ok (buf_pos b), b).

Definition buf_seek0 : M byteutil unit :=
  fun b => (Ok tt, mk_byteutil (endian b) (buf_data b) 0).

(** The [struct] format characters in use. *)
Inductive fmt : Type := Fmt_b | Fmt_B | Fmt_i | Fmt_I | Fmt_q | Fmt_Q | Fmt_d.

Definition calcsize (f : fmt) : nat :=
  match f with
  | Fmt_b | Fmt_B => 1
  | Fmt_i | Fmt_I => 4
  | Fmt_q | Fmt_Q | Fmt_d => 8
  end%nat.

Definition le_uint (bs : bytes) : Z :=
  foldr (fun b acc => byte_val b + 256 * acc) 0 bs.

Definition to_signed (w : Z) (z : Z) : Z :=
  if z <? 2 ^ (w - 1) then z else z - 2 ^ w.

(** [struct.unpack(fmt, data)[0]] on data of the right size. For [d] the
    number returned is the bit pattern of the double. *)
Definition unpack (e : endianness) (f : fmt) (data : bytes) : Z :=
  let u := match e with
           | LittleEndian => le_uint data
           | BigEndian => le_uint (reverse data)
           end in
  match f with
  | Fmt_b => to_signed 8 u
  | Fmt_i => to_signed 32 u
  | Fmt_q => to_signed 64 u
  | Fmt_B | Fmt_I | Fmt_Q | Fmt_d => u
  end.

Definition NOT_ENOUGH_DATA : pystr := str "Not enough data".

(** [byteutil.read_fmt] of extract_messages.py, with its length check. *)
Definition read_fmt (f : fmt) : M byteutil Z :=
  fun b =>
    (data <- buf_read (Z.of_nat (calcsize f)) ;;
     if (length data <? calcsize f)%nat
     then raise (EOFError NOT_ENOUGH_DATA)
     else ret (unpack (endian b) f data)) b.

Definition read_int8 : M byteutil Z := read_fmt Fmt_b.
Definition read_uint8 : M byteutil Z := read_fmt Fmt_B.
Definition read_int32 : M byteutil Z := read_fmt Fmt_i.
Definition read_uint32 : M byteutil Z := read_fmt Fmt_I.
Definition read_int64 : M byteutil Z := read_fmt Fmt_q.
Definition read_uint64 : M byteutil Z := read_fmt Fmt_Q.
Definition read_double : M byteutil Z := read_fmt Fmt_d.

Definition read_bytes : M byteutil bytes :=
  slen <- read_int32 ;; buf_read slen.

Definition read_str : M byteutil pystr :=
  b <- read_bytes ;; ret (utf8_decode_replace b).

Definition read_short_bytes : M byteutil bytes :=
  slen <- read_uint8 ;; buf_read slen.

Definition read_short_str : M byteutil pystr :=
  b <- read_short_bytes ;; ret (utf8_decode_replace b).

(** [byteutil.read_fmt] of list_chats.py: no length check of its own, so
    [struct.unpack] raises [struct.error] on data that is too short. *)
Module ListChats.

Definition read_fmt (f : fmt) : M byteutil Z :=
  fun b =>
    (data <- buf_read (Z.of_nat (calcsize f)) ;;
     if bool_decide (length data = calcsize f)
     then ret (unpack (endian b) f data)
     else raise StructError) b.

End ListChats.

(** ** [PostboxDecoder] *)

Module ValueType.

Inductive t : Type :=
  | Int32 | Int64 | Bool | Double | String | Object | Int32Array
  | Int64Array | ObjectArray | ObjectDictionary | Bytes | Nil
  | StringArray | BytesArray.

#[global] Instance t_eq_dec : EqDecision t.
Proof. solve_decision. Defined.

(** The value of each member. *)
Definition value (v : t) : Z :=
  match v with
  | Int32 => 0 | Int64 => 1 | Bool => 2 | Double => 3 | String => 4
  | Object => 5 | Int32Array => 6 | Int64Array => 7 | ObjectArray => 8
  | ObjectDictionary => 9 | Bytes => 10 | Nil => 11 | StringArray => 12
  | BytesArray => 13
  end.

(** [ValueType(n)]: the member with that value, [ValueError] when there is
    none. *)
Definition of_value {S} (n : Z) : M S t :=
  match n with
  | 0 => ret Int32 | 1 => ret Int64 | 2 => ret Bool | 3 => ret Double
  | 4 => ret String | 5 => ret Object | 6 => ret Int32Array
  | 7 => ret Int64Array | 8 => ret ObjectArray | 9 => ret ObjectDictionary
  | 10 => ret Bytes | 11 => ret Nil | 12 => ret StringArray
  | 13 => ret BytesArray
  | _ => raise (ValueError_enum n)
  end.

End ValueType.

(** The decoder object: [self.bio] and [self.size]. *)
Record PostboxDecoder : Type := mk_PostboxDecoder {
  bio : byteutil;
  size : nat
}.

(** [PostboxDecoder(data)]. *)
Definition PostboxDecoder_init (data : bytes) : PostboxDecoder :=
  mk_PostboxDecoder (byteutil_init data LittleEndian) (length data).

(** A method of [self.bio] called on the decoder. *)
Definition on_bio {A} (m : M byteutil A) : M PostboxDecoder A :=
  fun d => let (r, b) := m (bio d) in (r, mk_PostboxDecoder b (size d)).

(** [self.size]. *)
Definition self_size : M PostboxDecoder nat := fun d => (Ok (size d), d).

(** The outcome of a call on another object. *)
Definition lift_res {S A} (r : res A) : M S A := fun s => (r, s).

Definition lift_outcome {S} (o : outcome) : M S pyvalue :=
  match o with
  | Returned v => ret v
  | Raised e => raise e
  end.

(** What the generator [_iter_kv] yields. *)
Definition kv_entry : Type := pystr * ValueType.t * pyvalue.

(** [{k: v for k, t, v in entries}]. *)
Definition dict_of_entries (es : list kv_entry) : list (pystr * pyvalue) :=
  foldl (fun d (e : kv_entry) => dict_set e.1.1 e.2 d) [] es.

Definition AT_TYPE : pystr := str "@type".

Section Decoder.

(** The class attribute [PostboxDecoder.registry]: type hash to schema
    decoder. A schema decoder is called on a fresh decoder over the payload;
    it returns its object or raises. *)
Variable registry : gmap Z (PostboxDecoder -> outcome).

Section Step.

(** [self._readObject], one nesting level down. *)
Variable readObject : option bool -> M PostboxDecoder pyvalue.

Definition readValue_with (decodeObjects : option bool)
  : M PostboxDecoder (ValueType.t * pyvalue) :=
  tag <- on_bio read_uint8 ;;
  valueType <- ValueType.of_value tag ;;
  value <-
    match valueType with
    | ValueType.Int32 => z <- on_bio read_int32 ;; ret (PInt z)
    | ValueType.Int64 => z <- on_bio read_int64 ;; ret (PInt z)
    | ValueType.Bool => z <- on_bio read_uint8 ;; ret (PBool (negb (z =? 0)))
    | ValueType.Double => z <- on_bio read_double ;; ret (PFloat z)
    | ValueType.String => s <- on_bio read_str ;; ret (PStr s)
    | ValueType.Object => readObject decodeObjects
    | ValueType.Int32Array =>
        alen <- on_bio read_int32 ;;
        l <- repeatM (Z.to_nat alen) (on_bio read_int32) ;;
        ret (PList (PInt <$> l))
    | ValueType.Int64Array =>
        alen <- on_bio read_int32 ;;
        l <- repeatM (Z.to_nat alen) (on_bio read_int64) ;;
        ret (PList (PInt <$> l))
    | ValueType.ObjectArray =>
        alen <- on_bio read_int32 ;;
        l <- repeatM (Z.to_nat alen) (readObject decodeObjects) ;;
        ret (PList l)
    | ValueType.ObjectDictionary =>
        dlen <- on_bio read_int32 ;;
        l <- repeatM (Z.to_nat dlen)
               (k <- readObject decodeObjects ;;
                v <- readObject decodeObjects ;;
                ret (PTuple k v)) ;;
        ret (PList l)
    | ValueType.Bytes =>
        data <- on_bio read_bytes ;;
        ret (match data with [] => PNone | _ => PStr (hex data) end)
    | ValueType.Nil => ret PNone
    | ValueType.StringArray =>
        alen <- on_bio read_int32 ;;
        l <- repeatM (Z.to_nat alen) (on_bio read_str) ;;
        ret (PList (PStr <$> l))
    | ValueType.BytesArray =>
        alen <- on_bio read_int32 ;;
        l <- repeatM (Z.to_nat alen) (on_bio read_bytes) ;;
        ret (PList ((fun b => PStr (hex b)) <$> l))
    end ;;
  ret (valueType, value).

(** One step of the generator [_iter_kv] after its first line: [None] when
    the loop breaks, the yielded triple otherwise. *)
Definition kv_next_with (decodeObjects : option bool)
  : M PostboxDecoder (option kv_entry) :=
  pos <- on_bio buf_tell ;;
  size <- self_size ;;
  if (size <=? pos)%nat then ret None
  else
    key <- on_bio read_short_str ;;
    let* (valueType, value) := readValue_with decodeObjects in
    ret (Some (key, valueType, value)).

(** The generator run to its end, as a comprehension does; [k] bounds the
    number of steps. *)
Fixpoint kv_collect_with (decodeObjects : option bool) (k : nat)
  : M PostboxDecoder (list kv_entry) :=
  match k with
  | O => lift_res OutOfFuel
  | S k' =>
      o <- kv_next_with decodeObjects ;;
      match o with
      | None => ret []
      | Some e => es <- kv_collect_with decodeObjects k' ;; ret (e :: es)
      end
  end.

(** The generator from its first line, which rewinds the cursor. *)
Definition iter_kv_with (decodeObjects : option bool) (k : nat)
  : M PostboxDecoder (list kv_entry) :=
  _ <- on_bio buf_seek0 ;; kv_collect_with decodeObjects k.

(** The loop of [get] over the generator. *)
Fixpoint get_loop_with (valueType : option ValueType.t) (key : pystr)
    (decodeObjects : option bool) (k : nat)
  : M PostboxDecoder (option ValueType.t * pyvalue) :=
  match k with
  | O => lift_res OutOfFuel
  | S k' =>
      o <- kv_next_with decodeObjects ;;
      match o with
      | None => ret (None, PNone)
      | Some (k0, t, v) =>
          if negb (bool_decide (k0 = key))
          then get_loop_with valueType key decodeObjects k'
          else
            match valueType with
            | None => ret (Some t, v)
            | Some vt =>
                if bool_decide (t = vt) then ret (Some t, v)
                else if bool_decide (t = ValueType.Nil) then ret (Some t, PNone)
                else get_loop_with valueType key decodeObjects k'
            end
      end
  end.

End Step.

(** The number of generator steps that is enough for a decoder: every step
    reads at least one byte. *)
Definition steps_for (d : PostboxDecoder) : nat := S (length (buf_data (bio d))).

(** [_readObject]; [depth] is the nesting of objects that the recursion
    limit of the interpreter still leaves room for: every object inside an
    object takes the frames of [readValue], [_readObject], the
    comprehension and the generator, and the call that finds no room
    raises [RecursionError]. The [registry] argument of the source is
    assigned and never read. *)
Fixpoint _readObject (depth : nat) (decode : option bool)
  : M PostboxDecoder pyvalue :=
  match depth with
  | O => raise RecursionError
  | S depth' =>
      let decode := match decode with None => true | Some b => b end in
      typeHash <- on_bio read_int32 ;;
      dataLen <- on_bio read_int32 ;;
      data <- on_bio (buf_read dataLen) ;;
      if negb decode
      then ret (PDict [(str "type", PInt typeHash); (str "data", PStr (hex data))])
      else
        match registry !! typeHash with
        | Some t => lift_outcome (t (PostboxDecoder_init data))
        | None =>
            let decoder := PostboxDecoder_init data in
            es <- lift_res
                    (iter_kv_with (_readObject depth') None
                       (steps_for decoder) decoder).1 ;;
            ret (PDict (dict_set AT_TYPE (PInt typeHash) (dict_of_entries es)))
        end
  end.

(** The first three reads of [_readObject]: the type hash and the payload. *)
Definition read_object_header : M PostboxDecoder (Z * bytes) :=
  typeHash <- on_bio read_int32 ;;
  dataLen <- on_bio read_int32 ;;
  data <- on_bio (buf_read dataLen) ;;
  ret (typeHash, data).

(** The nesting of objects that the recursion limit leaves room for where
    a method of the decoder is called from outside. *)
Variable recursion_limit : nat.

Definition readValue (decodeObjects : option bool)
  : M PostboxDecoder (ValueType.t * pyvalue) :=
  readValue_with (_readObject recursion_limit) decodeObjects.

(** [list(self._iter_kv(decodeObjects))]: the generator from its first
    line, which rewinds the cursor, to its end. *)
Definition _iter_kv (decodeObjects : option bool)
  : M PostboxDecoder (list kv_entry) :=
  fun d =>
    iter_kv_with (_readObject recursion_limit) decodeObjects (steps_for d) d.

Definition get (valueType : option ValueType.t) (key : pystr)
    (decodeObjects : option bool)
  : M PostboxDecoder (option ValueType.t * pyvalue) :=
  fun d =>
    (_ <- on_bio buf_seek0 ;;
     get_loop_with (_readObject recursion_limit) valueType key decodeObjects
       (steps_for d)) d.

Definition decodeObjectForKey (key : pystr) : M PostboxDecoder pyvalue :=
  let* (t, v) := get (Some ValueType.Object) key None in
  if truthy v then ret v else ret PNone.

Definition decodeRootObject : M PostboxDecoder pyvalue :=
  decodeObjectForKey (str "_").

End Decoder.

(** ** Message records *)

(** [n.bit_length()]. *)
Definition bit_length (n : Z) : Z :=
  if n =? 0 then 0 else Z.log2 (Z.abs n) + 1.

(** [cls(value)] for an [enum.IntFlag] class whose members have the bits
    [flag_mask]: the value of the member, or of the pseudo-member that
    [Flag._missing_] makes under the boundary [KEEP] of [IntFlag] (enum.py
    of Python 3.11). A negative value stands for the flags it leaves
    unset. *)
Definition IntFlag_value (flag_mask value : Z) : Z :=
  let all_bits := 2 ^ bit_length flag_mask - 1 in
  let value :=
    if negb ((Z.lnot all_bits <=? value) && (value <=? all_bits))
       || negb (Z.land value (Z.lxor all_bits flag_mask) =? 0)
    then
      if value <? 0
      then Z.max (all_bits + 1) (2 ^ bit_length value) + value
      else value
    else value in
  if value <? 0 then all_bits + 1 + value else value.

(** [flag in flags] for a member of an [IntFlag]. *)
Definition flag_in (flag flags : Z) : bool := Z.land flag flags =? flag.

Module MessageFlags.
Definition members : list (string * Z) :=
  [("Unsent", 1); ("Failed", 2); ("Incoming", 4); ("TopIndexable", 16);
   ("Sending", 32); ("CanBeGroupedIntoFeed", 64); ("WasScheduled", 128);
   ("CountedAsIncoming", 256)]%string.
End MessageFlags.

Module MessageDataFlags.
Definition GloballyUniqueId : Z := Z.shiftl 1 0.
Definition GlobalTags : Z := Z.shiftl 1 1.
Definition GroupingKey : Z := Z.shiftl 1 2.
Definition GroupInfo : Z := Z.shiftl 1 3.
Definition LocalTags : Z := Z.shiftl 1 4.
Definition ThreadId : Z := Z.shiftl 1 5.
End MessageDataFlags.

Module MessageTags.
Definition members : list (string * Z) :=
  [("PhotoOrVideo", Z.shiftl 1 0); ("File", Z.shiftl 1 1);
   ("Music", Z.shiftl 1 2); ("WebPage", Z.shiftl 1 3);
   ("VoiceOrInstantVideo", Z.shiftl 1 4);
   ("UnseenPersonalMessage", Z.shiftl 1 5); ("LiveLocation", Z.shiftl 1 6);
   ("Gif", Z.shiftl 1 7); ("Photo", Z.shiftl 1 8); ("Video", Z.shiftl 1 9);
   ("Pinned", Z.shiftl 1 10)]%string.
End MessageTags.

Module FwdInfoFlags.
Definition SourceId : Z := Z.shiftl 1 1.
Definition SourceMessage : Z := Z.shiftl 1 2.
Definition Signature : Z := Z.shiftl 1 3.
Definition PsaType : Z := Z.shiftl 1 4.
Definition Flags : Z := Z.shiftl 1 5.
Definition flag_mask : Z :=
  Z.lor SourceId (Z.lor SourceMessage (Z.lor Signature (Z.lor PsaType Flags))).
(** [FwdInfoFlags(value)]. *)
Definition of_int (value : Z) : Z := IntFlag_value flag_mask value.
End FwdInfoFlags.

(** The names of the members of an enumeration that are in [flags], in the
    order of the enumeration. *)
Definition flag_names (members : list (string * Z)) (flags : Z) : pyvalue :=
  PList ((fun m : string * Z => PStr (str m.1))
           <$> filter (fun m : string * Z => flag_in m.2 flags = true) members).

(** [x = read() if flag in flags else None]. *)
Definition read_if {S} (flag flags : Z) (m : M S pyvalue) : M S pyvalue :=
  if flag_in flag flags then m else ret PNone.

Definition read_PInt (m : M byteutil Z) : M byteutil pyvalue :=
  z <- m ;; ret (PInt z).

Definition read_PStr : M byteutil pyvalue :=
  s <- read_str ;; ret (PStr s).

Definition read_intermediate_fwd_info : M byteutil pyvalue :=
  value <- read_int8 ;;
  let infoFlags := FwdInfoFlags.of_int value in
  if infoFlags =? 0 then ret PNone
  else
    authorId <- read_int64 ;;
    date <- read_int32 ;;
    sourceId <- read_if FwdInfoFlags.SourceId infoFlags (read_PInt read_int64) ;;
    let* (sourceMessagePeerId, sourceMessageNamespace, sourceMessageIdId) :=
      (if flag_in FwdInfoFlags.SourceMessage infoFlags
       then
         p <- read_int64 ;; n <- read_int32 ;; i <- read_int32 ;;
         ret (PInt p, PInt n, PInt i)
       else ret (PNone, PNone, PNone)) in
    signature <- read_if FwdInfoFlags.Signature infoFlags read_PStr ;;
    psaType <- read_if FwdInfoFlags.PsaType infoFlags read_PStr ;;
    flags <- read_if FwdInfoFlags.Flags infoFlags (read_PInt read_int32) ;;
    ret (PDict
           [(str "authorId", PInt authorId);
            (str "date", PInt date);
            (str "sourceId", sourceId);
            (str "sourceMessagePeerId", sourceMessagePeerId);
            (str "sourceMessageNamespace", sourceMessageNamespace);
            (str "sourceMessageIdId", sourceMessageIdId);
            (str "signature", signature);
            (str "psaType", psaType);
            (str "flags", flags)]).

(** [str(e)] of a caught exception. Only [EOFError] reaches the handler of
    [read_intermediate_message_complete] (lemma [message_body_raises]). *)
Definition exc_str (e : pyexc) : pystr :=
  match e with
  | EOFError msg => msg
  | DecoderError msg => msg
  | StructError => str "unpack requires a buffer"
  | ValueError_enum v => str_of_int v ++ str " is not a valid ValueType"
  | ValueError_cipher => str "Data must be padded to 16 byte boundary in CBC mode"
  | TypeError => str "TypeError"
  | AttributeError => str "AttributeError"
  | KeyError k => [39] ++ k ++ [39]
  | HashMismatch h c =>
      str "Hash mismatch: " ++ str_of_int h ++ str " != " ++ str_of_int c
  | RecursionError => str "maximum recursion depth exceeded"
  end.

Section Messages.

Variable registry : gmap Z (PostboxDecoder -> outcome).
Variable recursion_limit : nat.

(** The guarded body of the two item loops: the object under the root key
    of the item, or, on any exception, [{'raw': data.hex()}]. *)
Definition decode_item (data : bytes) : res pyvalue :=
  match (decodeRootObject registry recursion_limit (PostboxDecoder_init data)).1 with
  | Ok v => Ok v
  | Raise _ => Ok (PDict [(str "raw", PStr (hex data))])
  | OutOfFuel => OutOfFuel
  end.

(** The record type byte of a value is there and is not 0. *)
Definition invalid_discriminant (value : bytes) : bool :=
  match value with
  | b :: _ => negb (byte_val b =? 0)
  | [] => false
  end.

(** What an item becomes: its decoded object, or the fallback built from
    its raw bytes when decoding raises. *)
Definition raw_fallback (data : bytes) : pyvalue :=
  PDict [(str "raw", PStr (hex data))].

Definition item_or_fallback (data : bytes) : pyvalue :=
  match (decodeRootObject registry recursion_limit (PostboxDecoder_init data)).1 with
  | Ok v => v
  | _ => raw_fallback data
  end.

(** One round of the attribute loop and of the embedded media loop. *)
Definition read_item : M byteutil pyvalue :=
  data <- read_bytes ;; lift_res (decode_item data).

Definition read_items : M byteutil pyvalue :=
  count <- read_int32 ;;
  l <- repeatM (Z.to_nat count) read_item ;;
  ret (PList l).

Definition read_referenced_media_id : M byteutil pyvalue :=
  idNamespace <- read_int32 ;;
  idId <- read_int64 ;;
  ret (PDict [(str "namespace", PInt idNamespace); (str "id", PInt idId)]).

(** What follows the type byte of a complete message. *)
Definition message_fields : M byteutil pyvalue :=
  stableId <- read_uint32 ;;
  stableVer <- read_uint32 ;;
  dataFlags <- read_uint8 ;;
  globallyUniqueId <-
    read_if MessageDataFlags.GloballyUniqueId dataFlags (read_PInt read_int64) ;;
  globalTags <-
    read_if MessageDataFlags.GlobalTags dataFlags (read_PInt read_uint32) ;;
  groupingKey <-
    read_if MessageDataFlags.GroupingKey dataFlags (read_PInt read_int64) ;;
  groupInfoStableId <-
    read_if MessageDataFlags.GroupInfo dataFlags (read_PInt read_uint32) ;;
  localTagsVal <-
    read_if MessageDataFlags.LocalTags dataFlags (read_PInt read_uint32) ;;
  threadId <-
    read_if MessageDataFlags.ThreadId dataFlags (read_PInt read_int64) ;;
  flags <- read_uint32 ;;
  tags <- read_uint32 ;;
  fwd_info <- read_intermediate_fwd_info ;;
  hasAuthorId <- read_int8 ;;
  authorId <- (if hasAuthorId =? 1 then read_PInt read_int64 else ret PNone) ;;
  text <- read_str ;;
  attributes <- read_items ;;
  embeddedMedia <- read_items ;;
  referencedMediaIdsCount <- read_int32 ;;
  referencedMediaIds <-
    repeatM (Z.to_nat referencedMediaIdsCount) read_referenced_media_id ;;
  let tag_list := flag_names MessageTags.members tags in
  let flag_list := flag_names MessageFlags.members flags in
  ret (PDict
         [(str "stableId", PInt stableId);
          (str "stableVersion", PInt stableVer);
          (str "globallyUniqueId", globallyUniqueId);
          (str "authorId", authorId);
          (str "text", PStr text);
          (str "flags", flag_list);
          (str "tags", tag_list);
          (str "forwarded", fwd_info);
          (str "attributes", attributes);
          (str "embeddedMedia", embeddedMedia);
          (str "referencedMediaIds", PList referencedMediaIds);
          (str "groupingKey", groupingKey);
          (str "threadId", threadId);
          (str "globalTags", globalTags);
          (str "localTags", localTagsVal)]).

(** The [try] block. *)
Definition message_body : M byteutil pyvalue :=
  typ <- read_int8 ;;
  if negb (typ =? 0) then ret PNone else message_fields.

(** [read_intermediate_message_complete]: [None] for a record of another
    type, the message, or the error record of the handler. *)
Definition read_intermediate_message_complete (v : bytes) : res pyvalue :=
  match (message_body (byteutil_init v LittleEndian)).1 with
  | Ok r => Ok r
  | Raise e =>
      Ok (PDict [(str "error", PStr (exc_str e));
                 (str "raw_hex", PStr (take 200 (hex v)))])
  | OutOfFuel => OutOfFuel
  end.

End Messages.

(** ** The scan of the message table *)

Record MessageIndex : Type := mk_MessageIndex {
  peerId : Z;
  namespace : Z;
  id : Z;
  timestamp : Z
}.

(** [MessageIndex.from_bytes]. *)
Definition MessageIndex_from_bytes (b : bytes) : res MessageIndex :=
  ((peerId <- read_int64 ;;
    namespace <- read_int32 ;;
    timestamp <- read_int32 ;;
    mid <- read_int32 ;;
    ret (mk_MessageIndex peerId namespace mid timestamp))
     (byteutil_init b BigEndian)).1.

(** [d.get(k, default)] on a [dict]. *)
Definition dict_get_default (k : pystr) (default : pyvalue)
    (d : list (pystr * pyvalue)) : pyvalue :=
  match dict_get k d with
  | Some v => v
  | None => default
  end.

(** [x in l] for a list [l] and a [str] [x]. *)
Definition str_in_list (x : pystr) (l : pyvalue) : bool :=
  match l with
  | PList vs =>
      existsb (fun v => match v with
                        | PStr s => bool_decide (s = x)
                        | _ => false
                        end) vs
  | _ => false
  end.

Section Scan.

Variable registry : gmap Z (PostboxDecoder -> outcome).
Variable recursion_limit : nat.

(** The answer of the connection to the query of [get_peer_info] on table
    t2, by the text of the key: the value of the row found, if any. The
    query itself is taken not to fail. *)
Variable t2_value : pystr -> option bytes.

(** [datetime.datetime.fromtimestamp(t)], rendered by [isoformat()],
    [strftime('%Y-%m-%d')] and [strftime('%H:%M:%S')]; [None] when the
    conversion raises. *)
Variable fromtimestamp : Z -> option (pystr * pystr * pystr).

(** The [cache] default argument of [get_peer_info], which lives as long as
    the function does. *)
Definition peer_cache : Type := gmap Z pyvalue.

Definition get_peer_info (peer_id : option Z) : M peer_cache pyvalue :=
  fun cache =>
    match peer_id with
    | None => (Ok PNone, cache)
    | Some pid =>
        match cache !! pid with
        | Some info => (Ok info, cache)
        | None =>
            match t2_value (str_of_int pid) with
            | None =>
                let info := PDict [(str "id", PInt pid); (str "unknown", PBool true)] in
                (Ok info, <[pid := info]> cache)
            | Some v =>
                match (decodeRootObject registry recursion_limit (PostboxDecoder_init v)).1 with
                | Ok (PDict data) =>
                    let peer_info :=
                      PDict
                        [(str "id", PInt pid);
                         (str "firstName", dict_get_default (str "fn") (PStr []) data);
                         (str "lastName", dict_get_default (str "ln") (PStr []) data);
                         (str "username", dict_get_default (str "un") (PStr []) data);
                         (str "phone", dict_get_default (str "ph") (PStr []) data)] in
                    (Ok peer_info, <[pid := peer_info]> cache)
                | Ok _ | Raise _ =>
                    let info := PDict [(str "id", PInt pid); (str "parseError", PBool true)] in
                    (Ok info, <[pid := info]> cache)
                | OutOfFuel => (OutOfFuel, cache)
                end
            end
        end
    end.

(** The peer id held by a message field, when it is an [int]. *)
Definition as_peer_id (v : pyvalue) : option Z :=
  match v with
  | PInt z => Some z
  | _ => None
  end.

(** What one round of the loop over the rows does with its row: [None] for
    [continue], the entry appended to [messages] otherwise. *)
Definition scan_row (peer_id : Z) (row : bytes * bytes)
  : M peer_cache (option pyvalue) :=
  let (key, value) := row in
  match MessageIndex_from_bytes key with
  | Raise _ => ret None
  | OutOfFuel => lift_res OutOfFuel
  | Ok idx =>
      if negb (peerId idx =? peer_id) then ret None
      else
        msgv <- lift_res (read_intermediate_message_complete registry recursion_limit value) ;;
        match msgv with
        | PDict msg =>
            let author_id := dict_get_default (str "authorId") PNone msg in
            author_info <-
              (if truthy author_id then get_peer_info (as_peer_id author_id)
               else ret PNone) ;;
            forwarded <-
              match dict_get_default (str "forwarded") PNone msg with
              | PDict fwd =>
                  let fwd_author := dict_get_default (str "authorId") PNone fwd in
                  if truthy (PDict fwd) && truthy fwd_author
                  then
                    info <- get_peer_info (as_peer_id fwd_author) ;;
                    ret (PDict (dict_set (str "authorInfo") info fwd))
                  else ret (PDict fwd)
              | other => ret other
              end ;;
            match fromtimestamp (timestamp idx) with
            | None => ret None
            | Some (iso, date, time) =>
                let flags := dict_get_default (str "flags") (PList []) msg in
                ret (Some (PDict
                  [(str "id", PInt (id idx));
                   (str "namespace", PInt (namespace idx));
                   (str "timestamp", PInt (timestamp idx));
                   (str "datetime", PStr iso);
                   (str "date", PStr date);
                   (str "time", PStr time);
                   (str "direction",
                    PStr (if str_in_list (str "Incoming") flags
                          then str "received" else str "sent"));
                   (str "author", author_info);
                   (str "text", dict_get_default (str "text") (PStr []) msg);
                   (str "flags", flags);
                   (str "tags", dict_get_default (str "tags") (PList []) msg);
                   (str "forwarded", forwarded);
                   (str "attributes",
                    dict_get_default (str "attributes") (PList []) msg);
                   (str "embeddedMedia",
                    dict_get_default (str "embeddedMedia") (PList []) msg);
                   (str "referencedMediaIds",
                    dict_get_default (str "referencedMediaIds") (PList []) msg);
                   (str "metadata",
                    PDict
                      [(str "stableId", dict_get_default (str "stableId") PNone msg);
                       (str "globallyUniqueId",
                        dict_get_default (str "globallyUniqueId") PNone msg);
                       (str "groupingKey",
                        dict_get_default (str "groupingKey") PNone msg);
                       (str "threadId",
                        dict_get_default (str "threadId") PNone msg)])]))
            end
        | _ => ret None
        end
  end.

(** The loop of [extract_complete_chat] over the rows of table t7, in
    order: the list [messages]. *)
Fixpoint scan_rows (peer_id : Z) (rows : list (bytes * bytes))
  : M peer_cache (list pyvalue) :=
  match rows with
  | [] => ret []
  | row :: rows' =>
      o <- scan_row peer_id row ;;
      rest <- scan_rows peer_id rows' ;;
      ret (match o with Some m => m :: rest | None => rest end)
  end.

Definition extract_complete_chat (rows : list (bytes * bytes)) (peer_id : Z)
  : M peer_cache (list pyvalue) :=
  scan_rows peer_id rows.

(** A row of the chat that is asked for: its key is a message index of
    that peer, with a timestamp the clock converts. *)
Definition row_in_scope (peer_id : Z) (row : bytes * bytes) : Prop :=
  exists idx,
    MessageIndex_from_bytes row.1 = Ok idx
    /\ peerId idx = peer_id
    /\ is_Some (fromtimestamp (timestamp idx)).

End Scan.

(** ** Media identifiers (create_media_index.py) *)

Section MediaIdentity.

(** [str(v)] of a [float] or of a container, as an f-string renders it;
    the text the runtime gives them is not spelled out here. *)
Variable str_of_object : pyvalue -> pystr.

(** [f"{v}"]. *)
Definition py_str (v : pyvalue) : pystr :=
  match v with
  | PNone => str "None"
  | PBool true => str "True"
  | PBool false => str "False"
  | PInt z => str_of_int z
  | PStr s => s
  | _ => str_of_object v
  end.

(** [v == x] for a [str] [x]. *)
Definition is_str (x : pystr) (v : pyvalue) : bool :=
  match v with
  | PStr s => bool_decide (s = x)
  | _ => false
  end.

(** [p] starts [s]; [p] occurs in [s]. *)
Fixpoint str_prefix (p s : pystr) : bool :=
  match p, s with
  | [], _ => true
  | _ :: _, [] => false
  | a :: p', b :: s' => (a =? b) && str_prefix p' s'
  end.

Fixpoint str_infix (p s : pystr) : bool :=
  str_prefix p s
  || match s with
     | [] => false
     | _ :: s' => str_infix p s'
     end.

(** [k in v] for a [str] [k]: a key of a [dict], an item of a list or
    tuple, a substring of a [str]; [TypeError] on anything else. *)
Definition py_contains (k : pystr) (v : pyvalue) : res bool :=
  match v with
  | PDict d => Ok (bool_decide (is_Some (dict_get k d)))
  | PList l => Ok (existsb (is_str k) l)
  | PTuple a b => Ok (is_str k a || is_str k b)
  | PStr s => Ok (str_infix k s)
  | _ => Raise TypeError
  end.

(** [v[k]] for a [str] [k]: the value of the key in a [dict], [KeyError]
    without the key, [TypeError] on a value that a [str] does not index. *)
Definition py_getitem (k : pystr) (v : pyvalue) : res pyvalue :=
  match v with
  | PDict d =>
      match dict_get k d with
      | Some x => Ok x
      | None => Raise (KeyError k)
      end
  | _ => Raise TypeError
  end.

(** [v.get(k, default)]. *)
Definition py_get (k : pystr) (default : pyvalue) (v : pyvalue) : res pyvalue :=
  match v with
  | PDict d => Ok (dict_get_default k default d)
  | _ => Raise AttributeError
  end.

Definition res_bind {A B} (r : res A) (k : A -> res B) : res B :=
  match r with
  | Ok a => k a
  | Raise e => Raise e
  | OutOfFuel => OutOfFuel
  end.

(** [a and b] on two tests, the second evaluated only when the first
    holds. *)
Definition res_and (a : res bool) (b : res bool) : res bool :=
  res_bind a (fun x => if x then b else Ok false).

(** The body of the loop over the representations: the identifiers one
    representation adds. *)
Definition rep_media_ids (rep : pyvalue) : res (list pystr) :=
  match rep with
  | PDict rd =>
      match dict_get (str "r") rd with
      | Some res =>
          res_bind (res_and (py_contains (str "d") res) (py_contains (str "i") res))
            (fun has_both =>
               if has_both : bool
               then
                 res_bind (py_getitem (str "d") res) (fun dc =>
                 res_bind (py_getitem (str "i") res) (fun photo_id =>
                 res_bind (py_get (str "s") (PStr (str "x")) res) (fun size =>
                 Ok [str "telegram-cloud-photo-size-" ++ py_str dc ++ str "-"
                     ++ py_str photo_id ++ str "-" ++ py_str size])))
               else Ok [])
      | None => Ok []
      end
  | _ => Ok []
  end.

(** The loop over [media_obj['r']]. *)
Fixpoint reps_media_ids (reps : list pyvalue) : res (list pystr) :=
  match reps with
  | [] => Ok []
  | rep :: reps' =>
      res_bind (rep_media_ids rep) (fun ids =>
      res_bind (reps_media_ids reps') (fun ids' => Ok (ids ++ ids')))
  end.

Definition parse_media_ids (media_obj : pyvalue) : res (list pystr) :=
  match media_obj with
  | PDict d =>
      res_bind
        (match dict_get (str "r") d with
         | Some (PList reps) => reps_media_ids reps
         | _ => Ok []
         end) (fun photo_ids =>
      res_bind
        (match dict_get (str "r") d with
         | Some (PDict rd) =>
             let res := PDict rd in
             res_bind (res_and (py_contains (str "d") res) (py_contains (str "f") res))
               (fun has_both =>
                  if has_both : bool
                  then
                    res_bind (py_getitem (str "d") res) (fun dc =>
                    res_bind (py_getitem (str "f") res) (fun file_id =>
                    Ok [str "telegram-cloud-document-" ++ py_str dc ++ str "-"
                        ++ py_str file_id]))
                  else Ok [])
         | _ => Ok []
         end) (fun document_ids =>
      Ok (photo_ids ++ document_ids)))
  | _ => Ok []
  end.

(** [extract_referenced_media_id]: the identifier, or [None]. *)
Definition extract_referenced_media_id (ref : pyvalue) : option pystr :=
  match ref with
  | PDict d =>
      let namespace := dict_get_default (str "namespace") PNone d in
      let media_id := dict_get_default (str "id") PNone d in
      match namespace, media_id with
      | PNone, _ | _, PNone => None
      | _, _ =>
          Some (str "telegram-cloud-document-" ++ py_str namespace ++ str "-"
                ++ py_str media_id)
      end
  | _ => None
  end.

(** A representation entry whose nested resource exposes datacenter [dc]
    and photo id [photo_id], with the size label [size] when it has one. *)
Definition is_representation (rep dc photo_id : pyvalue) (size : option pyvalue)
  : Prop :=
  exists rd res,
    rep = PDict rd
    /\ dict_get (str "r") rd = Some (PDict res)
    /\ dict_get (str "d") res = Some dc
    /\ dict_get (str "i") res = Some photo_id
    /\ dict_get (str "s") res = size.

Definition photo_size_identifier (dc photo_id : pyvalue) (size : option pyvalue)
  : pystr :=
  str "telegram-cloud-photo-size-" ++ py_str dc ++ str "-" ++ py_str photo_id
  ++ str "-" ++ py_str (default (PStr (str "x")) size).

End MediaIdentity.

(** ** Key recovery (decrypt_db.py) *)

(** *** [mmh3.hash]: MurmurHash3, 32-bit x86 variant, signed result *)

Definition u32 (z : Z) : Z := z mod 2 ^ 32.

Definition rotl32 (x r : Z) : Z :=
  u32 (Z.lor (Z.shiftl x r) (Z.shiftr x (32 - r))).

Definition murmur_k (k : Z) : Z :=
  u32 (rotl32 (u32 (k * 3432918353)) 15 * 461845907).

Fixpoint murmur_blocks (data : bytes) (h : Z) : Z :=
  match data with
  | b0 :: b1 :: b2 :: b3 :: rest =>
      let k := le_uint [b0; b1; b2; b3] in
      let h := Z.lxor h (murmur_k k) in
      let h := rotl32 h 13 in
      murmur_blocks rest (u32 (h * 5 + 3864292196))
  | [] => h
  | tail => Z.lxor h (murmur_k (le_uint tail))
  end.

Definition fmix32 (h : Z) : Z :=
  let h := Z.lxor h (Z.shiftr h 16) in
  let h := u32 (h * 2246822507) in
  let h := Z.lxor h (Z.shiftr h 13) in
  let h := u32 (h * 3266489909) in
  Z.lxor h (Z.shiftr h 16).

Definition mmh3_hash (data : bytes) (seed : Z) : Z :=
  let h := murmur_blocks data (u32 seed) in
  to_signed 32 (fmix32 (Z.lxor h (u32 (Z.of_nat (length data))))).

Definition DEFAULT_PASSWORD : pystr := str "no-matter-key".

Definition murmur (d : bytes) : Z := mmh3_hash d 0xf7ca7fd2.

(** [struct.unpack('<i', data)[0]]. *)
Definition unpack_le_i (data : bytes) : res Z :=
  if bool_decide (length data = 4%nat)
  then Ok (unpack LittleEndian Fmt_i data)
  else Raise StructError.

(** [len(dbPad) != 12 or any(dbPad)]. *)
Definition pad_not_12_zeros (dbPad : bytes) : bool :=
  negb (bool_decide (length dbPad = 12%nat))
  || existsb (fun b => negb (byte_val b =? 0)) dbPad.

Section KeyRecovery.

(** [SHA512.new().update(d).digest()]. *)
Variable SHA512_digest : bytes -> bytes.

(** [AES.new(key=k, iv=iv, mode=AES.MODE_CBC).decrypt(data)]; [None] when
    the cipher raises [ValueError] (a length it does not accept). *)
Variable AES_CBC_decrypt : bytes -> bytes -> bytes -> option bytes.

Definition tempkey_kdf (password : pystr) : bytes * bytes :=
  let digest := SHA512_digest (utf8_encode password) in
  (take 32 digest, drop (length digest - 16) digest).

Definition WARN_PAD : pystr := str "WARN: dbPad not 12 zeros".

(** [tempkey_parse]; the state is what has been printed. *)
Definition tempkey_parse (dataEnc : bytes) (pwd : pystr)
  : M (list pystr) (bytes * bytes) :=
  let (aesKey, aesIV) := tempkey_kdf pwd in
  match AES_CBC_decrypt aesKey aesIV dataEnc with
  | None => raise ValueError_cipher
  | Some data =>
      let dbKey := take 32 data in
      let dbSalt := take 16 (drop 32 data) in
      dbHash <- lift_res (unpack_le_i (take 4 (drop 48 data))) ;;
      let dbPad := drop 52 data in
      _ <- (if pad_not_12_zeros dbPad
            then fun out => (Ok tt, out ++ [WARN_PAD])
            else ret tt) ;;
      let calcHash := murmur (dbKey ++ dbSalt) in
      if negb (dbHash =? calcHash)
      then raise (HashMismatch dbHash calcHash)
      else ret (dbKey, dbSalt)
  end.

End KeyRecovery.

(** ** The key handed to sqlcipher (decrypt_db.py, decrypt_database.py) *)

Definition QUOTE : Z := 34.
Definition NEWLINE : Z := 10.

(** [tempkey_pragma]: [binascii.hexlify(...).decode('utf-8')] is the text of
    the lowercase hexadecimal digits. *)
Definition tempkey_pragma (dbKey dbSalt : bytes) : pystr :=
  let key := hex (dbKey ++ dbSalt) in
  str "PRAGMA key=" ++ [QUOTE] ++ str "x'" ++ key ++ str "'" ++ [QUOTE] ++ str ";".

(** [s.endswith(suffix)]. *)
Definition str_suffix (suffix s : pystr) : bool :=
  str_prefix (reverse suffix) (reverse s).

(** What [decrypt_database] asks of the machine it runs on: whether
    [shutil.which('sqlcipher')] finds the tool, [os.path.exists] before the
    run, and the run of [sqlcipher] on a database with the commands on its
    standard input, which gives the return code and [os.path.exists] as it
    is afterwards, or [None] when starting or talking to the process
    raises. *)
Record sqlcipher_host : Type := mk_sqlcipher_host {
  which_sqlcipher : bool;
  path_exists : pystr -> bool;
  run_sqlcipher : pystr -> pystr -> option (Z * (pystr -> bool))
}.

(** The key without its [x'...'] wrapper: the first lines of
    [decrypt_database] after its two checks. *)
Definition strip_key_wrapper (key_hex : pystr) : pystr :=
  if str_prefix (str "x'") key_hex && str_suffix (str "'") key_hex
  then drop 2 (take (length key_hex - 1) key_hex)
  else key_hex.

(** The text of [sql_commands]. *)
Definition sql_commands (key_hex output_path : pystr) : pystr :=
  [NEWLINE] ++ str "PRAGMA key=" ++ [QUOTE] ++ str "x'" ++ key_hex ++ str "'"
  ++ [QUOTE] ++ str ";" ++ [NEWLINE]
  ++ str "ATTACH DATABASE '" ++ output_path ++ str "' AS plaintext KEY '';"
  ++ [NEWLINE]
  ++ str "SELECT sqlcipher_export('plaintext');" ++ [NEWLINE]
  ++ str "DETACH DATABASE plaintext;" ++ [NEWLINE].

(** [decrypt_database]: its result; what it prints is left out. *)
Definition decrypt_database (host : sqlcipher_host)
    (encrypted_db_path key_hex output_path : pystr) : bool :=
  if negb (which_sqlcipher host) then false
  else if negb (path_exists host encrypted_db_path) then false
  else
    let key_hex := strip_key_wrapper key_hex in
    match run_sqlcipher host encrypted_db_path (sql_commands key_hex output_path) with
    | None => false
    | Some (returncode, exists_after) =>
        if negb (returncode =? 0) then false
        else if exists_after output_path then true
        else false
    end.

(** A lowercase hexadecimal digit. *)
Definition is_hex_digit (c : Z) : Prop := 48 <= c <= 57 \/ 97 <= c <= 102.

(** A representation whose resource, if it has one, is a mapping. *)
Definition resource_is_mapping (rep : pyvalue) : Prop :=
  match rep with
  | PDict rd =>
      match dict_get (str "r") rd with
      | Some (PDict _) | None => True
      | Some _ => False
      end
  | _ => True
  end.

(** ** Predicates on methods *)

(** Every run of [m] takes a state to one related by [R]. *)
Definition preserves {S A} (R : S -> S -> Prop) (m : M S A) : Prop :=
  forall s r s', m s = (r, s') -> R s s'.

(** From a state in [P], [m] returns or raises: the steps the model gives
    a loop are not what ends the run. *)
Definition safe {S A} (P : S -> Prop) (m : M S A) : Prop :=
  forall s, P s -> (m s).1 <> OutOfFuel.

(** Every exception [m] raises is in [E]. *)
Definition raises_only {S A} (E : pyexc -> Prop) (m : M S A) : Prop :=
  forall s e s', m s = (Raise e, s') -> E e.

(** The one exception of [read_fmt]. *)
Definition is_EOFError (e : pyexc) : Prop := e = EOFError NOT_ENOUGH_DATA.

(** [m] returns from every state. *)
Definition returns {S A} (m : M S A) : Prop :=
  forall s, exists a s', m s = (Ok a, s').

(** No condition on the state. *)
Definition any_state {S} (_ : S) : Prop := True.

(** The reads keep the data and the endianness of a [byteutil] and move
    its cursor forward. *)
Definition bio_stable (b b' : byteutil) : Prop :=
  buf_data b' = buf_data b /\ endian b' = endian b
  /\ (buf_pos b <= buf_pos b')%nat.

Definition dec_stable (d d' : PostboxDecoder) : Prop :=
  bio_stable (bio d) (bio d') /\ size d' = size d.

(** Two states of a decoder over the same buffer, the cursor anywhere. *)
Definition same_buffer (d d' : PostboxDecoder) : Prop :=
  buf_data (bio d') = buf_data (bio d)
  /\ endian (bio d') = endian (bio d)
  /\ size d' = size d.

(** The decoders over at most [n] bytes. *)
Definition data_within (n : nat) (d : PostboxDecoder) : Prop :=
  (length (buf_data (bio d)) <= n)%nat.

(** The bytes of a [byteutil] from its cursor on. *)
Definition remaining (b : byteutil) : bytes := drop (buf_pos b) (buf_data b).

(** Move the cursor of a decoder forward by [n] bytes. *)
Definition advance (n : nat) (d : PostboxDecoder) : PostboxDecoder :=
  mk_PostboxDecoder
    (mk_byteutil (endian (bio d)) (buf_data (bio d)) (buf_pos (bio d) + n))
    (size d).

(** ** Ranges, lookups and shapes used in the statements *)

(** The values a format character stands for: from the first of the pair,
    below the second. *)
Definition fmt_range (f : fmt) : Z * Z :=
  match f with
  | Fmt_b => (- 2 ^ 7, 2 ^ 7)
  | Fmt_B => (0, 2 ^ 8)
  | Fmt_i => (- 2 ^ 31, 2 ^ 31)
  | Fmt_I => (0, 2 ^ 32)
  | Fmt_q => (- 2 ^ 63, 2 ^ 63)
  | Fmt_Q | Fmt_d => (0, 2 ^ 64)
  end.

(** The number of bytes between the cursor and the end of the data. *)
Definition bytes_left (b : byteutil) : nat := length (buf_data b) - buf_pos b.

(** The value of the last entry with key [k], as the comprehension of
    [_readObject] leaves it in the mapping. *)
Definition entries_last (k : pystr) (es : list kv_entry) : option pyvalue :=
  foldl (fun acc (e : kv_entry) =>
           if bool_decide (e.1.1 = k) then Some e.2 else acc) None es.

(** The scan of [get] over entries that are already decoded. *)
Fixpoint get_in_entries (valueType : option ValueType.t) (key : pystr)
    (es : list kv_entry) : option ValueType.t * pyvalue :=
  match es with
  | [] => (None, PNone)
  | (k0, t, v) :: es' =>
      if negb (bool_decide (k0 = key)) then get_in_entries valueType key es'
      else
        match valueType with
        | None => (Some t, v)
        | Some vt =>
            if bool_decide (t = vt) then (Some t, v)
            else if bool_decide (t = ValueType.Nil) then (Some t, PNone)
            else get_in_entries valueType key es'
        end
  end.

(** The reads keep the cursor within the data. *)
Definition bio_within (b b' : byteutil) : Prop :=
  bio_stable b b'
  /\ ((buf_pos b <= length (buf_data b))%nat ->
      (buf_pos b' <= length (buf_data b'))%nat).

Definition dec_within (d d' : PostboxDecoder) : Prop :=
  bio_within (bio d) (bio d') /\ size d' = size d.

(** A generic mapping: a [dict] that holds a type hash under [@type]. *)
Definition is_generic_mapping (v : pyvalue) : Prop :=
  exists d typeHash, v = PDict d /\ dict_get AT_TYPE d = Some (PInt typeHash).

(** The keys of a decoded message, in the order of the [dict] returned. *)
Definition message_keys : list pystr :=
  [str "stableId"; str "stableVersion"; str "globallyUniqueId"; str "authorId";
   str "text"; str "flags"; str "tags"; str "forwarded"; str "attributes";
   str "embeddedMedia"; str "referencedMediaIds"; str "groupingKey";
   str "threadId"; str "globalTags"; str "localTags"].

(** The error record of [read_intermediate_message_complete] for the one
    exception that reaches its handler. *)
Definition error_record (v : bytes) : pyvalue :=
  PDict [(str "error", PStr NOT_ENOUGH_DATA);
         (str "raw_hex", PStr (take 200 (hex v)))].

(** The first [n] triples that the generator [_iter_kv] yields, as
    [list(itertools.islice(self._iter_kv(decodeObjects), n))] collects
    them: the generator is not resumed after the [n]th. *)
Fixpoint kv_first (registry : gmap Z (PostboxDecoder -> outcome))
    (recursion_limit : nat) (decodeObjects : option bool) (n : nat)
  : M PostboxDecoder (list kv_entry) :=
  match n with
  | O => ret []
  | S n' =>
      o <- kv_next_with (_readObject registry recursion_limit) decodeObjects ;;
      match o with
      | None => ret []
      | Some e =>
          es <- kv_first registry recursion_limit decodeObjects n' ;;
          ret (e :: es)
      end
  end.

Definition iter_kv_first (registry : gmap Z (PostboxDecoder -> outcome))
    (recursion_limit : nat) (decodeObjects : option bool) (n : nat)
  : M PostboxDecoder (list kv_entry) :=
  _ <- on_bio buf_seek0 ;; kv_first registry recursion_limit decodeObjects n.

(** An entry at which [get(ValueType.Object, key)] stops: it has the key,
    and its type is Object or Nil. *)
Definition stops_get (key : pystr) (e : kv_entry) : Prop :=
  e.1.1 = key /\ (e.1.2 = ValueType.Object \/ e.1.2 = ValueType.Nil).

(** The reads of [read_intermediate_message_complete] between the type
    byte and the attribute loop, from the stable id to the text, for where
    they leave the cursor. *)
Definition message_head : M byteutil unit :=
  stableId <- read_uint32 ;;
  stableVer <- read_uint32 ;;
  dataFlags <- read_uint8 ;;
  globallyUniqueId <-
    read_if MessageDataFlags.GloballyUniqueId dataFlags (read_PInt read_int64) ;;
  globalTags <-
    read_if MessageDataFlags.GlobalTags dataFlags (read_PInt read_uint32) ;;
  groupingKey <-
    read_if MessageDataFlags.GroupingKey dataFlags (read_PInt read_int64) ;;
  groupInfoStableId <-
    read_if MessageDataFlags.GroupInfo dataFlags (read_PInt read_uint32) ;;
  localTagsVal <-
    read_if MessageDataFlags.LocalTags dataFlags (read_PInt read_uint32) ;;
  threadId <-
    read_if MessageDataFlags.ThreadId dataFlags (read_PInt read_int64) ;;
  flags <- read_uint32 ;;
  tags <- read_uint32 ;;
  fwd_info <- read_intermediate_fwd_info ;;
  hasAuthorId <- read_int8 ;;
  authorId <- (if hasAuthorId =? 1 then read_PInt read_int64 else ret PNone) ;;
  text <- read_str ;;
  ret tt.

(** A row that gives an entry of the chat of [peer_id]: its key is a
    message index of that peer, its record has the type byte 0 (or none),
    and the clock converts the timestamp of the key. *)
Definition row_emits (fromtimestamp : Z -> option (pystr * pystr * pystr))
    (peer_id : Z) (row : bytes * bytes) : bool :=
  match MessageIndex_from_bytes row.1 with
  | Ok idx =>
      (peerId idx =? peer_id)
      && negb (invalid_discriminant row.2)
      && bool_decide (is_Some (fromtimestamp (timestamp idx)))
  | _ => false
  end.

(** An entry of the output that carries the index of the key of [row]. *)
Definition entry_of_row (row : bytes * bytes) (entry : pyvalue) : Prop :=
  exists idx d,
    MessageIndex_from_bytes row.1 = Ok idx
    /\ entry = PDict d
    /\ dict_get (str "id") d = Some (PInt (id idx))
    /\ dict_get (str "namespace") d = Some (PInt (namespace idx))
    /\ dict_get (str "timestamp") d = Some (PInt (timestamp idx)).

(** ** Sample inputs *)

Module Samples.

(** Stand-ins for the two library primitives, for running the key recovery
    on a plaintext container: a digest of 64 fixed bytes and a cipher that
    leaves 16-byte blocks as they are. *)
Definition plain_digest (_ : bytes) : bytes := mk_bytes (seqZ 0 64).

Definition plain_cipher (key iv data : bytes) : option bytes :=
  if bool_decide (length key = 32%nat) && bool_decide (length iv = 16%nat)
     && (length data mod 16 =? 0)%nat
  then Some data else None.

(** Key bytes 1..32, salt bytes 33..48, their murmur checksum -468123024,
    and padding whose last byte is not zero. *)
Definition container : bytes :=
  mk_bytes (seqZ 1 48 ++ [112; 2; 25; 228] ++ [0; 0; 0; 0; 0; 0; 0; 0; 0; 0; 0; 7]).

(** The same with the first checksum byte changed. *)
Definition tampered_container : bytes :=
  mk_bytes (seqZ 1 48 ++ [113; 2; 25; 228] ++ [0; 0; 0; 0; 0; 0; 0; 0; 0; 0; 0; 0]).

(** The entry [_ = "abc"] (String), and the same bytes without the last
    one. *)
Definition string_entry : bytes := mk_bytes [1; 95; 4; 3; 0; 0; 0; 97; 98; 99].

Definition string_entry_cut : bytes := take 9 string_entry.

(** A key [_] in front of the tag 14, and the decoder once the key is
    read. *)
Definition bad_tag_entry : bytes := mk_bytes [1; 95; 14].

Definition at_bad_tag : PostboxDecoder := advance 2 (PostboxDecoder_init bad_tag_entry).

(** The entry [_ = Object] of type hash 1 with the payload [a = 7]
    (Int32), and the decoder once key and tag are read. *)
Definition object_payload : bytes := mk_bytes [1; 97; 0; 7; 0; 0; 0].

Definition object_entry : bytes :=
  mk_bytes [1; 95; 5; 1; 0; 0; 0; 7; 0; 0; 0] ++ object_payload.

Definition at_object : PostboxDecoder := advance 3 (PostboxDecoder_init object_entry).

(** A registry whose decoder for type hash 1 returns an empty mapping. *)
Definition empty_schema (_ : PostboxDecoder) : outcome := Returned (PDict []).

Definition registry_1 : gmap Z (PostboxDecoder -> outcome) := {[ 1 := empty_schema ]}.

(** The entry [_ = Object] of type hash 1 with an empty payload. *)
Definition empty_object_entry : bytes :=
  mk_bytes [1; 95; 5; 1; 0; 0; 0; 0; 0; 0; 0].

(** One embedded media item: the root object (type hash 22) holds under
    [r] an array of one representation (type hash 33), whose resource
    (type hash 11) has [d = 2], [i = 555] and [s = "w"]. *)
Definition media_item : bytes :=
  mk_bytes
    [1; 95; 5; 22; 0; 0; 0; 52; 0; 0; 0; 1; 114; 8; 1; 0; 0; 0; 33; 0; 0; 0;
     37; 0; 0; 0; 1; 114; 5; 11; 0; 0; 0; 26; 0; 0; 0; 1; 100; 0; 2; 0; 0; 0;
     1; 105; 1; 43; 2; 0; 0; 0; 0; 0; 0; 1; 115; 4; 1; 0; 0; 0; 119].

(** Two items as the loops read them, each behind its length: the key
    with the unknown tag, then the media item. *)
Definition two_items : bytes :=
  mk_bytes [3; 0; 0; 0] ++ bad_tag_entry ++ mk_bytes [63; 0; 0; 0] ++ media_item.

(** A complete message: type 0, stable id 1 and version 2, data flags
    ThreadId with thread id 9, flags Incoming, tags PhotoOrVideo, no
    forward info, no author, the text "hi", one attribute (the key with the
    unknown tag), one embedded media item, no referenced media. *)
Definition message_record : bytes :=
  mk_bytes
    [0; 1; 0; 0; 0; 2; 0; 0; 0; 32; 9; 0; 0; 0; 0; 0; 0; 0; 4; 0; 0; 0;
     1; 0; 0; 0; 0; 0; 2; 0; 0; 0; 104; 105]
  ++ mk_bytes [1; 0; 0; 0; 3; 0; 0; 0] ++ bad_tag_entry
  ++ mk_bytes [1; 0; 0; 0; 63; 0; 0; 0] ++ media_item
  ++ mk_bytes [0; 0; 0; 0].

(** The media item decoded. *)
Definition media_object : pyvalue :=
  PDict
    [(str "r",
      PList
        [PDict
           [(str "r",
             PDict [(str "d", PInt 2); (str "i", PInt 555);
                    (str "s", PStr (str "w")); (str "@type", PInt 11)]);
            (str "@type", PInt 33)]]);
     (str "@type", PInt 22)].

(** The key of message 1 of peer 7, namespace 0, timestamp 0. *)
Definition message_key : bytes :=
  mk_bytes [0; 0; 0; 0; 0; 0; 0; 7; 0; 0; 0; 0; 0; 0; 0; 0; 0; 0; 0; 1].

(** A record of type 1. *)
Definition other_record : bytes := mk_bytes [1; 0; 0; 0; 0].

(** A table t2 without rows, and a clock that renders the timestamp 0. *)
Definition no_peers (_ : pystr) : option bytes := None.

Definition clock (t : Z) : option (pystr * pystr * pystr) :=
  if t =? 0
  then Some (str "1970-01-01T00:00:00", str "1970-01-01", str "00:00:00")
  else None.

(** An embedded image with two representations, the second without size
    label. *)
Definition resource_w : list (pystr * pyvalue) :=
  [(str "d", PInt 2); (str "i", PInt 555); (str "s", PStr (str "w"))].

Definition resource_nosize : list (pystr * pyvalue) :=
  [(str "d", PInt 2); (str "i", PInt 556)].

Definition image_reps : list pyvalue :=
  [PDict [(str "r", PDict resource_w)]; PDict [(str "r", PDict resource_nosize)]].

Definition image : list (pystr * pyvalue) := [(str "r", PList image_reps)].

(** A host with the tool and the database, on which the run succeeds and
    leaves the output in place. *)
Definition good_host : sqlcipher_host :=
  mk_sqlcipher_host true (fun _ => true) (fun _ _ => Some (0, fun _ => true)).

(** Room for 200 nested objects under the recursion limit. *)
Definition limit : nat := 200.

(** No float or container is rendered in the samples. *)
Definition no_object (_ : pyvalue) : pystr := [].

End Samples.

(** * Properties *)

(** ** Dictionaries *)

Lemma dict_get_set_eq k v d : dict_get k (dict_set k v d) = Some v.
Proof.
  induction d as [|[k' v'] d IH]; simpl.
  - by rewrite bool_decide_eq_true_2.
  - case_bool_decide as Hk; simpl.
    + by rewrite bool_decide_eq_true_2.
    + by rewrite bool_decide_eq_false_2.
Qed.

Lemma dict_get_set_ne k k0 v d :
  k0 <> k -> dict_get k0 (dict_set k v d) = dict_get k0 d.
Proof.
  intros Hne. induction d as [|[k' v'] d IH]; simpl.
  - by rewrite bool_decide_eq_false_2.
  - case_bool_decide as Hk; simpl.
    + subst k'. by rewrite !bool_decide_eq_false_2.
    + case_bool_decide; [done | apply IH].
Qed.

Lemma dict_set_keys k v d x :
  x ∈ (dict_set k v d).*1 <-> x = k \/ x ∈ d.*1.
Proof.
  induction d as [|[k' v'] d IH]; simpl.
  - apply elem_of_cons.
  - case_bool_decide as Hk; simpl.
    + subst k'. rewrite !elem_of_cons. tauto.
    + rewrite !elem_of_cons, IH. tauto.
Qed.

Lemma dict_set_NoDup k v d : NoDup d.*1 -> NoDup (dict_set k v d).*1.
Proof.
  induction d as [|[k' v'] d IH]; simpl; intros Hd.
  - apply NoDup_singleton.
  - pose proof (NoDup_cons_1_1 _ _ Hd) as Hk'.
    pose proof (NoDup_cons_1_2 _ _ Hd) as Hd'.
    case_bool_decide as Hk; simpl.
    + subst k'. by apply NoDup_cons_2.
    + apply NoDup_cons_2; [|by apply IH].
      rewrite dict_set_keys. intros [->|Hin]; [done | by apply Hk'].
Qed.

(** The mapping of a comprehension over entries: its keys are the keys of
    the entries, and a key holds the value of its last entry. *)
Lemma dict_of_entries_from d es :
  (forall k,
      dict_get k (foldl (fun d (e : kv_entry) => dict_set e.1.1 e.2 d) d es)
      = foldl (fun acc (e : kv_entry) =>
                 if bool_decide (e.1.1 = k) then Some e.2 else acc)
          (dict_get k d) es)
  /\ (forall k,
        k ∈ (foldl (fun d (e : kv_entry) => dict_set e.1.1 e.2 d) d es).*1
        <-> k ∈ d.*1 \/ exists t v, (k, t, v) ∈ es).
Proof.
  revert d. induction es as [|[[k0 t0] v0] es IH]; intros d; simpl.
  - split; [done|]. intros k. split; [tauto|].
    intros [H|(t & v & H)]; [done | by apply elem_of_nil in H].
  - destruct (IH (dict_set k0 v0 d)) as [H1 H2]. split.
    + intros k. rewrite H1. f_equal. case_bool_decide as Hk.
      * rewrite <- Hk. apply dict_get_set_eq.
      * apply dict_get_set_ne. congruence.
    + intros k. rewrite H2, dict_set_keys. split.
      * intros [[->|H]|(t & v & H)].
        -- right. exists t0, v0. apply elem_of_cons. by left.
        -- by left.
        -- right. exists t, v. apply elem_of_cons. by right.
      * intros [H|(t & v & H)]; [tauto|].
        apply elem_of_cons in H as [[= -> -> ->]|H]; [tauto|].
        right. by exists t, v.
Qed.

Lemma dict_get_of_entries k es :
  dict_get k (dict_of_entries es) = entries_last k es.
Proof. apply (dict_of_entries_from [] es). Qed.

Lemma dict_of_entries_keys k es :
  k ∈ (dict_of_entries es).*1 <-> exists t v, (k, t, v) ∈ es.
Proof.
  unfold dict_of_entries. rewrite (proj2 (dict_of_entries_from [] es) k).
  split; [|tauto]. intros [H|H]; [by apply elem_of_nil in H | done].
Qed.

(** ** The state-and-exception monad *)

Section MonadFacts.

Context {S : Type}.

Lemma bind_Ok {A B} (m : M S A) (k : A -> M S B) s a s1 :
  m s = (Ok a, s1) -> bind m k s = k a s1.
Proof. intros H. unfold bind. by rewrite H. Qed.

Lemma bind_Raise {A B} (m : M S A) (k : A -> M S B) s e s1 :
  m s = (Raise e, s1) -> bind m k s = (Raise e, s1).
Proof. intros H. unfold bind. by rewrite H. Qed.

Lemma bind_Ok_inv {A B} (m : M S A) (k : A -> M S B) s b s' :
  bind m k s = (Ok b, s') ->
  exists a s1, m s = (Ok a, s1) /\ k a s1 = (Ok b, s').
Proof.
  unfold bind. destruct (m s) as [[a|e|] s1]; try discriminate. eauto.
Qed.

Lemma bind_inv {A B} (m : M S A) (k : A -> M S B) s r s' :
  bind m k s = (r, s') ->
  (exists a s1, m s = (Ok a, s1) /\ k a s1 = (r, s'))
  \/ (exists e, m s = (Raise e, s') /\ r = Raise e)
  \/ (m s = (OutOfFuel, s') /\ r = OutOfFuel).
Proof.
  unfold bind. destruct (m s) as [[a|e|] s1]; intros H.
  - left. eauto.
  - right. left. injection H as <- <-. eauto.
  - right. right. by injection H as <- <-.
Qed.

Section Preserves.

Context (R : S -> S -> Prop) `{!Reflexive R} `{!Transitive R}.

Lemma preserves_ret {A} (a : A) : preserves R (ret a).
Proof. intros s r s' [= <- <-]. reflexivity. Qed.

Lemma preserves_raise {A} e : preserves R (raise e : M S A).
Proof. intros s r s' [= <- <-]. reflexivity. Qed.

Lemma preserves_lift_res {A} (x : res A) : preserves R (lift_res x).
Proof. intros s r s' [= <- <-]. reflexivity. Qed.

Lemma preserves_lift_outcome o : preserves R (lift_outcome o : M S pyvalue).
Proof. destruct o; [apply preserves_ret | apply preserves_raise]. Qed.

Lemma preserves_bind {A B} (m : M S A) (k : A -> M S B) :
  preserves R m -> (forall a, preserves R (k a)) -> preserves R (bind m k).
Proof.
  intros Hm Hk s r s' H.
  destruct (bind_inv _ _ _ _ _ H) as [(a & s1 & H1 & H2)|[(e & H1 & _)|[H1 _]]].
  - etrans; [by eapply Hm | by eapply Hk].
  - by eapply Hm.
  - by eapply Hm.
Qed.

Lemma preserves_repeatM {A} n (m : M S A) :
  preserves R m -> preserves R (repeatM n m).
Proof.
  intros Hm. induction n as [|n IH]; simpl.
  - apply preserves_ret.
  - apply preserves_bind; [done|]. intros x.
    apply preserves_bind; [done|]. intros xs. apply preserves_ret.
Qed.

Section Safe.

Context (P : S -> Prop) (P_closed : forall s s', P s -> R s s' -> P s').

Lemma safe_ret {A} (a : A) : safe P (ret a).
Proof. by intros s _. Qed.

Lemma safe_raise {A} e : safe P (raise e : M S A).
Proof. by intros s _. Qed.

Lemma safe_lift_outcome o : safe P (lift_outcome o : M S pyvalue).
Proof. destruct o; [apply safe_ret | apply safe_raise]. Qed.

Lemma safe_bind {A B} (m : M S A) (k : A -> M S B) :
  safe P m -> preserves R m -> (forall a, safe P (k a)) -> safe P (bind m k).
Proof.
  intros Hm Hp Hk s Hs. unfold bind.
  destruct (m s) as [[a|e|] s1] eqn:E; simpl; try done.
  - apply Hk. eapply P_closed; [done|]. by eapply Hp.
  - specialize (Hm s Hs). by rewrite E in Hm.
Qed.

Lemma safe_repeatM {A} n (m : M S A) :
  safe P m -> preserves R m -> safe P (repeatM n m).
Proof.
  intros Hm Hp. induction n as [|n IH]; simpl.
  - apply safe_ret.
  - apply safe_bind; [done..|]. intros x.
    apply safe_bind; [done|by apply preserves_repeatM|]. intros xs. apply safe_ret.
Qed.

End Safe.

End Preserves.

End MonadFacts.

(** ** Key recovery *)

Section KeyRecoveryFacts.

Variable SHA512_digest : bytes -> bytes.
Variable AES_CBC_decrypt : bytes -> bytes -> bytes -> option bytes.

Local Abbreviation kdf := (tempkey_kdf SHA512_digest).
Local Abbreviation parse := (tempkey_parse SHA512_digest AES_CBC_decrypt).

(** What [tempkey_parse] does once the container is decrypted and the
    stored checksum is read. *)
Lemma tempkey_parse_decrypted dataEnc pwd data dbHash out :
  AES_CBC_decrypt (kdf pwd).1 (kdf pwd).2 dataEnc = Some data ->
  unpack_le_i (take 4 (drop 48 data)) = Ok dbHash ->
  parse dataEnc pwd out =
    let out' := if pad_not_12_zeros (drop 52 data) then out ++ [WARN_PAD] else out in
    let calcHash := murmur (take 32 data ++ take 16 (drop 32 data)) in
    if dbHash =? calcHash
    then (Ok (take 32 data, take 16 (drop 32 data)), out')
    else (Raise (HashMismatch dbHash calcHash), out').
Proof.
  intros Hdec Hun. unfold tempkey_parse.
  destruct (kdf pwd) as [k iv] eqn:Hk. simpl in Hdec. rewrite Hdec.
  unfold bind, lift_res. rewrite Hun.
  destruct (pad_not_12_zeros (drop 52 data)); simpl;
    destruct (dbHash =? _); reflexivity.
Qed.

(** Without a decrypted container or without four checksum bytes the call
    raises something else than the hash mismatch. *)
Lemma tempkey_parse_mismatch_inv dataEnc pwd out h c out' :
  parse dataEnc pwd out = (Raise (HashMismatch h c), out') ->
  exists data,
    AES_CBC_decrypt (kdf pwd).1 (kdf pwd).2 dataEnc = Some data
    /\ unpack_le_i (take 4 (drop 48 data)) = Ok h
    /\ c = murmur (take 32 data ++ take 16 (drop 32 data))
    /\ h <> c.
Proof.
  intros H.
  destruct (AES_CBC_decrypt (kdf pwd).1 (kdf pwd).2 dataEnc) as [data|] eqn:Hdec.
  - destruct (unpack_le_i (take 4 (drop 48 data))) as [dbHash| |] eqn:Hun.
    + rewrite (tempkey_parse_decrypted _ _ _ _ _ Hdec Hun) in H. simpl in H.
      destruct (dbHash =? _) eqn:Hq; [discriminate|].
      injection H as -> <- _. exists data. repeat split; try done.
      intros ->. by rewrite Z.eqb_refl in Hq.
    + exfalso. unfold tempkey_parse in H.
      destruct (kdf pwd) as [k iv]. simpl in Hdec. rewrite Hdec in H.
      unfold bind, lift_res in H. rewrite Hun in H.
      unfold unpack_le_i in Hun. case_bool_decide; congruence.
    + unfold unpack_le_i in Hun. case_bool_decide; discriminate.
  - exfalso. unfold tempkey_parse in H.
    destruct (kdf pwd) as [k iv]. simpl in Hdec. rewrite Hdec in H. discriminate.
Qed.

(** C2. [tempkey_parse] raises the hash mismatch exactly when the murmur
    checksum recomputed over key and salt (plaintext bytes 0:32 and 32:48)
    differs from the little-endian signed 32-bit number stored at plaintext
    bytes 48:52. When the two agree the call returns key and salt whatever
    the padding bytes from 52 on are; padding that is not twelve zero bytes
    only adds the warning line to the output. *)
Theorem C2_checksum_decides dataEnc pwd out :
  ((exists h c out', parse dataEnc pwd out = (Raise (HashMismatch h c), out'))
   <->
   (exists data dbHash,
      AES_CBC_decrypt (kdf pwd).1 (kdf pwd).2 dataEnc = Some data
      /\ unpack_le_i (take 4 (drop 48 data)) = Ok dbHash
      /\ dbHash <> murmur (take 32 data ++ take 16 (drop 32 data))))
  /\
  (forall data dbHash,
      AES_CBC_decrypt (kdf pwd).1 (kdf pwd).2 dataEnc = Some data ->
      unpack_le_i (take 4 (drop 48 data)) = Ok dbHash ->
      dbHash = murmur (take 32 data ++ take 16 (drop 32 data)) ->
      parse dataEnc pwd out =
        (Ok (take 32 data, take 16 (drop 32 data)),
         if pad_not_12_zeros (drop 52 data) then out ++ [WARN_PAD] else out)).
Proof.
  split; [split|].
  - intros (h & c & out' & H).
    destruct (tempkey_parse_mismatch_inv _ _ _ _ _ _ H) as (data & ? & ? & -> & ?).
    by exists data, h.
  - intros (data & dbHash & Hdec & Hun & Hne).
    rewrite (tempkey_parse_decrypted _ _ _ _ _ Hdec Hun). simpl.
    destruct (dbHash =? _) eqn:Hq.
    + apply Z.eqb_eq in Hq. contradiction.
    + eauto.
  - intros data dbHash Hdec Hun ->.
    rewrite (tempkey_parse_decrypted _ _ _ _ _ Hdec Hun). simpl.
    by rewrite Z.eqb_refl.
Qed.

(** C3. For a digest of 64 bytes, as SHA-512 gives, the key is its first
    32 bytes and the IV its last 16 (bytes 48 to 64). The container is
    decrypted with this key and this IV, and the plaintext decides the
    call: with a plaintext whose stored checksum is the one of its bytes
    0:32 and 32:48 the call returns these, 32 and 16 bytes long, as the
    database key and the salt; a call that returns has returned just
    these; and where the cipher gives no plaintext the call raises and
    returns nothing. *)
Theorem C3_derivation_and_partition dataEnc pwd out :
  let digest := SHA512_digest (utf8_encode pwd) in
  let key := take 32 digest in
  let iv := drop (length digest - 16) digest in
  (length digest = 64%nat ->
   kdf pwd = (take 32 digest, drop 48 digest)
   /\ length (kdf pwd).1 = 32%nat
   /\ length (kdf pwd).2 = 16%nat)
  /\ (forall data,
        AES_CBC_decrypt key iv dataEnc = Some data ->
        unpack_le_i (take 4 (drop 48 data))
        = Ok (murmur (take 32 data ++ take 16 (drop 32 data))) ->
        (exists out',
            parse dataEnc pwd out
            = (Ok (take 32 data, take 16 (drop 32 data)), out'))
        /\ length (take 32 data) = 32%nat
        /\ length (take 16 (drop 32 data)) = 16%nat)
  /\ (forall dbKey dbSalt out',
        parse dataEnc pwd out = (Ok (dbKey, dbSalt), out') ->
        exists data,
          AES_CBC_decrypt key iv dataEnc = Some data
          /\ dbKey = take 32 data
          /\ dbSalt = take 16 (drop 32 data))
  /\ (AES_CBC_decrypt key iv dataEnc = None ->
      parse dataEnc pwd out = (Raise ValueError_cipher, out)).
Proof.
  intros digest key iv. split; [|split; [|split]].
  - intros Hlen. unfold tempkey_kdf. fold digest. rewrite Hlen. simpl.
    split; [done|]. rewrite length_take, length_drop. lia.
  - intros data Hdec Hun. split.
    + rewrite (tempkey_parse_decrypted _ _ _ _ _ Hdec Hun). simpl.
      rewrite Z.eqb_refl. by eexists.
    + unfold unpack_le_i in Hun. case_bool_decide as Hlen; [|discriminate].
      rewrite length_take, length_drop in Hlen.
      rewrite !length_take, length_drop. lia.
  - intros dbKey dbSalt out' H. unfold tempkey_parse in H.
    change (kdf pwd) with (key, iv) in H. simpl in H.
    destruct (AES_CBC_decrypt key iv dataEnc) as [data|]; [|discriminate].
    exists data. split; [reflexivity|].
    unfold bind, lift_res in H.
    destruct (unpack_le_i _); try discriminate.
    destruct (pad_not_12_zeros _); simpl in H;
      destruct (negb _); simpl in H; try discriminate;
      by injection H as -> -> _.
  - intros Hdec. unfold tempkey_parse.
    change (kdf pwd) with (key, iv). simpl. by rewrite Hdec.
Qed.

End KeyRecoveryFacts.

Lemma C2_checksum_decides_witness :
  tempkey_parse Samples.plain_digest Samples.plain_cipher
    Samples.container DEFAULT_PASSWORD []
  = (Ok (mk_bytes (seqZ 1 32), mk_bytes (seqZ 33 16)), [WARN_PAD])
  /\ exists h c out',
       tempkey_parse Samples.plain_digest Samples.plain_cipher
         Samples.tampered_container DEFAULT_PASSWORD []
       = (Raise (HashMismatch h c), out').
Proof.
  split.
  - apply (proj2 (C2_checksum_decides Samples.plain_digest Samples.plain_cipher
                    Samples.container DEFAULT_PASSWORD [])
             Samples.container (-468123024)); reflexivity.
  - apply (proj1 (C2_checksum_decides Samples.plain_digest Samples.plain_cipher
                    Samples.tampered_container DEFAULT_PASSWORD [])).
    exists Samples.tampered_container, (-468123023).
    split; [reflexivity|]. split; [reflexivity|]. vm_compute. discriminate.
Defined.

Lemma C3_derivation_and_partition_witness :
  (tempkey_kdf Samples.plain_digest DEFAULT_PASSWORD
   = (mk_bytes (seqZ 0 32), mk_bytes (seqZ 48 16))
   /\ length (tempkey_kdf Samples.plain_digest DEFAULT_PASSWORD).1 = 32%nat
   /\ length (tempkey_kdf Samples.plain_digest DEFAULT_PASSWORD).2 = 16%nat)
  /\ (exists out',
        tempkey_parse Samples.plain_digest Samples.plain_cipher
          Samples.container DEFAULT_PASSWORD []
        = (Ok (mk_bytes (seqZ 1 32), mk_bytes (seqZ 33 16)), out'))
  /\ (exists data,
        Samples.plain_cipher (mk_bytes (seqZ 0 32)) (mk_bytes (seqZ 48 16))
          Samples.container = Some data
        /\ mk_bytes (seqZ 1 32) = take 32 data
        /\ mk_bytes (seqZ 33 16) = take 16 (drop 32 data))
  /\ tempkey_parse Samples.plain_digest Samples.plain_cipher
       (take 63 Samples.container) DEFAULT_PASSWORD []
     = (Raise ValueError_cipher, []).
Proof.
  destruct (C3_derivation_and_partition Samples.plain_digest Samples.plain_cipher
              Samples.container DEFAULT_PASSWORD []) as (Hk & Hv & Hp & _).
  destruct (C3_derivation_and_partition Samples.plain_digest Samples.plain_cipher
              (take 63 Samples.container) DEFAULT_PASSWORD []) as (_ & _ & _ & Hn).
  split; [|split; [|split]].
  - apply Hk. reflexivity.
  - apply (Hv Samples.container); reflexivity.
  - apply (Hp _ _ [WARN_PAD]). reflexivity.
  - apply Hn. reflexivity.
Defined.

(** ** Media identifiers *)

Section MediaIdentityFacts.

Variable str_of_object : pyvalue -> pystr.

Lemma dict_get_contains k d v :
  dict_get k d = Some v -> py_contains k (PDict d) = Ok true.
Proof.
  intros H. simpl. by rewrite H.
Qed.

(** One representation with datacenter and photo id adds its identifier. *)
Lemma rep_media_ids_representation rep dc photo_id size :
  is_representation rep dc photo_id size ->
  rep_media_ids str_of_object rep
  = Ok [photo_size_identifier str_of_object dc photo_id size].
Proof.
  intros (rd & res & -> & Hr & Hd & Hi & Hs). unfold rep_media_ids.
  rewrite Hr. unfold res_and.
  rewrite (dict_get_contains _ _ _ Hd), (dict_get_contains _ _ _ Hi). simpl.
  rewrite Hd, Hi. simpl. unfold photo_size_identifier, dict_get_default.
  rewrite Hs. by destruct size.
Qed.

(** C7. An embedded media object whose ['r'] field is a list of
    representation entries, each with a nested resource that has a
    datacenter ['d'] and a photo id ['i'], yields one identifier
    [telegram-cloud-photo-size-<d>-<i>-<s>] per representation, in order,
    where [<s>] is ['x'] for a resource without size label. A referenced
    media pair [(namespace, id)], as the message decoder writes it, yields
    the identifier [telegram-cloud-document-<namespace>-<id>]. *)
Theorem C7_media_identifiers :
  (forall d reps,
      dict_get (str "r") d = Some (PList reps) ->
      Forall (fun rep => exists dc photo_id size,
                 is_representation rep dc photo_id size) reps ->
      exists ids,
        parse_media_ids str_of_object (PDict d) = Ok ids
        /\ Forall2 (fun rep ident => exists dc photo_id size,
                       is_representation rep dc photo_id size
                       /\ ident = photo_size_identifier str_of_object dc photo_id size)
             reps ids)
  /\ (forall namespace id,
        extract_referenced_media_id str_of_object
          (PDict [(str "namespace", PInt namespace); (str "id", PInt id)])
        = Some (str "telegram-cloud-document-" ++ str_of_int namespace
                ++ str "-" ++ str_of_int id)).
Proof.
  split; [|reflexivity].
  intros d reps Hr Hreps.
  assert (exists ids,
             reps_media_ids str_of_object reps = Ok ids
             /\ Forall2 (fun rep ident => exists dc photo_id size,
                            is_representation rep dc photo_id size
                            /\ ident = photo_size_identifier str_of_object
                                         dc photo_id size) reps ids)
    as (ids & Hids & Hall).
  { clear Hr. induction Hreps as [|rep reps Hrep _ IH].
    - exists []. split; [reflexivity | constructor].
    - destruct Hrep as (dc & pid & size & Hrep).
      destruct IH as (ids & IH & IHall).
      exists (photo_size_identifier str_of_object dc pid size :: ids). split.
      + simpl. rewrite (rep_media_ids_representation _ _ _ _ Hrep). simpl.
        by rewrite IH.
      + constructor; [|done]. by exists dc, pid, size. }
  exists ids. split; [|done].
  unfold parse_media_ids. rewrite Hr, Hids. simpl. by rewrite app_nil_r.
Qed.

End MediaIdentityFacts.

Lemma C7_media_identifiers_witness :
  exists ids,
    parse_media_ids Samples.no_object (PDict Samples.image) = Ok ids
    /\ Forall2 (fun rep ident => exists dc photo_id size,
                   is_representation rep dc photo_id size
                   /\ ident = photo_size_identifier Samples.no_object
                                dc photo_id size)
         Samples.image_reps ids.
Proof.
  apply (proj1 (C7_media_identifiers Samples.no_object)
           Samples.image Samples.image_reps); [reflexivity|].
  repeat constructor.
  - exists (PInt 2), (PInt 555), (Some (PStr (str "w"))).
    exists [(str "r", PDict Samples.resource_w)], Samples.resource_w.
    repeat split; reflexivity.
  - exists (PInt 2), (PInt 556), None.
    exists [(str "r", PDict Samples.resource_nosize)], Samples.resource_nosize.
    repeat split; reflexivity.
Defined.

(** The two examples of the specification, run. *)
Example parse_media_ids_image :
  parse_media_ids Samples.no_object (PDict Samples.image)
  = Ok [str "telegram-cloud-photo-size-2-555-w";
        str "telegram-cloud-photo-size-2-556-x"].
Proof. reflexivity. Qed.

Example extract_referenced_media_id_7_99 :
  extract_referenced_media_id Samples.no_object
    (PDict [(str "namespace", PInt 7); (str "id", PInt 99)])
  = Some (str "telegram-cloud-document-7-99").
Proof. reflexivity. Qed.

(** ** [byteutil] *)

#[local] Instance bio_stable_refl : Reflexive bio_stable.
Proof. by intros b. Qed.

#[local] Instance bio_stable_trans : Transitive bio_stable.
Proof.
  intros b1 b2 b3 (H1 & H2 & H3) (H4 & H5 & H6).
  repeat split; [congruence | congruence | lia].
Qed.

#[local] Instance dec_stable_refl : Reflexive dec_stable.
Proof. by intros d. Qed.

#[local] Instance dec_stable_trans : Transitive dec_stable.
Proof.
  intros d1 d2 d3 [H1 H2] [H3 H4]. split; [by etrans | congruence].
Qed.

Lemma buf_read_eq n b :
  buf_read n b =
    (Ok (if n <? 0 then remaining b else take (Z.to_nat n) (remaining b)),
     mk_byteutil (endian b) (buf_data b)
       (buf_pos b
        + length (if n <? 0 then remaining b else take (Z.to_nat n) (remaining b)))).
Proof. reflexivity. Qed.

Lemma preserves_buf_read n : preserves bio_stable (buf_read n).
Proof.
  intros b r b' H. rewrite buf_read_eq in H. injection H as _ <-.
  repeat split; simpl; lia.
Qed.

(** A read that returns has found all its bytes and has moved the cursor
    past them. *)
Lemma read_fmt_Ok_inv f b z b' :
  read_fmt f b = (Ok z, b') ->
  (buf_pos b + calcsize f <= length (buf_data b))%nat
  /\ b' = mk_byteutil (endian b) (buf_data b) (buf_pos b + calcsize f)
  /\ z = unpack (endian b) f (take (calcsize f) (remaining b)).
Proof.
  unfold read_fmt. intros H.
  apply bind_Ok_inv in H as (data & b1 & H1 & H2).
  rewrite buf_read_eq in H1.
  assert ((Z.of_nat (calcsize f) <? 0) = false) as Hn by (apply Z.ltb_ge; lia).
  rewrite Hn, Nat2Z.id in H1. injection H1 as <- <-.
  destruct (Nat.ltb _ _) eqn:Hlt; [discriminate|].
  apply Nat.ltb_ge in Hlt. injection H2 as <- <-.
  rewrite length_take in Hlt |- *. unfold remaining in *.
  rewrite length_drop in Hlt |- *.
  assert (0 < calcsize f)%nat by (destruct f; simpl; lia).
  split; [lia|]. split; [f_equal; lia | done].
Qed.

(** A read that does not return raises [EOFError] and nothing else. *)
Lemma read_fmt_cases f b :
  (exists z b', read_fmt f b = (Ok z, b'))
  \/ (exists b', read_fmt f b = (Raise (EOFError NOT_ENOUGH_DATA), b')).
Proof.
  unfold read_fmt, bind. rewrite buf_read_eq.
  destruct (Nat.ltb _ _); [right | left]; eauto.
Qed.

(** A read with its bytes in the buffer returns. *)
Lemma read_fmt_Ok f b :
  (buf_pos b + calcsize f <= length (buf_data b))%nat ->
  read_fmt f b =
    (Ok (unpack (endian b) f (take (calcsize f) (remaining b))),
     mk_byteutil (endian b) (buf_data b) (buf_pos b + calcsize f)).
Proof.
  intros Hle. unfold read_fmt, bind. rewrite buf_read_eq.
  assert ((Z.of_nat (calcsize f) <? 0) = false) as Hn by (apply Z.ltb_ge; lia).
  rewrite Hn, Nat2Z.id.
  assert (length (take (calcsize f) (remaining b)) = calcsize f) as Hlen.
  { rewrite length_take. unfold remaining. rewrite length_drop. lia. }
  unfold ret.
  rewrite Hlen. by rewrite Nat.ltb_irrefl.
Qed.

(** A read without its bytes raises [EOFError]. *)
Lemma read_fmt_EOF f b :
  (length (buf_data b) < buf_pos b + calcsize f)%nat ->
  exists b', read_fmt f b = (Raise (EOFError NOT_ENOUGH_DATA), b').
Proof.
  intros Hlt. destruct (read_fmt_cases f b) as [(z & b' & H)|H]; [|done].
  apply read_fmt_Ok_inv in H. lia.
Qed.

Lemma preserves_read_fmt f : preserves bio_stable (read_fmt f).
Proof.
  intros b r b' H. unfold read_fmt in H. revert H.
  apply (preserves_bind bio_stable); [apply preserves_buf_read|].
  intros data. destruct (Nat.ltb _ _);
    [apply preserves_raise | apply preserves_ret]; apply _.
Qed.

Lemma preserves_read_bytes : preserves bio_stable read_bytes.
Proof.
  apply preserves_bind; [apply _ | apply preserves_read_fmt|].
  intros. apply preserves_buf_read.
Qed.

Lemma preserves_read_str : preserves bio_stable read_str.
Proof.
  apply preserves_bind; [apply _ | apply preserves_read_bytes|].
  intros. apply preserves_ret. apply _.
Qed.

Lemma preserves_read_short_str : preserves bio_stable read_short_str.
Proof.
  apply preserves_bind; [apply _ | |intros; apply preserves_ret; apply _].
  apply preserves_bind; [apply _ | apply preserves_read_fmt|].
  intros. apply preserves_buf_read.
Qed.

Lemma safe_buf_read n : safe any_state (buf_read n).
Proof. by intros b _. Qed.

Lemma safe_read_fmt f : safe any_state (read_fmt f).
Proof.
  intros b _. destruct (read_fmt_cases f b) as [(z & b' & ->)|(b' & ->)]; done.
Qed.

Lemma safe_any_bind {S A B} (m : M S A) (k : A -> M S B) :
  safe any_state m -> (forall a, safe any_state (k a)) ->
  safe any_state (bind m k).
Proof.
  intros Hm Hk.
  apply (safe_bind (fun _ _ => True) any_state); try done.
Qed.

Lemma safe_read_bytes : safe any_state read_bytes.
Proof.
  apply safe_any_bind; [apply safe_read_fmt | intros; apply safe_buf_read].
Qed.

Lemma safe_read_str : safe any_state read_str.
Proof. apply safe_any_bind; [apply safe_read_bytes | by intros]. Qed.

Lemma safe_read_short_str : safe any_state read_short_str.
Proof.
  apply safe_any_bind; [|by intros].
  apply safe_any_bind; [apply safe_read_fmt | intros; apply safe_buf_read].
Qed.

(** ** [PostboxDecoder]: cursor, steps *)

Lemma on_bio_eq {A} (m : M byteutil A) d :
  on_bio m d = ((m (bio d)).1, mk_PostboxDecoder (m (bio d)).2 (size d)).
Proof. unfold on_bio. by destruct (m (bio d)). Qed.

Lemma on_bio_inv {A} (m : M byteutil A) d r d' :
  on_bio m d = (r, d') ->
  exists b', m (bio d) = (r, b') /\ d' = mk_PostboxDecoder b' (size d).
Proof.
  rewrite on_bio_eq. intros [= <- <-]. exists (m (bio d)).2.
  by destruct (m (bio d)).
Qed.

Lemma preserves_on_bio {A} (m : M byteutil A) :
  preserves bio_stable m -> preserves dec_stable (on_bio m).
Proof.
  intros Hm d r d' H. apply on_bio_inv in H as (b' & H & ->).
  split; [by eapply Hm | done].
Qed.

Lemma safe_on_bio {A} (P : PostboxDecoder -> Prop) (m : M byteutil A) :
  safe any_state m -> safe P (on_bio m).
Proof. intros Hm d _. rewrite on_bio_eq. by apply Hm. Qed.

Lemma data_within_stable n d d' :
  data_within n d -> dec_stable d d' -> data_within n d'.
Proof. unfold data_within. intros H [(-> & _) _]. done. Qed.

Lemma dec_bind_preserves {A B} (m : M PostboxDecoder A) (k : A -> M PostboxDecoder B) :
  preserves dec_stable m -> (forall a, preserves dec_stable (k a)) ->
  preserves dec_stable (bind m k).
Proof. apply preserves_bind; apply _. Qed.

Lemma dec_bind_safe n {A B} (m : M PostboxDecoder A) (k : A -> M PostboxDecoder B) :
  safe (data_within n) m -> preserves dec_stable m ->
  (forall a, safe (data_within n) (k a)) ->
  safe (data_within n) (bind m k).
Proof. apply safe_bind. apply data_within_stable. Qed.

Lemma of_value_cases {S} n :
  (exists t, ValueType.of_value (S:=S) n = ret t)
  \/ ValueType.of_value (S:=S) n = raise (ValueError_enum n).
Proof.
  destruct n as [|p|p]; simpl; eauto.
  do 4 (try destruct p as [p|p|]); simpl; eauto.
Qed.

Lemma of_value_unknown {S} n :
  13 < n -> ValueType.of_value (S:=S) n = raise (ValueError_enum n).
Proof.
  intros Hn. destruct n as [|p|p]; [lia| |lia].
  do 4 (try destruct p as [p|p|]); simpl; try reflexivity; lia.
Qed.

Create HintDb dec discriminated.

#[local] Hint Resolve preserves_on_bio preserves_read_fmt preserves_read_bytes
  preserves_read_str preserves_read_short_str preserves_buf_read : dec.
#[local] Hint Resolve safe_on_bio safe_read_fmt safe_read_bytes safe_read_str
  safe_read_short_str safe_buf_read : dec.
#[local] Hint Extern 1 (preserves bio_stable read_uint8) => apply preserves_read_fmt : dec.
#[local] Hint Extern 1 (preserves bio_stable read_int32) => apply preserves_read_fmt : dec.
#[local] Hint Extern 1 (preserves bio_stable read_int64) => apply preserves_read_fmt : dec.
#[local] Hint Extern 1 (preserves bio_stable read_double) => apply preserves_read_fmt : dec.
#[local] Hint Extern 1 (safe any_state read_uint8) => apply safe_read_fmt : dec.
#[local] Hint Extern 1 (safe any_state read_int32) => apply safe_read_fmt : dec.
#[local] Hint Extern 1 (safe any_state read_int64) => apply safe_read_fmt : dec.
#[local] Hint Extern 1 (safe any_state read_double) => apply safe_read_fmt : dec.

(** Break a goal on a method into goals on its calls. *)
Ltac method_preserves :=
  repeat first
    [ solve [eauto with dec]
    | apply preserves_ret; apply _
    | apply preserves_raise; apply _
    | apply preserves_lift_res; apply _
    | apply preserves_lift_outcome; apply _
    | apply preserves_repeatM; [apply _ | apply _ |]
    | apply dec_bind_preserves; [|intros] ].

Ltac method_safe n :=
  repeat first
    [ solve [eauto with dec]
    | apply safe_ret
    | apply safe_raise
    | apply safe_lift_outcome
    | apply (safe_repeatM dec_stable (data_within n) (data_within_stable n))
    | apply (dec_bind_safe n); [| |intros]
    | progress method_preserves ].

Lemma bind_not_fuel {S A B} (m : M S A) (k : A -> M S B) s :
  (m s).1 <> OutOfFuel ->
  (forall a s1, m s = (Ok a, s1) -> (k a s1).1 <> OutOfFuel) ->
  (bind m k s).1 <> OutOfFuel.
Proof.
  intros Hm Hk. unfold bind.
  destruct (m s) as [[a|e|] s1] eqn:E; simpl; try done. by eapply Hk.
Qed.

Lemma preserves_buf_tell : preserves bio_stable buf_tell.
Proof. intros b r b' [= <- <-]. reflexivity. Qed.

Lemma preserves_self_size : preserves dec_stable self_size.
Proof. intros b r b' [= <- <-]. reflexivity. Qed.

Lemma safe_buf_tell : safe any_state buf_tell.
Proof. by intros b _. Qed.

Lemma safe_self_size P : safe P self_size.
Proof. by intros b _. Qed.

#[local] Hint Resolve preserves_buf_tell preserves_self_size safe_buf_tell
  safe_self_size : dec.

Section StepFacts.

Variable readObject : option bool -> M PostboxDecoder pyvalue.
Hypothesis readObject_preserves : forall dec, preserves dec_stable (readObject dec).

#[local] Hint Resolve readObject_preserves : dec.

Lemma preserves_readValue_with dO :
  preserves dec_stable (readValue_with readObject dO).
Proof.
  unfold readValue_with. apply dec_bind_preserves; [eauto with dec|].
  intros tag. apply dec_bind_preserves.
  - destruct (of_value_cases (S:=PostboxDecoder) tag) as [[t ->]| ->];
      method_preserves.
  - intros t. apply dec_bind_preserves; [|intros; method_preserves].
    destruct t; method_preserves.
Qed.

#[local] Hint Resolve preserves_readValue_with : dec.

Lemma preserves_kv_next_with dO :
  preserves dec_stable (kv_next_with readObject dO).
Proof.
  unfold kv_next_with. method_preserves.
  destruct (_ <=? _)%nat; method_preserves.
  destruct a2 as [vt v]. method_preserves.
Qed.

Lemma preserves_kv_collect_with dO k :
  preserves dec_stable (kv_collect_with readObject dO k).
Proof.
  induction k as [|k IH]; simpl; [method_preserves|].
  apply dec_bind_preserves; [apply preserves_kv_next_with|].
  intros [e|]; method_preserves.
Qed.

Lemma preserves_get_loop_with vt key dO k :
  preserves dec_stable (get_loop_with readObject vt key dO k).
Proof.
  induction k as [|k IH]; simpl; [method_preserves|].
  apply dec_bind_preserves; [apply preserves_kv_next_with|].
  intros [[[k0 t] v]|]; [|method_preserves].
  destruct (negb _); [done|].
  destruct vt as [vt|]; [|method_preserves].
  repeat case_bool_decide; method_preserves.
Qed.

(** A step that yields has read at least the length byte of a key. *)
Lemma kv_next_with_progress dO d e d' :
  kv_next_with readObject dO d = (Ok (Some e), d') ->
  dec_stable d d'
  /\ (buf_pos (bio d) < buf_pos (bio d'))%nat
  /\ (buf_pos (bio d) < length (buf_data (bio d)))%nat.
Proof.
  intros H. split; [by eapply preserves_kv_next_with|].
  unfold kv_next_with in H.
  apply bind_Ok_inv in H as (pos & d1 & [= <- <-] & H).
  apply bind_Ok_inv in H as (sz & d1 & [= <- <-] & H).
  destruct (_ <=? _)%nat; [discriminate|].
  apply bind_Ok_inv in H as (key & d1 & H1 & H).
  unfold read_short_str, read_short_bytes in H1.
  apply on_bio_inv in H1 as (b1 & H1 & ->).
  apply bind_Ok_inv in H1 as (bs & b2 & H1 & [= <- <-]).
  apply bind_Ok_inv in H1 as (slen & b3 & H1 & H2).
  apply read_fmt_Ok_inv in H1 as (Hle & -> & _).
  apply preserves_buf_read in H2 as (_ & _ & Hpos). simpl in *.
  apply bind_Ok_inv in H as ([vt v] & d2 & H & [= <- <-]).
  apply preserves_readValue_with in H as [(_ & _ & Hpos') _]. simpl in *.
  lia.
Qed.

Section SafeFacts.

Variable n : nat.
Hypothesis readObject_safe : forall dec, safe (data_within n) (readObject dec).

#[local] Hint Resolve readObject_safe : dec.

Lemma safe_readValue_with dO :
  safe (data_within n) (readValue_with readObject dO).
Proof.
  unfold readValue_with. apply (dec_bind_safe n); [eauto with dec..|].
  intros tag. apply (dec_bind_safe n).
  - destruct (of_value_cases (S:=PostboxDecoder) tag) as [[t ->]| ->];
      method_safe n.
  - destruct (of_value_cases (S:=PostboxDecoder) tag) as [[t ->]| ->];
      method_preserves.
  - intros t. apply (dec_bind_safe n); [| |intros; method_safe n].
    + destruct t; method_safe n.
    + destruct t; method_preserves.
Qed.

#[local] Hint Resolve safe_readValue_with : dec.

Lemma safe_kv_next_with dO :
  safe (data_within n) (kv_next_with readObject dO).
Proof.
  unfold kv_next_with. method_safe n.
  destruct (_ <=? _)%nat; method_safe n.
  destruct a2 as [vt v]. method_safe n.
Qed.

(** The loop of the generator ends within as many steps as there are bytes
    after the cursor, and one more. *)
Lemma kv_collect_with_enough dO k d :
  data_within n d ->
  (length (buf_data (bio d)) - buf_pos (bio d) < k)%nat ->
  (kv_collect_with readObject dO k d).1 <> OutOfFuel.
Proof.
  revert d. induction k as [|k IH]; intros d Hn Hk; [lia|].
  simpl. unfold bind.
  destruct (kv_next_with readObject dO d) as [[[e|]|err|] d1] eqn:E; simpl; try done.
  - apply kv_next_with_progress in E as (Hst & Hpos & Hlen).
    pose proof Hst as [(Hdata & _) _].
    specialize (IH d1 (data_within_stable _ _ _ Hn Hst)).
    destruct (kv_collect_with readObject dO k d1) as [[es|err|] d2]; simpl in *;
      try done.
    apply IH. rewrite Hdata. lia.
  - pose proof (safe_kv_next_with dO d Hn) as Hs. by rewrite E in Hs.
Qed.

Lemma get_loop_with_enough vt key dO k d :
  data_within n d ->
  (length (buf_data (bio d)) - buf_pos (bio d) < k)%nat ->
  (get_loop_with readObject vt key dO k d).1 <> OutOfFuel.
Proof.
  revert d. induction k as [|k IH]; intros d Hn Hk; [lia|].
  simpl. unfold bind.
  destruct (kv_next_with readObject dO d) as [[[[[k0 t] v]|]|err|] d1] eqn:E;
    simpl; try done.
  - apply kv_next_with_progress in E as (Hst & Hpos & Hlen).
    pose proof Hst as [(Hdata & _) _].
    assert ((get_loop_with readObject vt key dO k d1).1 <> OutOfFuel) as Hrec.
    { apply IH; [by eapply data_within_stable|]. rewrite Hdata. lia. }
    destruct (negb _); [done|].
    destruct vt as [vt|]; [|done].
    repeat case_bool_decide; done.
  - pose proof (safe_kv_next_with dO d Hn) as Hs. by rewrite E in Hs.
Qed.

Lemma seek0_inv d r d1 :
  on_bio buf_seek0 d = (r, d1) ->
  r = Ok tt
  /\ d1 = mk_PostboxDecoder
            (mk_byteutil (endian (bio d)) (buf_data (bio d)) 0) (size d).
Proof. rewrite on_bio_eq. by intros [= <- <-]. Qed.

Lemma iter_kv_with_enough dO d :
  data_within n d ->
  (iter_kv_with readObject dO (steps_for d) d).1 <> OutOfFuel.
Proof.
  intros Hn. unfold iter_kv_with.
  apply bind_not_fuel; [by rewrite on_bio_eq|].
  intros [] d1 H. apply seek0_inv in H as [_ ->].
  apply kv_collect_with_enough; [done|]. unfold steps_for. simpl. lia.
Qed.

Lemma get_with_enough vt key dO d :
  data_within n d ->
  ((_ <- on_bio buf_seek0 ;;
    get_loop_with readObject vt key dO (steps_for d)) d).1 <> OutOfFuel.
Proof.
  intros Hn.
  apply bind_not_fuel; [by rewrite on_bio_eq|].
  intros [] d1 H. apply seek0_inv in H as [_ ->].
  apply get_loop_with_enough; [done|]. unfold steps_for. simpl. lia.
Qed.

End SafeFacts.

End StepFacts.

Lemma length_buf_read n b data b' :
  buf_read n b = (Ok data, b') ->
  (length data <= length (buf_data b) - buf_pos b)%nat.
Proof.
  rewrite buf_read_eq. intros [= <- _]. unfold remaining.
  destruct (n <? 0); [|rewrite length_take]; rewrite length_drop; lia.
Qed.

Section ReadObjectFacts.

Variable registry : gmap Z (PostboxDecoder -> outcome).
Variable recursion_limit : nat.

Lemma preserves_readObject depth dec :
  preserves dec_stable (_readObject registry depth dec).
Proof.
  destruct depth as [|depth]; simpl; [method_preserves|].
  do 3 (apply dec_bind_preserves; [eauto with dec | intros]).
  destruct (negb _); [method_preserves|].
  destruct (registry !! _); method_preserves.
Qed.

(** Whatever room the recursion limit leaves, [_readObject] returns or
    raises: the loops of the generators end with the bytes. *)
Lemma safe_readObject depth :
  forall n dec, safe (data_within n) (_readObject registry depth dec).
Proof.
  induction depth as [|depth IH]; intros n dec; [by intros d _|]. simpl.
  intros d Hd.
  apply bind_not_fuel; [exact (safe_on_bio any_state _ (safe_read_fmt _) _ I)|].
  intros typeHash d1 H1.
  apply bind_not_fuel; [exact (safe_on_bio any_state _ (safe_read_fmt _) _ I)|].
  intros dataLen d2 H2.
  apply bind_not_fuel; [exact (safe_on_bio any_state _ (safe_buf_read _) _ I)|].
  intros data d3 H3.
  destruct (negb _); [done|].
  destruct (registry !! typeHash) as [t|]; [by destruct (t _)|].
  unfold bind, lift_res.
  assert ((iter_kv_with (_readObject registry depth) None
             (steps_for (PostboxDecoder_init data))
             (PostboxDecoder_init data)).1 <> OutOfFuel) as Hnest.
  { apply (iter_kv_with_enough _ (preserves_readObject depth) (length data));
      [|unfold data_within; simpl; lia].
    apply IH. }
  destruct (iter_kv_with _ _ _ _).1; done.
Qed.

(** The entry points return or raise. *)
Lemma iter_kv_total dO d : (_iter_kv registry recursion_limit dO d).1 <> OutOfFuel.
Proof.
  unfold _iter_kv.
  apply (iter_kv_with_enough _ (preserves_readObject _)
           (length (buf_data (bio d)))); [|by unfold data_within].
  apply safe_readObject.
Qed.

Lemma get_total vt key dO d :
  (get registry recursion_limit vt key dO d).1 <> OutOfFuel.
Proof.
  unfold get.
  apply (get_with_enough _ (preserves_readObject _)
           (length (buf_data (bio d)))); [|by unfold data_within].
  apply safe_readObject.
Qed.

Lemma readValue_total dO d :
  (readValue registry recursion_limit dO d).1 <> OutOfFuel.
Proof.
  unfold readValue.
  apply (safe_readValue_with _ (preserves_readObject _)
           (length (buf_data (bio d)))); [|by unfold data_within].
  apply safe_readObject.
Qed.

Lemma decodeObjectForKey_total key d :
  (decodeObjectForKey registry recursion_limit key d).1 <> OutOfFuel.
Proof.
  unfold decodeObjectForKey. apply bind_not_fuel; [apply get_total|].
  intros [t v] d1 _. by destruct (truthy v).
Qed.

Lemma decodeRootObject_total d :
  (decodeRootObject registry recursion_limit d).1 <> OutOfFuel.
Proof. apply decodeObjectForKey_total. Qed.

Lemma read_object_header_inv d typeHash data d' :
  read_object_header d = (Ok (typeHash, data), d') ->
  exists dataLen d1 d2,
    on_bio read_int32 d = (Ok typeHash, d1)
    /\ on_bio read_int32 d1 = (Ok dataLen, d2)
    /\ on_bio (buf_read dataLen) d2 = (Ok data, d')
    /\ (length data + 8 <= length (buf_data (bio d)))%nat.
Proof.
  unfold read_object_header. intros H.
  apply bind_Ok_inv in H as (th & d1 & H1 & H).
  apply bind_Ok_inv in H as (dataLen & d2 & H2 & H).
  apply bind_Ok_inv in H as (dt & d3 & H3 & [= -> -> ->]).
  exists dataLen, d1, d2. repeat split; try done.
  apply on_bio_inv in H1 as (b1 & H1 & ->).
  apply read_fmt_Ok_inv in H1 as (Hlen1 & -> & _).
  apply on_bio_inv in H2 as (b2 & H2 & ->).
  apply read_fmt_Ok_inv in H2 as (Hlen2 & -> & _).
  apply on_bio_inv in H3 as (b3 & H3 & ->).
  apply length_buf_read in H3. simpl in *. lia.
Qed.

(** [_readObject] after its header, when objects are decoded: the
    comprehension over the payload is [_iter_kv] of a decoder of its own,
    one level further down. *)
Lemma readObject_decoded depth dec d typeHash data d' :
  dec <> Some false ->
  read_object_header d = (Ok (typeHash, data), d') ->
  _readObject registry (S depth) dec d =
    (match registry !! typeHash with
     | Some t =>
         match t (PostboxDecoder_init data) with
         | Returned v => Ok v
         | Raised e => Raise e
         end
     | None =>
         match (_iter_kv registry depth None (PostboxDecoder_init data)).1 with
         | Ok es =>
             Ok (PDict (dict_set AT_TYPE (PInt typeHash) (dict_of_entries es)))
         | Raise e => Raise e
         | OutOfFuel => OutOfFuel
         end
     end, d').
Proof.
  intros Hdec H.
  apply read_object_header_inv in H as (dataLen & d1 & d2 & H1 & H2 & H3 & Hlen).
  simpl.
  rewrite (bind_Ok _ _ _ _ _ H1), (bind_Ok _ _ _ _ _ H2), (bind_Ok _ _ _ _ _ H3).
  assert (negb match dec with Some b => b | None => true end = false) as ->.
  { destruct dec as [[]|]; done. }
  destruct (registry !! typeHash) as [t|].
  - by destruct (t _).
  - unfold _iter_kv, bind, lift_res.
    by destruct (iter_kv_with _ _ _ _).1.
Qed.

(** C8. An object whose type hash has no schema decoder in the registry
    decodes to a mapping of the key/value entries of its payload, with the
    type hash written under the key [@type]: the keys of the mapping are
    [@type] and the keys of the entries, and every other key holds the
    value of its (last) entry, so that nothing of the payload is dropped;
    it does not fail for being unknown, and when it fails it is with the
    exception of the pass over its payload. An object whose type hash is
    registered decodes to what the registered decoder returns on the
    payload, or raises what that raises. All this is so as deep as the
    recursion limit leaves room for an object; where it leaves none, the
    call raises [RecursionError]. *)
Theorem C8_object_dispatch depth d typeHash data d' :
  read_object_header d = (Ok (typeHash, data), d') ->
  (registry !! typeHash = None ->
   (forall es dd,
       _iter_kv registry depth None (PostboxDecoder_init data) = (Ok es, dd) ->
       exists m,
         _readObject registry (S depth) None d = (Ok (PDict m), d')
         /\ dict_get AT_TYPE m = Some (PInt typeHash)
         /\ (forall k, k <> AT_TYPE -> dict_get k m = entries_last k es)
         /\ (forall k, k ∈ m.*1 <-> k = AT_TYPE \/ exists t v, (k, t, v) ∈ es))
   /\ (forall e dd,
         _iter_kv registry depth None (PostboxDecoder_init data) = (Raise e, dd) ->
         _readObject registry (S depth) None d = (Raise e, d')))
  /\ (forall t,
        registry !! typeHash = Some t ->
        (forall v,
            t (PostboxDecoder_init data) = Returned v ->
            _readObject registry (S depth) None d = (Ok v, d'))
        /\ (forall e,
              t (PostboxDecoder_init data) = Raised e ->
              _readObject registry (S depth) None d = (Raise e, d')))
  /\ _readObject registry 0 None d = (Raise RecursionError, d).
Proof.
  intros Hh.
  pose proof (readObject_decoded depth None _ _ _ _ ltac:(discriminate) Hh) as Hro.
  split; [|split; [|reflexivity]].
  - intros Hreg. rewrite Hreg in Hro. split.
    + intros es dd Hes. rewrite Hes in Hro. simpl in Hro.
      eexists. split; [exact Hro|]. split; [apply dict_get_set_eq|]. split.
      * intros k Hk. rewrite dict_get_set_ne by done. apply dict_get_of_entries.
      * intros k. rewrite dict_set_keys, dict_of_entries_keys. done.
    + intros e dd He. by rewrite He in Hro.
  - intros t Hreg. rewrite Hreg in Hro.
    split; [intros v Ht | intros e Ht]; by rewrite Ht in Hro.
Qed.

(** *** Unknown tags *)

Lemma read_uint8_at b x :
  buf_data b !! buf_pos b = Some x ->
  read_uint8 b
  = (Ok (byte_val x), mk_byteutil (endian b) (buf_data b) (buf_pos b + 1)).
Proof.
  intros Hx. unfold read_uint8.
  rewrite read_fmt_Ok by (apply lookup_lt_Some in Hx; simpl; lia).
  f_equal. unfold remaining. rewrite (drop_S _ _ _ Hx). simpl.
  unfold unpack, le_uint. destruct (endian b); simpl; f_equal; lia.
Qed.

(** C5. At a cursor position whose byte, read as the value tag, is above
    13, [readValue] raises the [ValueError] of [ValueType(tag)] instead of
    producing a value; and the loop of [_iter_kv], once it has read a key
    in front of such a tag, ends with that exception: nothing more of the
    buffer is decoded. *)
Theorem C5_unknown_tag dO d x :
  buf_data (bio d) !! buf_pos (bio d) = Some x ->
  13 < byte_val x ->
  readValue registry recursion_limit dO d = (Raise (ValueError_enum (byte_val x)), advance 1 d)
  /\ forall d0 key k,
       (buf_pos (bio d0) < size d0)%nat ->
       on_bio read_short_str d0 = (Ok key, d) ->
       kv_collect_with (_readObject registry recursion_limit) dO (S k) d0
       = (Raise (ValueError_enum (byte_val x)), advance 1 d).
Proof.
  intros Hx Htag.
  assert (forall ro, readValue_with ro dO d
                     = (Raise (ValueError_enum (byte_val x)), advance 1 d)) as Hrv.
  { intros ro. unfold readValue_with.
    assert (on_bio read_uint8 d = (Ok (byte_val x), advance 1 d)) as Hr
      by (by rewrite on_bio_eq, (read_uint8_at _ _ Hx)).
    rewrite (bind_Ok _ _ _ _ _ Hr), of_value_unknown by done.
    reflexivity. }
  split; [apply Hrv|].
  intros d0 key k Hpos Hkey.
  change (kv_collect_with (_readObject registry recursion_limit) dO (S k))
    with (o <- kv_next_with (_readObject registry recursion_limit) dO ;;
          match o with
          | None => ret []
          | Some e =>
              es <- kv_collect_with (_readObject registry recursion_limit) dO k ;;
              ret (e :: es)
          end).
  apply bind_Raise. unfold kv_next_with.
  assert (on_bio buf_tell d0 = (Ok (buf_pos (bio d0)), d0)) as Ht
    by (rewrite on_bio_eq; by destruct d0).
  rewrite (bind_Ok _ _ _ _ _ Ht).
  assert (self_size d0 = (Ok (size d0), d0)) as Hs by done.
  rewrite (bind_Ok _ _ _ _ _ Hs).
  assert ((size d0 <=? buf_pos (bio d0))%nat = false) as -> by (apply Nat.leb_gt; lia).
  rewrite (bind_Ok _ _ _ _ _ Hkey).
  apply bind_Raise, Hrv.
Qed.

(** *** Absent results *)

(** [get] goes past the entries it does not stop at. *)
Lemma get_loop_skips vt key dO k d e d1 :
  kv_next_with (_readObject registry recursion_limit) dO d = (Ok (Some e), d1) ->
  ~ (e.1.1 = key
     /\ match vt with
        | Some t => e.1.2 = t \/ e.1.2 = ValueType.Nil
        | None => True
        end) ->
  get_loop_with (_readObject registry recursion_limit) vt key dO (S k) d
  = get_loop_with (_readObject registry recursion_limit) vt key dO k d1.
Proof.
  intros Hnext Hno. destruct e as [[k0 t] v]. simpl in Hno.
  change (get_loop_with (_readObject registry recursion_limit) vt key dO (S k) d)
    with (bind (kv_next_with (_readObject registry recursion_limit) dO)
            (fun o =>
               match o with
               | None => ret (None, PNone)
               | Some (k0, t, v) =>
                   if negb (bool_decide (k0 = key))
                   then get_loop_with (_readObject registry recursion_limit)
                          vt key dO k
                   else
                     match vt with
                     | None => ret (Some t, v)
                     | Some vt0 =>
                         if bool_decide (t = vt0) then ret (Some t, v)
                         else if bool_decide (t = ValueType.Nil)
                              then ret (Some t, PNone)
                              else get_loop_with
                                     (_readObject registry recursion_limit)
                                     vt key dO k
                     end
               end) d).
  rewrite (bind_Ok _ _ _ _ _ Hnext).
  case_bool_decide as Hk; simpl; [|done].
  destruct vt as [vt0|]; [|tauto].
  repeat case_bool_decide; tauto.
Qed.

(** The lookup of an object stops at the first entry with the key that is
    an Object or Nil, and leaves the cursor behind that entry. *)
Lemma get_loop_first key dO before :
  forall k d t v d',
    (length (buf_data (bio d)) - buf_pos (bio d) < k)%nat ->
    kv_first registry recursion_limit dO (S (length before)) d
    = (Ok (before ++ [(key, t, v)]), d') ->
    Forall (fun e => ~ stops_get key e) before ->
    t = ValueType.Object \/ t = ValueType.Nil ->
    get_loop_with (_readObject registry recursion_limit)
      (Some ValueType.Object) key dO k d
    = (Ok (Some t, if bool_decide (t = ValueType.Object) then v else PNone), d').
Proof.
  induction before as [|e0 before IH]; intros k d t v d' Hk H Hno Ht.
  - destruct k as [|k]; [lia|]. simpl in H.
    apply bind_Ok_inv in H as ([e|] & d1 & Hnext & H); [|discriminate].
    injection H as -> <-. simpl.
    rewrite (bind_Ok _ _ _ _ _ Hnext). simpl.
    rewrite bool_decide_eq_true_2 by done. simpl.
    destruct Ht as [-> | ->]; [by rewrite !bool_decide_eq_true_2|].
    rewrite (bool_decide_eq_false_2 (ValueType.Nil = ValueType.Object)) by done.
    by rewrite bool_decide_eq_true_2.
  - destruct k as [|k]; [lia|].
    change (kv_first registry recursion_limit dO (S (length (e0 :: before))) d)
      with (bind (kv_next_with (_readObject registry recursion_limit) dO)
              (fun o =>
                 match o with
                 | None => ret []
                 | Some e =>
                     es <- kv_first registry recursion_limit dO
                             (S (length before)) ;;
                     ret (e :: es)
                 end) d) in H.
    apply bind_Ok_inv in H as ([e|] & d1 & Hnext & H); [|discriminate].
    apply bind_Ok_inv in H as (es & d2 & Hrest & H).
    injection H as -> -> ->.
    pose proof (kv_next_with_progress _ (preserves_readObject _) _ _ _ _ Hnext)
      as ([(Hdata & _) _] & Hpos & Hlen).
    rewrite (get_loop_skips _ _ _ _ _ _ _ Hnext).
    + apply (IH k d1 t v d'); [rewrite Hdata; lia | done | | done].
      by apply Forall_cons_1 in Hno as [_ Hno].
    + apply Forall_cons_1 in Hno as [Hno _]. unfold stops_get in Hno. tauto.
Qed.

(** With no entry to stop at, the lookup runs the generator to its end. *)
Lemma get_loop_none key dO k :
  forall d es d',
    kv_collect_with (_readObject registry recursion_limit) dO k d = (Ok es, d') ->
    Forall (fun e => ~ stops_get key e) es ->
    get_loop_with (_readObject registry recursion_limit)
      (Some ValueType.Object) key dO k d
    = (Ok (None, PNone), d').
Proof.
  induction k as [|k IH]; intros d es d' H Hno; [discriminate|].
  change (kv_collect_with (_readObject registry recursion_limit) dO (S k) d)
    with (bind (kv_next_with (_readObject registry recursion_limit) dO)
            (fun o =>
               match o with
               | None => ret []
               | Some e =>
                   es <- kv_collect_with (_readObject registry recursion_limit)
                           dO k ;;
                   ret (e :: es)
               end) d) in H.
  apply bind_Ok_inv in H as ([e|] & d1 & Hnext & H).
  - apply bind_Ok_inv in H as (es' & d2 & Hrest & H). injection H as <- <-.
    rewrite (get_loop_skips _ _ _ _ _ _ _ Hnext).
    + apply (IH d1 es' d2 Hrest). by apply Forall_cons_1 in Hno as [_ Hno].
    + apply Forall_cons_1 in Hno as [Hno _]. unfold stops_get in Hno. tauto.
  - injection H as <- <-. simpl. by rewrite (bind_Ok _ _ _ _ _ Hnext).
Qed.

(** C10. [decodeObjectForKey] returns [None] not only when no entry of the
    buffer has the key with an Object or Nil value, or when the first such
    entry is Nil, but also when the first such entry is an Object that
    decodes to a value that is false as a condition (an empty mapping from
    a registered decoder, say): the caller cannot tell this object from a
    missing one. An object that decodes to a true value is returned. The
    entries in front are those the generator yields before it; what comes
    behind the entry is not looked at, and [decodeRootObject] is this
    lookup under the key ["_"]. *)
Theorem C10_falsy_object_absent key d :
  (forall before t v d',
      iter_kv_first registry recursion_limit None (S (length before)) d
      = (Ok (before ++ [(key, t, v)]), d') ->
      Forall (fun e => ~ stops_get key e) before ->
      (t = ValueType.Object -> truthy v = false ->
       decodeObjectForKey registry recursion_limit key d = (Ok PNone, d'))
      /\ (t = ValueType.Object -> truthy v = true ->
          decodeObjectForKey registry recursion_limit key d = (Ok v, d'))
      /\ (t = ValueType.Nil ->
          decodeObjectForKey registry recursion_limit key d = (Ok PNone, d')))
  /\ (forall es d',
        _iter_kv registry recursion_limit None d = (Ok es, d') ->
        Forall (fun e => ~ stops_get key e) es ->
        decodeObjectForKey registry recursion_limit key d = (Ok PNone, d'))
  /\ (key = str "_" ->
      decodeRootObject registry recursion_limit d
      = decodeObjectForKey registry recursion_limit key d).
Proof.
  split; [|split; [|by intros ->]].
  - intros before t v d' H Hno.
    unfold iter_kv_first in H.
    apply bind_Ok_inv in H as ([] & d0 & Hseek & H).
    assert (forall t', t = t' -> t' = ValueType.Object \/ t' = ValueType.Nil ->
              get registry recursion_limit (Some ValueType.Object) key None d
              = (Ok (Some t, if bool_decide (t = ValueType.Object) then v else PNone),
                 d')) as Hget.
    { intros t' <- Ht. unfold get. rewrite (bind_Ok _ _ _ _ _ Hseek).
      apply (get_loop_first key None before); [|done..].
      apply seek0_inv in Hseek as [_ ->]. unfold steps_for. simpl. lia. }
    unfold decodeObjectForKey. split; [|split].
    + intros -> Hv.
      rewrite (bind_Ok _ _ _ _ _ (Hget _ eq_refl (or_introl eq_refl))).
      rewrite bool_decide_eq_true_2 by done. by rewrite Hv.
    + intros -> Hv.
      rewrite (bind_Ok _ _ _ _ _ (Hget _ eq_refl (or_introl eq_refl))).
      rewrite bool_decide_eq_true_2 by done. by rewrite Hv.
    + intros ->.
      rewrite (bind_Ok _ _ _ _ _ (Hget _ eq_refl (or_intror eq_refl))).
      by rewrite bool_decide_eq_false_2.
  - intros es d' H Hno. unfold _iter_kv, iter_kv_with in H.
    apply bind_Ok_inv in H as ([] & d0 & Hseek & H).
    assert (get registry recursion_limit (Some ValueType.Object) key None d
            = (Ok (None, PNone), d')) as Hget.
    { unfold get. rewrite (bind_Ok _ _ _ _ _ Hseek).
      by apply (get_loop_none key None _ _ es). }
    unfold decodeObjectForKey. by rewrite (bind_Ok _ _ _ _ _ Hget).
Qed.

(** *** Decoding twice *)

Lemma same_buffer_refl d : same_buffer d d.
Proof. done. Qed.

Lemma dec_stable_same_buffer d d' : dec_stable d d' -> same_buffer d d'.
Proof. by intros [(? & ? & _) ?]. Qed.

(** A pass depends on the buffer and not on where the cursor was left. *)
Lemma iter_kv_same_buffer dO d d' :
  same_buffer d d' -> _iter_kv registry recursion_limit dO d' = _iter_kv registry recursion_limit dO d.
Proof.
  intros (Hdata & Hend & Hsize). unfold _iter_kv, iter_kv_with, bind, steps_for.
  rewrite !on_bio_eq. simpl. by rewrite Hdata, Hend, Hsize.
Qed.

Lemma get_same_buffer vt key dO d d' :
  same_buffer d d' -> get registry recursion_limit vt key dO d' = get registry recursion_limit vt key dO d.
Proof.
  intros (Hdata & Hend & Hsize). unfold get, bind, steps_for.
  rewrite !on_bio_eq. simpl. by rewrite Hdata, Hend, Hsize.
Qed.

Lemma decodeObjectForKey_same_buffer key d d' :
  same_buffer d d' ->
  decodeObjectForKey registry recursion_limit key d' = decodeObjectForKey registry recursion_limit key d.
Proof.
  intros H. unfold decodeObjectForKey, bind. by rewrite (get_same_buffer _ _ _ _ _ H).
Qed.

(** A pass leaves the buffer as it was. *)
Lemma iter_kv_keeps_buffer dO d r d' :
  _iter_kv registry recursion_limit dO d = (r, d') -> same_buffer d d'.
Proof.
  unfold _iter_kv, iter_kv_with. intros H.
  destruct (bind_inv _ _ _ _ _ H) as [([] & d1 & H1 & H2)|[(e & H1 & _)|[H1 _]]];
    try (apply seek0_inv in H1 as [? _]; discriminate).
  apply seek0_inv in H1 as [_ ->].
  apply preserves_kv_collect_with in H2; [|apply preserves_readObject].
  by apply dec_stable_same_buffer in H2.
Qed.

Lemma get_keeps_buffer vt key dO d r d' :
  get registry recursion_limit vt key dO d = (r, d') -> same_buffer d d'.
Proof.
  unfold get. intros H.
  destruct (bind_inv _ _ _ _ _ H) as [([] & d1 & H1 & H2)|[(e & H1 & _)|[H1 _]]];
    try (apply seek0_inv in H1 as [? _]; discriminate).
  apply seek0_inv in H1 as [_ ->].
  apply preserves_get_loop_with in H2; [|apply preserves_readObject].
  by apply dec_stable_same_buffer in H2.
Qed.

Lemma decodeObjectForKey_keeps_buffer key d r d' :
  decodeObjectForKey registry recursion_limit key d = (r, d') -> same_buffer d d'.
Proof.
  unfold decodeObjectForKey. intros H.
  destruct (bind_inv _ _ _ _ _ H) as [([t v] & d1 & H1 & H2)|[(e & H1 & _)|[H1 _]]].
  - apply get_keeps_buffer in H1.
    destruct (truthy v); injection H2 as _ <-; done.
  - by apply get_keeps_buffer in H1.
  - by apply get_keeps_buffer in H1.
Qed.

(** C9. A second pass over the same decoder instance gives what the first
    gave, for the iteration and for the lookup of an object by key, and
    whichever of the two came first: every pass rewinds the cursor to
    offset 0 and nothing else of the instance changes. A used instance
    decodes as a fresh instance over the same bytes does. *)
Theorem C9_decoding_twice dO key d :
  (forall r d1, _iter_kv registry recursion_limit dO d = (r, d1) ->
                _iter_kv registry recursion_limit dO d1 = (r, d1))
  /\ (forall r d1, decodeObjectForKey registry recursion_limit key d = (r, d1) ->
                   decodeObjectForKey registry recursion_limit key d1 = (r, d1))
  /\ (forall r d1, decodeObjectForKey registry recursion_limit key d = (r, d1) ->
                   _iter_kv registry recursion_limit dO d1 = _iter_kv registry recursion_limit dO d)
  /\ (forall r d1, _iter_kv registry recursion_limit dO d = (r, d1) ->
                   decodeObjectForKey registry recursion_limit key d1
                   = decodeObjectForKey registry recursion_limit key d)
  /\ (forall data,
        same_buffer (PostboxDecoder_init data) d ->
        (_iter_kv registry recursion_limit dO d).1
        = (_iter_kv registry recursion_limit dO (PostboxDecoder_init data)).1
        /\ (decodeObjectForKey registry recursion_limit key d).1
           = (decodeObjectForKey registry recursion_limit key (PostboxDecoder_init data)).1).
Proof.
  repeat split.
  - intros r d1 H. rewrite <- H. apply iter_kv_same_buffer.
    by eapply iter_kv_keeps_buffer.
  - intros r d1 H. rewrite <- H. apply decodeObjectForKey_same_buffer.
    by eapply decodeObjectForKey_keeps_buffer.
  - intros r d1 H. apply iter_kv_same_buffer.
    by eapply decodeObjectForKey_keeps_buffer.
  - intros r d1 H. apply decodeObjectForKey_same_buffer.
    by eapply iter_kv_keeps_buffer.
  - by rewrite (iter_kv_same_buffer _ _ _ H).
  - by rewrite (decodeObjectForKey_same_buffer _ _ _ H).
Qed.

End ReadObjectFacts.

(** ** The decoder on the samples *)

Lemma C5_unknown_tag_witness :
  readValue ∅ Samples.limit None Samples.at_bad_tag
  = (Raise (ValueError_enum 14), advance 1 Samples.at_bad_tag)
  /\ kv_collect_with
       (_readObject ∅ Samples.limit)
       None 4 (PostboxDecoder_init Samples.bad_tag_entry)
     = (Raise (ValueError_enum 14), advance 1 Samples.at_bad_tag).
Proof.
  destruct (C5_unknown_tag ∅ Samples.limit None Samples.at_bad_tag Byte.x0e eq_refl eq_refl)
    as [H1 H2].
  split; [exact H1|].
  apply (H2 (PostboxDecoder_init Samples.bad_tag_entry) (str "_") 3%nat);
    [simpl; lia | reflexivity].
Defined.

Lemma C8_object_dispatch_witness :
  (exists m,
      _readObject ∅ 2 None Samples.at_object
      = (Ok (PDict m), advance 15 Samples.at_object)
      /\ dict_get AT_TYPE m = Some (PInt 1)
      /\ (forall k, k <> AT_TYPE ->
           dict_get k m = entries_last k [(str "a", ValueType.Int32, PInt 7)])
      /\ (forall k, k ∈ m.*1 <->
           k = AT_TYPE
           \/ exists t v, (k, t, v) ∈ [(str "a", ValueType.Int32, PInt 7)]))
  /\ _readObject Samples.registry_1 2 None Samples.at_object
     = (Ok (PDict []), advance 15 Samples.at_object).
Proof.
  split.
  - destruct (C8_object_dispatch ∅ 1 Samples.at_object 1
                Samples.object_payload (advance 15 Samples.at_object) eq_refl)
      as (H & _ & _).
    destruct (H (lookup_empty _)) as [Hes _].
    apply (Hes [(str "a", ValueType.Int32, PInt 7)]
             (advance 7 (PostboxDecoder_init Samples.object_payload))).
    reflexivity.
  - destruct (C8_object_dispatch Samples.registry_1 1 Samples.at_object 1
                Samples.object_payload (advance 15 Samples.at_object) eq_refl)
      as (_ & H & _).
    destruct (H Samples.empty_schema) as [Hv _]; [reflexivity|].
    apply Hv. reflexivity.
Defined.

Lemma C9_decoding_twice_witness :
  _iter_kv ∅ Samples.limit None (advance 18 (PostboxDecoder_init Samples.object_entry))
  = (Ok [(str "_", ValueType.Object,
          PDict [(str "a", PInt 7); (str "@type", PInt 1)])],
     advance 18 (PostboxDecoder_init Samples.object_entry))
  /\ decodeObjectForKey ∅ Samples.limit (str "_")
       (advance 18 (PostboxDecoder_init Samples.object_entry))
     = (Ok (PDict [(str "a", PInt 7); (str "@type", PInt 1)]),
        advance 18 (PostboxDecoder_init Samples.object_entry)).
Proof.
  destruct (C9_decoding_twice ∅ Samples.limit None (str "_")
              (PostboxDecoder_init Samples.object_entry)) as (H1 & H2 & _).
  split; [apply H1 | apply H2]; reflexivity.
Defined.

Lemma C10_falsy_object_absent_witness :
  decodeObjectForKey Samples.registry_1 Samples.limit (str "_")
    (PostboxDecoder_init Samples.empty_object_entry)
  = (Ok PNone, advance 11 (PostboxDecoder_init Samples.empty_object_entry))
  /\ decodeRootObject Samples.registry_1 Samples.limit
       (PostboxDecoder_init Samples.empty_object_entry)
     = decodeObjectForKey Samples.registry_1 Samples.limit (str "_")
         (PostboxDecoder_init Samples.empty_object_entry)
  /\ decodeObjectForKey Samples.registry_1 Samples.limit (str "a")
       (PostboxDecoder_init Samples.empty_object_entry)
     = (Ok PNone, advance 11 (PostboxDecoder_init Samples.empty_object_entry)).
Proof.
  destruct (C10_falsy_object_absent Samples.registry_1 Samples.limit (str "_")
              (PostboxDecoder_init Samples.empty_object_entry))
    as (H1 & _ & H3).
  destruct (C10_falsy_object_absent Samples.registry_1 Samples.limit (str "a")
              (PostboxDecoder_init Samples.empty_object_entry))
    as (_ & H2 & _).
  split; [|split].
  - destruct (H1 [] ValueType.Object (PDict [])
                (advance 11 (PostboxDecoder_init Samples.empty_object_entry))
                eq_refl (Forall_nil_2 _)) as (Ha & _ & _).
    apply Ha; reflexivity.
  - by apply H3.
  - apply (H2 [(str "_", ValueType.Object, PDict [])]); [reflexivity|].
    constructor; [|constructor]. intros [H _]. discriminate H.
Defined.

(** With the empty registry of the scripts the same entry is present: the
    generic mapping always holds [@type]. *)
Example decodeRootObject_empty_object_generic :
  (decodeRootObject ∅ Samples.limit (PostboxDecoder_init Samples.empty_object_entry)).1
  = Ok (PDict [(str "@type", PInt 1)]).
Proof. reflexivity. Qed.

(** Once the four bytes of the length are read, [read_bytes] returns
    whatever is left of the payload, however short. *)
Lemma read_bytes_never_short b slen b1 :
  read_int32 b = (Ok slen, b1) ->
  exists data b2,
    read_bytes b = (Ok data, b2)
    /\ data = (if slen <? 0 then remaining b1
               else take (Z.to_nat slen) (remaining b1)).
Proof.
  intros H. unfold read_bytes. rewrite (bind_Ok _ _ _ _ _ H), buf_read_eq.
  by eexists _, _.
Qed.

(** A cut inside a fixed-width field is what [read_fmt] catches; the
    [read_fmt] of list_chats.py leaves it to [struct.unpack]. *)
Example int32_entry_cut_raises :
  (_iter_kv ∅ Samples.limit None (PostboxDecoder_init (mk_bytes [1; 95; 0; 7; 0; 0]))).1
  = Raise (EOFError NOT_ENOUGH_DATA).
Proof. reflexivity. Qed.

Example list_chats_read_fmt_short :
  (ListChats.read_fmt Fmt_i (byteutil_init (mk_bytes [7; 0; 0]) LittleEndian)).1
  = Raise StructError.
Proof. reflexivity. Qed.

(** C1. The entry [_ = "abc"] is a complete encoding: it decodes to that
    entry with the cursor at the end of the buffer. Cut one byte before
    its end, it still decodes, without [EOFError], to the entry
    [_ = "ab"]: [read_bytes] hands on what [buf.read] returned without the
    length check that [read_fmt] makes. *)
Theorem C1_truncated_string_accepted recursion_limit :
  _iter_kv ∅ recursion_limit None (PostboxDecoder_init Samples.string_entry)
  = (Ok [(str "_", ValueType.String, PStr (str "abc"))],
     advance 10 (PostboxDecoder_init Samples.string_entry))
  /\ length Samples.string_entry_cut = 9%nat
  /\ _iter_kv ∅ recursion_limit None (PostboxDecoder_init Samples.string_entry_cut)
     = (Ok [(str "_", ValueType.String, PStr (str "ab"))],
        advance 9 (PostboxDecoder_init Samples.string_entry_cut)).
Proof. repeat split. Qed.

(** ** Message records *)

Lemma safe_any_repeatM {S A} n (m : M S A) :
  safe any_state m -> safe any_state (repeatM n m).
Proof.
  intros Hm. induction n as [|n IH]; simpl.
  - apply safe_ret.
  - apply safe_any_bind; [done|]. intros x.
    apply safe_any_bind; [done|]. intros xs. apply safe_ret.
Qed.

Lemma raises_only_ret {S A} E (a : A) : raises_only (S:=S) E (ret a).
Proof. intros s e s' H. discriminate. Qed.

Lemma raises_only_bind {S A B} E (m : M S A) (k : A -> M S B) :
  raises_only E m -> (forall a, raises_only E (k a)) -> raises_only E (bind m k).
Proof.
  intros Hm Hk s e s' H.
  destruct (bind_inv _ _ _ _ _ H) as [(a & s1 & H1 & H2)|[(e' & H1 & [= ->])|[_ ?]]].
  - by eapply Hk.
  - by eapply Hm.
  - discriminate.
Qed.

Lemma raises_only_repeatM {S A} E n (m : M S A) :
  raises_only E m -> raises_only E (repeatM n m).
Proof.
  intros Hm. induction n as [|n IH]; simpl.
  - apply raises_only_ret.
  - apply raises_only_bind; [done|]. intros x.
    apply raises_only_bind; [done|]. intros xs. apply raises_only_ret.
Qed.

Lemma raises_only_buf_read n : raises_only is_EOFError (buf_read n).
Proof. intros b e b' H. rewrite buf_read_eq in H. discriminate. Qed.

Lemma raises_only_read_fmt f : raises_only is_EOFError (read_fmt f).
Proof.
  intros b e b' H.
  destruct (read_fmt_cases f b) as [(z & b1 & H1)|(b1 & H1)]; congruence.
Qed.

Lemma raises_only_read_bytes : raises_only is_EOFError read_bytes.
Proof.
  apply raises_only_bind; [apply raises_only_read_fmt|].
  intros. apply raises_only_buf_read.
Qed.

Lemma raises_only_read_str : raises_only is_EOFError read_str.
Proof.
  apply raises_only_bind; [apply raises_only_read_bytes|].
  intros. apply raises_only_ret.
Qed.

Create HintDb msg discriminated.

#[local] Hint Resolve safe_read_fmt safe_read_bytes safe_read_str safe_buf_read
  raises_only_read_fmt raises_only_read_bytes raises_only_read_str
  raises_only_buf_read : msg.
#[local] Hint Extern 1 (safe any_state read_int8) => apply safe_read_fmt : msg.
#[local] Hint Extern 1 (safe any_state read_uint8) => apply safe_read_fmt : msg.
#[local] Hint Extern 1 (safe any_state read_int32) => apply safe_read_fmt : msg.
#[local] Hint Extern 1 (safe any_state read_uint32) => apply safe_read_fmt : msg.
#[local] Hint Extern 1 (safe any_state read_int64) => apply safe_read_fmt : msg.
#[local] Hint Extern 1 (raises_only is_EOFError read_int8) =>
  apply raises_only_read_fmt : msg.
#[local] Hint Extern 1 (raises_only is_EOFError read_uint8) =>
  apply raises_only_read_fmt : msg.
#[local] Hint Extern 1 (raises_only is_EOFError read_int32) =>
  apply raises_only_read_fmt : msg.
#[local] Hint Extern 1 (raises_only is_EOFError read_uint32) =>
  apply raises_only_read_fmt : msg.
#[local] Hint Extern 1 (raises_only is_EOFError read_int64) =>
  apply raises_only_read_fmt : msg.

(** Break a goal on a record reader into goals on its reads. *)
Ltac record_reads :=
  repeat first
    [ solve [eauto with msg]
    | apply safe_ret
    | apply raises_only_ret
    | apply safe_any_repeatM
    | apply raises_only_repeatM
    | match goal with
      | |- safe _ (read_if _ _ _) => unfold read_if
      | |- raises_only _ (read_if _ _ _) => unfold read_if
      | |- safe _ (read_PInt _) => unfold read_PInt
      | |- raises_only _ (read_PInt _) => unfold read_PInt
      | |- safe _ read_PStr => unfold read_PStr
      | |- raises_only _ read_PStr => unfold read_PStr
      | |- safe _ (if ?c then _ else _) => destruct c
      | |- raises_only _ (if ?c then _ else _) => destruct c
      | |- safe _ (match ?x with (_, _) => _ end) => destruct x
      | |- raises_only _ (match ?x with (_, _) => _ end) => destruct x
      end
    | apply safe_any_bind; [|intros]
    | apply raises_only_bind; [|intros] ].

Lemma safe_read_intermediate_fwd_info : safe any_state read_intermediate_fwd_info.
Proof. unfold read_intermediate_fwd_info. record_reads. Qed.

Lemma raises_only_read_intermediate_fwd_info :
  raises_only is_EOFError read_intermediate_fwd_info.
Proof. unfold read_intermediate_fwd_info. record_reads. Qed.

#[local] Hint Resolve safe_read_intermediate_fwd_info
  raises_only_read_intermediate_fwd_info : msg.

Section MessageFacts.

Variable registry : gmap Z (PostboxDecoder -> outcome).
Variable recursion_limit : nat.

(** The guarded decoding of an item always gives a value. *)
Lemma decode_item_eq data :
  decode_item registry recursion_limit data = Ok (item_or_fallback registry recursion_limit data).
Proof.
  unfold decode_item, item_or_fallback.
  pose proof (decodeRootObject_total registry recursion_limit (PostboxDecoder_init data)) as Ht.
  by destruct (decodeRootObject registry recursion_limit (PostboxDecoder_init data)).1.
Qed.

Lemma read_item_eq b :
  read_item registry recursion_limit b
  = (data <- read_bytes ;; ret (item_or_fallback registry recursion_limit data)) b.
Proof.
  unfold read_item, bind. destruct (read_bytes b) as [[data|e|] b1]; try done.
  unfold lift_res. by rewrite decode_item_eq.
Qed.

Lemma safe_read_item : safe any_state (read_item registry recursion_limit).
Proof.
  assert (safe any_state
            (data <- read_bytes ;; ret (item_or_fallback registry recursion_limit data))) as H
    by record_reads.
  intros b Hb. rewrite read_item_eq. by apply H.
Qed.

Lemma raises_only_read_item : raises_only is_EOFError (read_item registry recursion_limit).
Proof.
  assert (raises_only is_EOFError
            (data <- read_bytes ;; ret (item_or_fallback registry recursion_limit data))) as H
    by record_reads.
  intros b e b'. rewrite read_item_eq. apply H.
Qed.

#[local] Hint Resolve safe_read_item raises_only_read_item : msg.

Lemma safe_read_items : safe any_state (read_items registry recursion_limit).
Proof. unfold read_items. record_reads. Qed.

Lemma raises_only_read_items : raises_only is_EOFError (read_items registry recursion_limit).
Proof. unfold read_items. record_reads. Qed.

#[local] Hint Resolve safe_read_items raises_only_read_items : msg.

Lemma safe_message_fields : safe any_state (message_fields registry recursion_limit).
Proof. unfold message_fields, read_referenced_media_id. record_reads. Qed.

Lemma raises_only_message_fields :
  raises_only is_EOFError (message_fields registry recursion_limit).
Proof. unfold message_fields, read_referenced_media_id. record_reads. Qed.

#[local] Hint Resolve safe_message_fields raises_only_message_fields : msg.

Lemma safe_message_body : safe any_state (message_body registry recursion_limit).
Proof. unfold message_body. record_reads. Qed.

(** Only the reads of the record itself end the [try] block with an
    exception. *)
Lemma message_body_raises : raises_only is_EOFError (message_body registry recursion_limit).
Proof. unfold message_body. record_reads. Qed.

(** A loop over items gives one value per item whose bytes are read. *)
Lemma repeatM_read_item n :
  forall b datas b',
    repeatM n read_bytes b = (Ok datas, b') ->
    repeatM n (read_item registry recursion_limit) b
    = (Ok (item_or_fallback registry recursion_limit <$> datas), b').
Proof.
  induction n as [|n IH]; intros b datas b' H; simpl in *.
  - by injection H as <- <-.
  - apply bind_Ok_inv in H as (data & b1 & H1 & H).
    apply bind_Ok_inv in H as (rest & b2 & H2 & [= <- <-]).
    assert (read_item registry recursion_limit b
            = (Ok (item_or_fallback registry recursion_limit data), b1)) as Hitem
      by (by rewrite read_item_eq, (bind_Ok _ _ _ _ _ H1)).
    rewrite (bind_Ok _ _ _ _ _ Hitem).
    by rewrite (bind_Ok _ _ _ _ _ (IH _ _ _ H2)).
Qed.

Lemma read_items_raw b count b0 datas b' :
  read_int32 b = (Ok count, b0) ->
  repeatM (Z.to_nat count) read_bytes b0 = (Ok datas, b') ->
  read_items registry recursion_limit b
  = (Ok (PList (item_or_fallback registry recursion_limit <$> datas)), b').
Proof.
  intros Hc Hd. unfold read_items.
  rewrite (bind_Ok _ _ _ _ _ Hc).
  by rewrite (bind_Ok _ _ _ _ _ (repeatM_read_item _ _ _ _ Hd)).
Qed.

(** The record after its type byte, once its own reads go through. *)
Lemma message_fields_items b b0 nA bA attrs b1 nM bM medias b2 nR bR refs b3 :
  message_head b = (Ok tt, b0) ->
  read_int32 b0 = (Ok nA, bA) ->
  repeatM (Z.to_nat nA) read_bytes bA = (Ok attrs, b1) ->
  read_int32 b1 = (Ok nM, bM) ->
  repeatM (Z.to_nat nM) read_bytes bM = (Ok medias, b2) ->
  read_int32 b2 = (Ok nR, bR) ->
  repeatM (Z.to_nat nR) read_referenced_media_id bR = (Ok refs, b3) ->
  exists d,
    message_fields registry recursion_limit b = (Ok (PDict d), b3)
    /\ d.*1 = message_keys
    /\ dict_get (str "attributes") d
       = Some (PList (item_or_fallback registry recursion_limit <$> attrs))
    /\ dict_get (str "embeddedMedia") d
       = Some (PList (item_or_fallback registry recursion_limit <$> medias))
    /\ dict_get (str "referencedMediaIds") d = Some (PList refs).
Proof.
  intros Hh HnA HA HnM HM HnR HR. unfold message_head in Hh.
  apply bind_Ok_inv in Hh as (stableId & s1 & H1 & Hh).
  apply bind_Ok_inv in Hh as (stableVer & s2 & H2 & Hh).
  apply bind_Ok_inv in Hh as (dataFlags & s3 & H3 & Hh).
  apply bind_Ok_inv in Hh as (globallyUniqueId & s4 & H4 & Hh).
  apply bind_Ok_inv in Hh as (globalTags & s5 & H5 & Hh).
  apply bind_Ok_inv in Hh as (groupingKey & s6 & H6 & Hh).
  apply bind_Ok_inv in Hh as (groupInfoStableId & s7 & H7 & Hh).
  apply bind_Ok_inv in Hh as (localTagsVal & s8 & H8 & Hh).
  apply bind_Ok_inv in Hh as (threadId & s9 & H9 & Hh).
  apply bind_Ok_inv in Hh as (flags & s10 & H10 & Hh).
  apply bind_Ok_inv in Hh as (tags & s11 & H11 & Hh).
  apply bind_Ok_inv in Hh as (fwd_info & s12 & H12 & Hh).
  apply bind_Ok_inv in Hh as (hasAuthorId & s13 & H13 & Hh).
  apply bind_Ok_inv in Hh as (authorId & s14 & H14 & Hh).
  apply bind_Ok_inv in Hh as (text & s15 & H15 & Hh).
  injection Hh as <-.
  unfold message_fields.
  rewrite (bind_Ok _ _ _ _ _ H1), (bind_Ok _ _ _ _ _ H2), (bind_Ok _ _ _ _ _ H3),
    (bind_Ok _ _ _ _ _ H4), (bind_Ok _ _ _ _ _ H5), (bind_Ok _ _ _ _ _ H6),
    (bind_Ok _ _ _ _ _ H7), (bind_Ok _ _ _ _ _ H8), (bind_Ok _ _ _ _ _ H9),
    (bind_Ok _ _ _ _ _ H10), (bind_Ok _ _ _ _ _ H11), (bind_Ok _ _ _ _ _ H12),
    (bind_Ok _ _ _ _ _ H13), (bind_Ok _ _ _ _ _ H14), (bind_Ok _ _ _ _ _ H15).
  rewrite (bind_Ok _ _ _ _ _ (read_items_raw _ _ _ _ _ HnA HA)).
  rewrite (bind_Ok _ _ _ _ _ (read_items_raw _ _ _ _ _ HnM HM)).
  rewrite (bind_Ok _ _ _ _ _ HnR), (bind_Ok _ _ _ _ _ HR).
  eexists. split; [reflexivity|]. repeat split.
Qed.

(** C6. In the attribute loop and in the embedded media loop of a message
    record an item whose decoding raises (whatever it raises) becomes
    [{'raw': data.hex()}] built from its own bytes, and an item that
    decodes becomes its object. Each loop gives one such value for every
    item whose bytes it reads, in order, and leaves the cursor behind the
    last. So a record whose own reads go through (its head, the two counts
    with the length-prefixed bytes of the items, the referenced media) is
    returned as the message, with these values under [attributes] and
    [embeddedMedia], however many of its items fail to decode. No
    exception of an item leaves the [try] block: only a read of the record
    itself that runs out of data does. *)
Theorem C6_item_fallback :
  (forall data e,
      (decodeRootObject registry recursion_limit (PostboxDecoder_init data)).1 = Raise e ->
      item_or_fallback registry recursion_limit data = PDict [(str "raw", PStr (hex data))])
  /\ (forall data v,
        (decodeRootObject registry recursion_limit (PostboxDecoder_init data)).1 = Ok v ->
        item_or_fallback registry recursion_limit data = v)
  /\ (forall b count b0 datas b',
        read_int32 b = (Ok count, b0) ->
        repeatM (Z.to_nat count) read_bytes b0 = (Ok datas, b') ->
        read_items registry recursion_limit b
        = (Ok (PList (item_or_fallback registry recursion_limit <$> datas)), b'))
  /\ (forall v bh b0 nA bA attrs b1 nM bM medias b2 nR bR refs b3,
        read_int8 (byteutil_init v LittleEndian) = (Ok 0, bh) ->
        message_head bh = (Ok tt, b0) ->
        read_int32 b0 = (Ok nA, bA) ->
        repeatM (Z.to_nat nA) read_bytes bA = (Ok attrs, b1) ->
        read_int32 b1 = (Ok nM, bM) ->
        repeatM (Z.to_nat nM) read_bytes bM = (Ok medias, b2) ->
        read_int32 b2 = (Ok nR, bR) ->
        repeatM (Z.to_nat nR) read_referenced_media_id bR = (Ok refs, b3) ->
        exists d,
          read_intermediate_message_complete registry recursion_limit v
          = Ok (PDict d)
          /\ message_body registry recursion_limit (byteutil_init v LittleEndian)
             = (Ok (PDict d), b3)
          /\ d.*1 = message_keys
          /\ dict_get (str "attributes") d
             = Some (PList (item_or_fallback registry recursion_limit <$> attrs))
          /\ dict_get (str "embeddedMedia") d
             = Some (PList (item_or_fallback registry recursion_limit <$> medias))
          /\ dict_get (str "referencedMediaIds") d = Some (PList refs))
  /\ (forall b e b',
        message_body registry recursion_limit b = (Raise e, b') ->
        e = EOFError NOT_ENOUGH_DATA).
Proof.
  split; [|split; [|split; [|split]]].
  - intros data e H. unfold item_or_fallback. by rewrite H.
  - intros data v H. unfold item_or_fallback. by rewrite H.
  - apply read_items_raw.
  - intros v bh b0 nA bA attrs b1 nM bM medias b2 nR bR refs b3
      Hty Hh HnA HA HnM HM HnR HR.
    destruct (message_fields_items _ _ _ _ _ _ _ _ _ _ _ _ _ _
                Hh HnA HA HnM HM HnR HR) as (d & Hd & Hkeys & Hattr & Hmedia & Hrefs).
    assert (message_body registry recursion_limit (byteutil_init v LittleEndian)
            = (Ok (PDict d), b3)) as Hbody.
    { unfold message_body. rewrite (bind_Ok _ _ _ _ _ Hty). exact Hd. }
    exists d. split; [|done].
    unfold read_intermediate_message_complete. by rewrite Hbody.
  - apply message_body_raises.
Qed.

(** *** The record type byte *)

Lemma byte_val_range b : 0 <= byte_val b < 256.
Proof.
  unfold byte_val. pose proof (Byte.to_N_bounded b). lia.
Qed.

Lemma to_signed_8_zero b : (to_signed 8 (byte_val b) =? 0) = (byte_val b =? 0).
Proof.
  pose proof (byte_val_range b). unfold to_signed.
  change (2 ^ (8 - 1)) with 128. change (2 ^ 8) with 256.
  destruct (byte_val b <? 128) eqn:E; [done|].
  apply Z.ltb_ge in E.
  rewrite (proj2 (Z.eqb_neq _ _)) by lia.
  by rewrite (proj2 (Z.eqb_neq _ _)) by lia.
Qed.

Lemma read_int8_first b rest :
  read_int8 (byteutil_init (b :: rest) LittleEndian)
  = (Ok (to_signed 8 (byte_val b)), mk_byteutil LittleEndian (b :: rest) 1).
Proof.
  unfold read_int8. rewrite read_fmt_Ok by (simpl; lia).
  simpl. unfold unpack, le_uint. simpl. by rewrite Z.add_0_r.
Qed.

Lemma message_fields_dict b v b' :
  message_fields registry recursion_limit b = (Ok v, b') -> exists d, v = PDict d.
Proof.
  unfold message_fields. intros H.
  repeat (apply bind_Ok_inv in H as (? & ? & _ & H)).
  injection H as <- _. eauto.
Qed.

(** [read_intermediate_message_complete] returns [None] for a record with
    another type byte than 0, and a mapping (the message or the error
    record) for every other value. *)
Lemma read_intermediate_message_complete_cases v :
  (invalid_discriminant v = true
   /\ read_intermediate_message_complete registry recursion_limit v = Ok PNone)
  \/ (invalid_discriminant v = false
      /\ exists d, read_intermediate_message_complete registry recursion_limit v = Ok (PDict d)).
Proof.
  unfold read_intermediate_message_complete, message_body.
  destruct v as [|b rest].
  - right. split; [done|]. eauto.
  - rewrite (bind_Ok _ _ _ _ _ (read_int8_first b rest)).
    rewrite to_signed_8_zero. simpl.
    destruct (byte_val b =? 0); simpl; [right | left; done].
    split; [done|].
    pose proof (safe_message_fields (mk_byteutil LittleEndian (b :: rest) 1) I)
      as Hs.
    destruct (message_fields registry recursion_limit _) as [[r|e|] b1] eqn:E; simpl in *.
    + apply message_fields_dict in E as [d ->]. eauto.
    + eauto.
    + done.
Qed.

End MessageFacts.

(** ** The scan of the message table *)

Lemma returns_ret {S A} (a : A) : returns (S:=S) (ret a).
Proof. intros s. by eexists _, _. Qed.

Lemma returns_bind {S A B} (m : M S A) (k : A -> M S B) :
  returns m -> (forall a, returns (k a)) -> returns (bind m k).
Proof.
  intros Hm Hk s. destruct (Hm s) as (a & s1 & H1).
  rewrite (bind_Ok _ _ _ _ _ H1). apply Hk.
Qed.

Section ScanFacts.

Variable registry : gmap Z (PostboxDecoder -> outcome).
Variable recursion_limit : nat.
Variable t2_value : pystr -> option bytes.
Variable fromtimestamp : Z -> option (pystr * pystr * pystr).

Local Abbreviation peer_info := (get_peer_info registry recursion_limit t2_value).
Local Abbreviation scan := (scan_row registry recursion_limit t2_value fromtimestamp).

Lemma returns_get_peer_info pid : returns (peer_info pid).
Proof.
  intros cache. unfold get_peer_info.
  destruct pid as [pid|]; [|by eexists _, _].
  destruct (cache !! pid); [by eexists _, _|].
  destruct (t2_value _) as [v|]; [|by eexists _, _].
  pose proof (decodeRootObject_total registry recursion_limit (PostboxDecoder_init v)) as Ht.
  destruct (decodeRootObject registry recursion_limit (PostboxDecoder_init v)).1 as [[]|e|];
    try done; by eexists _, _.
Qed.

(** A row in scope is skipped when its record has another type byte than
    0, and gives an entry otherwise. *)
Lemma scan_row_in_scope peer_id row cache :
  row_in_scope fromtimestamp peer_id row ->
  exists o cache',
    scan peer_id row cache = (Ok o, cache')
    /\ (invalid_discriminant row.2 = true -> o = None)
    /\ (invalid_discriminant row.2 = false -> is_Some o).
Proof.
  destruct row as [key value]. intros (idx & Hidx & Hpeer & [[[iso date] time] Hts]).
  simpl in *. unfold scan_row. rewrite Hidx, Hpeer, Z.eqb_refl. simpl.
  unfold bind at 1. unfold lift_res.
  destruct (read_intermediate_message_complete_cases registry recursion_limit value)
    as [[Hinv ->]|[Hinv [msg ->]]].
  - eexists _, _. split; [reflexivity|]. split; [done | congruence].
  - assert (returns
              (if truthy (dict_get_default (str "authorId") PNone msg)
               then peer_info (as_peer_id (dict_get_default (str "authorId") PNone msg))
               else ret PNone)) as Hauthor.
    { destruct (truthy _); [apply returns_get_peer_info | apply returns_ret]. }
    destruct (Hauthor cache) as (author_info & cache1 & H1).
    rewrite (bind_Ok _ _ _ _ _ H1).
    assert (returns
              (match dict_get_default (str "forwarded") PNone msg with
               | PDict fwd =>
                   if truthy (PDict fwd)
                      && truthy (dict_get_default (str "authorId") PNone fwd)
                   then
                     info <- peer_info
                               (as_peer_id (dict_get_default (str "authorId") PNone fwd)) ;;
                     ret (PDict (dict_set (str "authorInfo") info fwd))
                   else ret (PDict fwd)
               | other => ret other
               end)) as Hfwd.
    { destruct (dict_get_default (str "forwarded") PNone msg);
        try apply returns_ret.
      destruct (_ && _); [|apply returns_ret].
      apply returns_bind; [apply returns_get_peer_info|].
      intros. apply returns_ret. }
    destruct (Hfwd cache1) as (forwarded & cache2 & H2).
    rewrite (bind_Ok _ _ _ _ _ H2). rewrite Hts.
    eexists _, _. split; [reflexivity|]. split; [congruence | by eexists].
Qed.

(** C4, as the code has it. Over rows of the chat asked for, [N] in
    number, of which [K] hold a record with another type byte than 0, the
    scan returns [N - K] entries: the [K] records are skipped, and no
    placeholder stands for them. *)
Theorem C4_invalid_records_skipped peer_id rows cache :
  Forall (row_in_scope fromtimestamp peer_id) rows ->
  exists messages cache',
    extract_complete_chat registry recursion_limit t2_value fromtimestamp rows peer_id cache
    = (Ok messages, cache')
    /\ (length messages
        + length (filter (fun row => invalid_discriminant row.2 = true) rows)
        = length rows)%nat.
Proof.
  unfold extract_complete_chat. intros Hrows. revert cache.
  induction Hrows as [|row rows Hrow _ IH]; intros cache.
  - by eexists _, _.
  - simpl.
    destruct (scan_row_in_scope peer_id row cache Hrow)
      as (o & cache1 & H1 & Hinv & Hval).
    rewrite (bind_Ok _ _ _ _ _ H1).
    destruct (IH cache1) as (rest & cache2 & H2 & Hlen).
    rewrite (bind_Ok _ _ _ _ _ H2).
    eexists _, _. split; [reflexivity|].
    rewrite filter_cons.
    destruct (invalid_discriminant row.2) eqn:E.
    + rewrite (Hinv eq_refl). rewrite decide_True by done. simpl. lia.
    + destruct (Hval eq_refl) as [m ->]. rewrite decide_False by done.
      simpl. lia.
Qed.

End ScanFacts.

(** ** The message decoder and the scan on the samples *)

Lemma C6_item_fallback_witness :
  item_or_fallback ∅ Samples.limit Samples.bad_tag_entry
  = PDict [(str "raw", PStr (str "015f0e"))]
  /\ item_or_fallback ∅ Samples.limit Samples.media_item = Samples.media_object
  /\ read_items ∅ Samples.limit
       (byteutil_init (mk_bytes [2; 0; 0; 0] ++ Samples.two_items) LittleEndian)
     = (Ok (PList (item_or_fallback ∅ Samples.limit
                     <$> [Samples.bad_tag_entry; Samples.media_item])),
        mk_byteutil LittleEndian (mk_bytes [2; 0; 0; 0] ++ Samples.two_items) 78)
  /\ exists d,
       read_intermediate_message_complete ∅ Samples.limit Samples.message_record
       = Ok (PDict d)
       /\ message_body ∅ Samples.limit
            (byteutil_init Samples.message_record LittleEndian)
          = (Ok (PDict d), mk_byteutil LittleEndian Samples.message_record 120)
       /\ d.*1 = message_keys
       /\ dict_get (str "attributes") d
          = Some (PList (item_or_fallback ∅ Samples.limit <$> [Samples.bad_tag_entry]))
       /\ dict_get (str "embeddedMedia") d
          = Some (PList (item_or_fallback ∅ Samples.limit <$> [Samples.media_item]))
       /\ dict_get (str "referencedMediaIds") d = Some (PList []).
Proof.
  destruct (C6_item_fallback ∅ Samples.limit) as (H1 & H2 & H3 & H4 & _).
  split; [|split; [|split]].
  - apply (H1 Samples.bad_tag_entry (ValueError_enum 14)). reflexivity.
  - apply (H2 Samples.media_item Samples.media_object). reflexivity.
  - apply (H3 _ 2 (mk_byteutil LittleEndian
                     (mk_bytes [2; 0; 0; 0] ++ Samples.two_items) 4));
      reflexivity.
  - apply (H4 Samples.message_record
             (mk_byteutil LittleEndian Samples.message_record 1)
             (mk_byteutil LittleEndian Samples.message_record 34)
             1 (mk_byteutil LittleEndian Samples.message_record 38)
             [Samples.bad_tag_entry]
             (mk_byteutil LittleEndian Samples.message_record 45)
             1 (mk_byteutil LittleEndian Samples.message_record 49)
             [Samples.media_item]
             (mk_byteutil LittleEndian Samples.message_record 116)
             0 (mk_byteutil LittleEndian Samples.message_record 120)
             []); reflexivity.
Defined.

(** An item whose objects nest deeper than the recursion limit has room
    for is kept as raw bytes like any other item that fails to decode. *)
Example item_too_deep :
  (decodeRootObject ∅ 2 (PostboxDecoder_init Samples.media_item)).1
  = Raise RecursionError
  /\ item_or_fallback ∅ 2 Samples.media_item
     = raw_fallback Samples.media_item
  /\ item_or_fallback ∅ 3 Samples.media_item = Samples.media_object.
Proof. repeat split. Qed.

(** The end-to-end scenario of the specification: thread id set, flags
    Incoming, the attribute that fails to decode kept as raw bytes, the
    embedded media decoded, and its identifier. *)
Example message_record_decoded :
  read_intermediate_message_complete ∅ Samples.limit Samples.message_record
  = Ok (PDict
          [(str "stableId", PInt 1);
           (str "stableVersion", PInt 2);
           (str "globallyUniqueId", PNone);
           (str "authorId", PNone);
           (str "text", PStr (str "hi"));
           (str "flags", PList [PStr (str "Incoming")]);
           (str "tags", PList [PStr (str "PhotoOrVideo")]);
           (str "forwarded", PNone);
           (str "attributes", PList [PDict [(str "raw", PStr (str "015f0e"))]]);
           (str "embeddedMedia", PList [Samples.media_object]);
           (str "referencedMediaIds", PList []);
           (str "groupingKey", PNone);
           (str "threadId", PInt 9);
           (str "globalTags", PNone);
           (str "localTags", PNone)]).
Proof. vm_compute. reflexivity. Qed.

Example media_object_identifier :
  parse_media_ids Samples.no_object Samples.media_object
  = Ok [str "telegram-cloud-photo-size-2-555-w"].
Proof. reflexivity. Qed.

(** C4, as the specification has it, fails: a table of one row ([N = 1])
    whose record has the type byte 1 ([K = 1]) gives no entry at all,
    neither a placeholder nor at least [N] entries. *)
Lemma C4_counterexample :
  let rows := [(Samples.message_key, Samples.other_record)] in
  MessageIndex_from_bytes Samples.message_key = Ok (mk_MessageIndex 7 0 1 0)
  /\ invalid_discriminant Samples.other_record = true
  /\ exists messages,
       (extract_complete_chat ∅ Samples.limit Samples.no_peers Samples.clock rows 7 ∅).1
       = Ok messages
       /\ (length messages < length rows)%nat.
Proof.
  split; [reflexivity|]. split; [reflexivity|].
  exists []. split; [vm_compute; reflexivity | simpl; lia].
Qed.

Lemma C4_invalid_records_skipped_witness :
  exists messages cache',
    extract_complete_chat ∅ Samples.limit Samples.no_peers Samples.clock
      [(Samples.message_key, Samples.other_record);
       (Samples.message_key, Samples.message_record);
       (Samples.message_key, [])] 7 ∅
    = (Ok messages, cache')
    /\ (length messages + 1 = 3)%nat.
Proof.
  apply (C4_invalid_records_skipped ∅ Samples.limit Samples.no_peers Samples.clock 7
           [(Samples.message_key, Samples.other_record);
            (Samples.message_key, Samples.message_record);
            (Samples.message_key, [])] ∅).
  repeat constructor;
    (exists (mk_MessageIndex 7 0 1 0); repeat split; by eexists).
Defined.

(** * Further properties of the code *)

(** ** [byteutil]: ranges and lengths *)

Lemma le_uint_range bs : 0 <= le_uint bs < 256 ^ Z.of_nat (length bs).
Proof.
  induction bs as [|b bs IH]; [simpl; lia|].
  unfold le_uint in *. simpl foldr. rewrite length_cons, Nat2Z.inj_succ, Z.pow_succ_r by lia.
  pose proof (byte_val_range b). lia.
Qed.

Lemma to_signed_range w u :
  0 < w -> 0 <= u < 2 ^ w -> - 2 ^ (w - 1) <= to_signed w u < 2 ^ (w - 1).
Proof.
  intros Hw Hu. unfold to_signed.
  assert (2 ^ w = 2 * 2 ^ (w - 1)) as Hp.
  { rewrite <- Z.pow_succ_r by lia. f_equal. lia. }
  destruct (u <? 2 ^ (w - 1)) eqn:E; [apply Z.ltb_lt in E | apply Z.ltb_ge in E]; lia.
Qed.

Lemma unpack_range e f data :
  length data = calcsize f ->
  (fmt_range f).1 <= unpack e f data < (fmt_range f).2.
Proof.
  intros Hlen.
  assert (0 <= match e with
               | LittleEndian => le_uint data
               | BigEndian => le_uint (reverse data)
               end < 256 ^ Z.of_nat (calcsize f)) as Hu.
  { rewrite <- Hlen. destruct e; [apply le_uint_range|].
    rewrite <- (length_reverse data). apply le_uint_range. }
  unfold unpack. destruct f; simpl in Hu |- *;
    first [ apply (to_signed_range 8); [lia|exact Hu]
          | apply (to_signed_range 32); [lia|exact Hu]
          | apply (to_signed_range 64); [lia|exact Hu]
          | exact Hu ].
Qed.

(** X1. A read that returns gives a number in the range of its format
    (one, four or eight bytes, signed or not), has moved the cursor by
    exactly the size of the format, and has left the data alone. *)
Theorem read_fmt_in_range f b z b' :
  read_fmt f b = (Ok z, b') ->
  (fmt_range f).1 <= z < (fmt_range f).2
  /\ buf_pos b' = (buf_pos b + calcsize f)%nat
  /\ buf_data b' = buf_data b.
Proof.
  intros H. apply read_fmt_Ok_inv in H as (Hle & -> & ->).
  split; [|done]. apply unpack_range.
  rewrite length_take. unfold remaining. rewrite length_drop. lia.
Qed.

Lemma read_fmt_in_range_witness :
  (fmt_range Fmt_i).1 <= -2 < (fmt_range Fmt_i).2
  /\ buf_pos (mk_byteutil LittleEndian (mk_bytes [254; 255; 255; 255]) 4)
     = (0 + calcsize Fmt_i)%nat
  /\ buf_data (mk_byteutil LittleEndian (mk_bytes [254; 255; 255; 255]) 4)
     = mk_bytes [254; 255; 255; 255].
Proof.
  apply (read_fmt_in_range Fmt_i
           (byteutil_init (mk_bytes [254; 255; 255; 255]) LittleEndian)).
  reflexivity.
Defined.

(** X2. [read_fmt] returns exactly when the bytes of the format are there.
    With them, the [read_fmt] of extract_messages.py and the one of
    list_chats.py do the same; without them the first raises
    [EOFError('Not enough data')] and the second the [struct.error] of
    [struct.unpack]. Either way the cursor ends at the end of the data. *)
Theorem read_fmt_enough_or_not f b :
  ((buf_pos b + calcsize f <= length (buf_data b))%nat ->
   (exists z b', read_fmt f b = (Ok z, b'))
   /\ ListChats.read_fmt f b = read_fmt f b)
  /\ ((length (buf_data b) < buf_pos b + calcsize f)%nat ->
      (buf_pos b <= length (buf_data b))%nat ->
      read_fmt f b
      = (Raise (EOFError NOT_ENOUGH_DATA),
         mk_byteutil (endian b) (buf_data b) (length (buf_data b)))
      /\ ListChats.read_fmt f b
         = (Raise StructError,
            mk_byteutil (endian b) (buf_data b) (length (buf_data b)))).
Proof.
  assert ((Z.of_nat (calcsize f) <? 0) = false) as Hn by (apply Z.ltb_ge; lia).
  split.
  - intros Hle. split; [rewrite read_fmt_Ok by done; eauto|].
    unfold ListChats.read_fmt, read_fmt, bind. rewrite buf_read_eq, Hn, Nat2Z.id.
    assert (length (take (calcsize f) (remaining b)) = calcsize f) as Hlen.
    { rewrite length_take. unfold remaining. rewrite length_drop. lia. }
    rewrite Hlen, Nat.ltb_irrefl. by rewrite bool_decide_eq_true_2.
  - intros Hlt Hpos.
    assert (length (take (calcsize f) (remaining b))
            = (length (buf_data b) - buf_pos b)%nat) as Hlen.
    { rewrite length_take. unfold remaining. rewrite length_drop. lia. }
    unfold ListChats.read_fmt, read_fmt, bind. rewrite buf_read_eq, Hn, Nat2Z.id.
    rewrite Hlen.
    assert ((length (buf_data b) - buf_pos b <? calcsize f)%nat = true) as ->
      by (apply Nat.ltb_lt; lia).
    rewrite bool_decide_eq_false_2 by lia.
    unfold raise. split; do 2 f_equal; lia.
Qed.

Lemma read_fmt_enough_or_not_witness :
  ((exists z b',
       read_fmt Fmt_i (byteutil_init (mk_bytes [1; 0; 0; 0; 9]) LittleEndian)
       = (Ok z, b'))
   /\ ListChats.read_fmt Fmt_i (byteutil_init (mk_bytes [1; 0; 0; 0; 9]) LittleEndian)
      = read_fmt Fmt_i (byteutil_init (mk_bytes [1; 0; 0; 0; 9]) LittleEndian))
  /\ (read_fmt Fmt_q (byteutil_init (mk_bytes [1; 0; 0; 0; 9]) LittleEndian)
      = (Raise (EOFError NOT_ENOUGH_DATA),
         mk_byteutil LittleEndian (mk_bytes [1; 0; 0; 0; 9]) 5)
      /\ ListChats.read_fmt Fmt_q (byteutil_init (mk_bytes [1; 0; 0; 0; 9]) LittleEndian)
         = (Raise StructError,
            mk_byteutil LittleEndian (mk_bytes [1; 0; 0; 0; 9]) 5)).
Proof.
  split.
  - apply (proj1 (read_fmt_enough_or_not Fmt_i
                    (byteutil_init (mk_bytes [1; 0; 0; 0; 9]) LittleEndian))).
    simpl. lia.
  - apply (proj2 (read_fmt_enough_or_not Fmt_q
                    (byteutil_init (mk_bytes [1; 0; 0; 0; 9]) LittleEndian)));
      simpl; lia.
Defined.

(** X3. Once its four length bytes are read, [read_bytes] returns and never
    raises: as many bytes as the length says when they are there, what is
    left when they are not, and everything that is left when the length is
    negative. *)
Theorem read_bytes_lengths b slen b1 :
  read_int32 b = (Ok slen, b1) ->
  exists data b2,
    read_bytes b = (Ok data, b2)
    /\ buf_pos b2 = (buf_pos b + 4 + length data)%nat
    /\ (slen < 0 -> data = remaining b1)
    /\ (0 <= slen ->
        length data = Nat.min (Z.to_nat slen) (bytes_left b1)
        /\ data = take (Z.to_nat slen) (remaining b1)).
Proof.
  intros H. unfold read_bytes. rewrite (bind_Ok _ _ _ _ _ H), buf_read_eq.
  apply read_fmt_Ok_inv in H as (Hle & -> & _). simpl in *.
  eexists _, _. split; [reflexivity|]. split; [done|]. split.
  - intros Hneg. by rewrite (proj2 (Z.ltb_lt _ _) Hneg).
  - intros Hpos. rewrite (proj2 (Z.ltb_ge _ _) Hpos).
    split; [|done]. rewrite length_take. unfold remaining, bytes_left.
    by rewrite length_drop.
Qed.

Lemma read_bytes_lengths_witness :
  exists data b2,
    read_bytes (byteutil_init (mk_bytes [255; 255; 255; 255; 7; 8]) LittleEndian)
    = (Ok data, b2)
    /\ buf_pos b2 = (0 + 4 + length data)%nat
    /\ (-1 < 0 ->
        data = remaining (mk_byteutil LittleEndian
                            (mk_bytes [255; 255; 255; 255; 7; 8]) 4))
    /\ (0 <= -1 ->
        length data
        = Nat.min (Z.to_nat (-1))
            (bytes_left (mk_byteutil LittleEndian
                           (mk_bytes [255; 255; 255; 255; 7; 8]) 4))
        /\ data = take (Z.to_nat (-1))
                    (remaining (mk_byteutil LittleEndian
                                  (mk_bytes [255; 255; 255; 255; 7; 8]) 4))).
Proof.
  apply (read_bytes_lengths
           (byteutil_init (mk_bytes [255; 255; 255; 255; 7; 8]) LittleEndian) (-1)).
  reflexivity.
Defined.

(** ** Message keys *)

Lemma take_drop_take {A} n pos m (l : list A) :
  (pos + n <= m)%nat -> take n (drop pos (take m l)) = take n (drop pos l).
Proof.
  intros H. rewrite !take_drop_commute, take_take. do 2 f_equal. lia.
Qed.

Lemma read_fmt_at f e data pos :
  (pos + calcsize f <= length data)%nat ->
  read_fmt f (mk_byteutil e data pos)
  = (Ok (unpack e f (take (calcsize f) (drop pos data))),
     mk_byteutil e data (pos + calcsize f)).
Proof. intros H. by rewrite read_fmt_Ok. Qed.

Lemma read_fmt_at_EOF f e data pos :
  (length data < pos + calcsize f)%nat ->
  (read_fmt f (mk_byteutil e data pos)).1 = Raise (EOFError NOT_ENOUGH_DATA).
Proof.
  intros H. destruct (read_fmt_EOF f (mk_byteutil e data pos) H) as [b' ->]. done.
Qed.

Lemma bind_fst_Raise {S A B} (m : M S A) (k : A -> M S B) s e :
  (m s).1 = Raise e -> (bind m k s).1 = Raise e.
Proof. unfold bind. destruct (m s) as [[a|e'|] s1]; simpl; congruence. Qed.

(** X4. A key of fewer than 20 bytes makes [MessageIndex.from_bytes] raise
    [EOFError]; a key of 20 bytes or more gives an index, read from the
    first 20 bytes alone (what follows them is ignored), with a peer id in
    the signed 64-bit range and namespace, timestamp and id in the signed
    32-bit range. *)
Theorem MessageIndex_from_bytes_length key :
  ((length key < 20)%nat ->
   MessageIndex_from_bytes key = Raise (EOFError NOT_ENOUGH_DATA))
  /\ ((20 <= length key)%nat ->
      exists idx,
        MessageIndex_from_bytes key = Ok idx
        /\ MessageIndex_from_bytes (take 20 key) = Ok idx
        /\ - 2 ^ 63 <= peerId idx < 2 ^ 63
        /\ - 2 ^ 31 <= namespace idx < 2 ^ 31
        /\ - 2 ^ 31 <= timestamp idx < 2 ^ 31
        /\ - 2 ^ 31 <= id idx < 2 ^ 31).
Proof.
  assert (forall k : bytes, (20 <= length k)%nat ->
            MessageIndex_from_bytes k
            = Ok (mk_MessageIndex
                    (unpack BigEndian Fmt_q (take 8 (drop 0 k)))
                    (unpack BigEndian Fmt_i (take 4 (drop 8 k)))
                    (unpack BigEndian Fmt_i (take 4 (drop 16 k)))
                    (unpack BigEndian Fmt_i (take 4 (drop 12 k))))) as Hok.
  { intros k Hk.
    unfold MessageIndex_from_bytes, bind, read_int64, read_int32, byteutil_init.
    do 4 (rewrite read_fmt_at by (simpl; lia); cbv beta iota).
    reflexivity. }
  split.
  - intros Hlt.
    unfold MessageIndex_from_bytes, read_int64, read_int32, byteutil_init.
    destruct (decide (8 <= length key)%nat) as [H8|H8];
      [|by apply bind_fst_Raise, read_fmt_at_EOF; simpl; lia].
    erewrite bind_Ok by (apply read_fmt_at; simpl; lia).
    destruct (decide (12 <= length key)%nat) as [H12|H12];
      [|by apply bind_fst_Raise, read_fmt_at_EOF; simpl; lia].
    erewrite bind_Ok by (apply read_fmt_at; simpl; lia).
    destruct (decide (16 <= length key)%nat) as [H16|H16];
      [|by apply bind_fst_Raise, read_fmt_at_EOF; simpl; lia].
    erewrite bind_Ok by (apply read_fmt_at; simpl; lia).
    apply bind_fst_Raise, read_fmt_at_EOF; simpl; lia.
  - intros Hge. eexists. split; [by apply Hok|]. split.
    + rewrite Hok by (rewrite length_take; lia).
      by rewrite !take_drop_take by lia.
    + pose proof (unpack_range BigEndian Fmt_q (take 8 (drop 0 key))
                    ltac:(rewrite length_take, length_drop; unfold calcsize; lia)) as Hq.
      pose proof (unpack_range BigEndian Fmt_i (take 4 (drop 8 key))
                    ltac:(rewrite length_take, length_drop; unfold calcsize; lia)) as H8.
      pose proof (unpack_range BigEndian Fmt_i (take 4 (drop 12 key))
                    ltac:(rewrite length_take, length_drop; unfold calcsize; lia)) as H12.
      pose proof (unpack_range BigEndian Fmt_i (take 4 (drop 16 key))
                    ltac:(rewrite length_take, length_drop; unfold calcsize; lia)) as H16.
      exact (conj Hq (conj H8 (conj H12 H16))).
Qed.

Lemma MessageIndex_from_bytes_length_witness :
  MessageIndex_from_bytes (take 19 Samples.message_key)
  = Raise (EOFError NOT_ENOUGH_DATA)
  /\ exists idx,
       MessageIndex_from_bytes (Samples.message_key ++ mk_bytes [1; 2; 3]) = Ok idx
       /\ MessageIndex_from_bytes
            (take 20 (Samples.message_key ++ mk_bytes [1; 2; 3])) = Ok idx
       /\ - 2 ^ 63 <= peerId idx < 2 ^ 63
       /\ - 2 ^ 31 <= namespace idx < 2 ^ 31
       /\ - 2 ^ 31 <= timestamp idx < 2 ^ 31
       /\ - 2 ^ 31 <= id idx < 2 ^ 31.
Proof.
  split.
  - apply (proj1 (MessageIndex_from_bytes_length (take 19 Samples.message_key))).
    simpl. lia.
  - apply (proj2 (MessageIndex_from_bytes_length
                    (Samples.message_key ++ mk_bytes [1; 2; 3]))).
    simpl. lia.
Defined.

(** ** The mapping of an object *)

(** X5. The mapping that [_readObject] builds from the entries of a payload
    has every key once, and holds under a key the value of the last entry
    with that key: a later entry replaces an earlier one. *)
Theorem dict_of_entries_last_wins es :
  NoDup (dict_of_entries es).*1
  /\ forall k, dict_get k (dict_of_entries es) = entries_last k es.
Proof.
  unfold dict_of_entries, entries_last.
  assert (forall d,
             NoDup d.*1 ->
             NoDup (foldl (fun d (e : kv_entry) => dict_set e.1.1 e.2 d) d es).*1
             /\ forall k,
                 dict_get k (foldl (fun d (e : kv_entry) => dict_set e.1.1 e.2 d) d es)
                 = foldl (fun acc (e : kv_entry) =>
                            if bool_decide (e.1.1 = k) then Some e.2 else acc)
                     (dict_get k d) es) as H.
  { induction es as [|e es IH]; intros d Hd; simpl; [done|].
    destruct (IH (dict_set e.1.1 e.2 d) (dict_set_NoDup _ _ _ Hd)) as [H1 H2].
    split; [done|]. intros k. rewrite H2. f_equal.
    case_bool_decide as Hk.
    - rewrite <- Hk. apply dict_get_set_eq.
    - apply dict_get_set_ne. congruence. }
  apply (H []). constructor.
Qed.

(** ** Lookups and whole passes *)

Lemma kv_collect_get_loop ro vt key dO k d es d' :
  kv_collect_with ro dO k d = (Ok es, d') ->
  (get_loop_with ro vt key dO k d).1 = Ok (get_in_entries vt key es).
Proof.
  revert d es. induction k as [|k IH]; intros d es H; [discriminate|].
  simpl in H |- *.
  apply bind_Ok_inv in H as (o & d1 & H1 & H).
  rewrite (bind_Ok _ _ _ _ _ H1).
  destruct o as [[[k0 t] v]|]; [|by injection H as <- _].
  apply bind_Ok_inv in H as (es' & d2 & H2 & [= <- <-]).
  specialize (IH _ _ H2). simpl.
  destruct (negb _); [done|].
  destruct vt as [vt|]; [|done].
  repeat case_bool_decide; done.
Qed.

(** X6. Where the whole buffer decodes, [get] returns what a scan of the
    decoded entries from the front gives: the first entry with the key
    that has the type asked for, or is Nil (then with the value [None]),
    and [(None, None)] when there is none. *)
Theorem get_scans_entries registry recursion_limit vt key dO d es d' :
  _iter_kv registry recursion_limit dO d = (Ok es, d') ->
  (get registry recursion_limit vt key dO d).1 = Ok (get_in_entries vt key es).
Proof.
  unfold _iter_kv, iter_kv_with, get. intros H.
  apply bind_Ok_inv in H as ([] & d1 & H1 & H).
  rewrite (bind_Ok _ _ _ _ _ H1). by eapply kv_collect_get_loop.
Qed.

Lemma get_scans_entries_witness :
  (get ∅ Samples.limit (Some ValueType.Int32) (str "a") None
     (PostboxDecoder_init Samples.object_payload)).1
  = Ok (get_in_entries (Some ValueType.Int32) (str "a")
          [(str "a", ValueType.Int32, PInt 7)]).
Proof.
  apply (get_scans_entries ∅ Samples.limit (Some ValueType.Int32) (str "a") None
           (PostboxDecoder_init Samples.object_payload)
           [(str "a", ValueType.Int32, PInt 7)]
           (advance 7 (PostboxDecoder_init Samples.object_payload))).
  reflexivity.
Defined.

(** *** The cursor stays within the data *)

#[local] Instance bio_within_refl : Reflexive bio_within.
Proof. by intros b. Qed.

#[local] Instance bio_within_trans : Transitive bio_within.
Proof.
  intros b1 b2 b3 [H1 H2] [H3 H4]. split; [by etrans | auto].
Qed.

#[local] Instance dec_within_refl : Reflexive dec_within.
Proof. by intros d. Qed.

#[local] Instance dec_within_trans : Transitive dec_within.
Proof.
  intros d1 d2 d3 [H1 H2] [H3 H4]. split; [by etrans | congruence].
Qed.

Lemma within_buf_read n : preserves bio_within (buf_read n).
Proof.
  intros b r b' H. split; [by eapply preserves_buf_read|].
  rewrite buf_read_eq in H. injection H as _ <-. simpl. intros Hle.
  assert (length (if (n <? 0)%Z then remaining b
                  else take (Z.to_nat n) (remaining b))
          <= length (buf_data b) - buf_pos b)%nat; [|lia].
  unfold remaining. destruct (n <? 0); [|rewrite length_take];
    rewrite length_drop; lia.
Qed.

Lemma within_read_fmt f : preserves bio_within (read_fmt f).
Proof.
  intros b r b' H. unfold read_fmt in H. revert H.
  apply (preserves_bind bio_within); [apply within_buf_read|].
  intros data. destruct (Nat.ltb _ _);
    [apply preserves_raise | apply preserves_ret]; apply _.
Qed.

Lemma within_read_bytes : preserves bio_within read_bytes.
Proof.
  apply preserves_bind; [apply _ | apply within_read_fmt|].
  intros. apply within_buf_read.
Qed.

Lemma within_read_str : preserves bio_within read_str.
Proof.
  apply preserves_bind; [apply _ | apply within_read_bytes|].
  intros. apply preserves_ret. apply _.
Qed.

Lemma within_read_short_str : preserves bio_within read_short_str.
Proof.
  apply preserves_bind; [apply _ | |intros; apply preserves_ret; apply _].
  apply preserves_bind; [apply _ | apply within_read_fmt|].
  intros. apply within_buf_read.
Qed.

Lemma within_buf_tell : preserves bio_within buf_tell.
Proof. intros b r b' [= <- <-]. reflexivity. Qed.

Lemma within_self_size : preserves dec_within self_size.
Proof. intros b r b' [= <- <-]. reflexivity. Qed.

Lemma within_on_bio {A} (m : M byteutil A) :
  preserves bio_within m -> preserves dec_within (on_bio m).
Proof.
  intros Hm d r d' H. apply on_bio_inv in H as (b' & H & ->).
  split; [by eapply Hm | done].
Qed.

Lemma within_bind {A B} (m : M PostboxDecoder A) (k : A -> M PostboxDecoder B) :
  preserves dec_within m -> (forall a, preserves dec_within (k a)) ->
  preserves dec_within (bind m k).
Proof. apply preserves_bind; apply _. Qed.

Create HintDb within discriminated.

#[local] Hint Resolve within_on_bio within_read_fmt within_read_bytes
  within_read_str within_read_short_str within_buf_read within_buf_tell
  within_self_size : within.
#[local] Hint Extern 1 (preserves bio_within read_uint8) => apply within_read_fmt : within.
#[local] Hint Extern 1 (preserves bio_within read_int32) => apply within_read_fmt : within.
#[local] Hint Extern 1 (preserves bio_within read_int64) => apply within_read_fmt : within.
#[local] Hint Extern 1 (preserves bio_within read_double) => apply within_read_fmt : within.

Ltac method_within :=
  repeat first
    [ solve [eauto with within]
    | apply preserves_ret; apply _
    | apply preserves_raise; apply _
    | apply preserves_lift_res; apply _
    | apply preserves_lift_outcome; apply _
    | apply preserves_repeatM; [apply _ | apply _ |]
    | apply within_bind; [|intros] ].

Section WithinFacts.

Variable readObject : option bool -> M PostboxDecoder pyvalue.
Hypothesis readObject_within : forall dec, preserves dec_within (readObject dec).

#[local] Hint Resolve readObject_within : within.

Lemma within_readValue_with dO :
  preserves dec_within (readValue_with readObject dO).
Proof.
  unfold readValue_with. apply within_bind; [eauto with within|].
  intros tag. apply within_bind.
  - destruct (of_value_cases (S:=PostboxDecoder) tag) as [[t ->]| ->];
      method_within.
  - intros t. apply within_bind; [|intros; method_within].
    destruct t; method_within.
Qed.

#[local] Hint Resolve within_readValue_with : within.

Lemma within_kv_next_with dO :
  preserves dec_within (kv_next_with readObject dO).
Proof.
  unfold kv_next_with. method_within.
  destruct (_ <=? _)%nat; method_within.
  destruct a2 as [vt v]. method_within.
Qed.

Lemma within_kv_collect_with dO k :
  preserves dec_within (kv_collect_with readObject dO k).
Proof.
  induction k as [|k IH]; simpl; [method_within|].
  apply within_bind; [apply within_kv_next_with|].
  intros [e|]; method_within.
Qed.

(** The pass ends where the loop has seen the cursor at [self.size]. *)
Lemma kv_collect_with_end dO k d es d' :
  kv_collect_with readObject dO k d = (Ok es, d') ->
  (size d' <= buf_pos (bio d'))%nat.
Proof.
  revert d es. induction k as [|k IH]; intros d es H; [discriminate|].
  simpl in H. apply bind_Ok_inv in H as (o & d1 & H1 & H).
  destruct o as [e|].
  - apply bind_Ok_inv in H as (es' & d2 & H2 & [= <- <-]). by eapply IH.
  - injection H as _ <-. unfold kv_next_with in H1.
    apply bind_Ok_inv in H1 as (pos & d2 & Ht & H1).
    apply on_bio_inv in Ht as (b' & [= <- <-] & ->).
    apply bind_Ok_inv in H1 as (sz & d3 & [= <- <-] & H1). simpl in H1.
    destruct (_ <=? _)%nat eqn:E.
    + injection H1 as <-. by apply Nat.leb_le in E.
    + apply bind_Ok_inv in H1 as (key & d4 & _ & H1).
      apply bind_Ok_inv in H1 as ([vt v] & d5 & _ & H1). discriminate.
Qed.

End WithinFacts.

Lemma within_readObject registry depth dec :
  preserves dec_within (_readObject registry depth dec).
Proof.
  destruct depth as [|depth]; simpl; [method_within|].
  do 3 (apply within_bind; [eauto with within | intros]).
  destruct (negb _); [method_within|].
  destruct (registry !! _); method_within.
Qed.

(** X7. A pass of [_iter_kv] over a fresh decoder that comes to its end
    without an exception has consumed the buffer exactly: the cursor is at
    the length of the data, so no byte is left undecoded behind the last
    entry. *)
Theorem iter_kv_consumes_buffer registry recursion_limit dO data es d' :
  _iter_kv registry recursion_limit dO (PostboxDecoder_init data) = (Ok es, d') ->
  buf_pos (bio d') = length data
  /\ buf_data (bio d') = data.
Proof.
  unfold _iter_kv, iter_kv_with. intros H.
  apply bind_Ok_inv in H as ([] & d1 & H1 & H).
  apply seek0_inv in H1 as [_ ->].
  pose proof (kv_collect_with_end _ _ _ _ _ _ H) as Hend.
  apply within_kv_collect_with in H as [[(Hdata & _ & _) Hin] Hsize];
    [|apply within_readObject].
  simpl in *. rewrite Hdata in Hin. split; [lia | done].
Qed.

Lemma iter_kv_consumes_buffer_witness :
  buf_pos (bio (advance 18 (PostboxDecoder_init Samples.object_entry)))
  = length Samples.object_entry
  /\ buf_data (bio (advance 18 (PostboxDecoder_init Samples.object_entry)))
     = Samples.object_entry.
Proof.
  apply (iter_kv_consumes_buffer ∅ Samples.limit None Samples.object_entry
           [(str "_", ValueType.Object,
             PDict [(str "a", PInt 7); (str "@type", PInt 1)])]).
  reflexivity.
Defined.

(** *** Objects under the empty registry *)

Lemma readObject_generic depth dec d v d' :
  dec <> Some false ->
  _readObject ∅ depth dec d = (Ok v, d') -> is_generic_mapping v.
Proof.
  intros Hdec H. destruct depth as [|depth]; [discriminate|]. simpl in H.
  apply bind_Ok_inv in H as (typeHash & d1 & _ & H).
  apply bind_Ok_inv in H as (dataLen & d2 & _ & H).
  apply bind_Ok_inv in H as (data & d3 & _ & H).
  assert (negb match dec with Some b => b | None => true end = false) as Hn.
  { destruct dec as [[]|]; done. }
  rewrite Hn, lookup_empty in H.
  apply bind_Ok_inv in H as (es & d4 & _ & [= <- _]).
  eexists _, _. split; [done|]. apply dict_get_set_eq.
Qed.

Lemma readValue_with_Object ro dO d v d' :
  readValue_with ro dO d = (Ok (ValueType.Object, v), d') ->
  exists s, ro dO s = (Ok v, d').
Proof.
  unfold readValue_with. intros H.
  apply bind_Ok_inv in H as (tag & d1 & _ & H).
  apply bind_Ok_inv in H as (t & d2 & _ & H).
  apply bind_Ok_inv in H as (value & d3 & Hv & [= -> -> ->]). eauto.
Qed.

Lemma kv_next_with_Object ro dO d k0 v d' :
  kv_next_with ro dO d = (Ok (Some (k0, ValueType.Object, v)), d') ->
  exists s, ro dO s = (Ok v, d').
Proof.
  unfold kv_next_with. intros H.
  apply bind_Ok_inv in H as (pos & d1 & _ & H).
  apply bind_Ok_inv in H as (sz & d2 & _ & H).
  destruct (_ <=? _)%nat; [discriminate|].
  apply bind_Ok_inv in H as (key & d3 & _ & H).
  apply bind_Ok_inv in H as ([vt val] & d4 & Hv & [= -> -> -> ->]).
  by eapply readValue_with_Object.
Qed.

Lemma get_loop_with_Object ro key dO k d t v d' :
  get_loop_with ro (Some ValueType.Object) key dO k d = (Ok (t, v), d') ->
  v = PNone \/ exists s s', ro dO s = (Ok v, s').
Proof.
  revert d. induction k as [|k IH]; intros d H; [discriminate|].
  simpl in H. apply bind_Ok_inv in H as (o & d1 & H1 & H).
  destruct o as [[[k0 t0] v0]|]; [|injection H as _ <- _; by left].
  destruct (negb _); [by eapply IH|].
  case_bool_decide as Ht.
  - subst t0. injection H as _ <- <-. right.
    apply kv_next_with_Object in H1 as [s Hs]. eauto.
  - case_bool_decide; [injection H as _ <- _; by left | by eapply IH].
Qed.

(** X8. With the empty registry the scripts run with, the object under a
    key is either [None] or a generic mapping that holds its type hash
    under [@type]: what [decodeObjectForKey] and [decodeRootObject] hand to
    their callers always answers [.get]. *)
Theorem decodeObjectForKey_generic recursion_limit key d v d' :
  decodeObjectForKey ∅ recursion_limit key d = (Ok v, d') ->
  v = PNone \/ is_generic_mapping v.
Proof.
  unfold decodeObjectForKey. intros H.
  apply bind_Ok_inv in H as ([t v0] & d1 & Hget & H).
  destruct (truthy v0); injection H as <- _; [|by left].
  unfold get in Hget. apply bind_Ok_inv in Hget as ([] & d2 & _ & Hget).
  apply get_loop_with_Object in Hget as [->|(s & s' & Hs)]; [by left|].
  right. by eapply (readObject_generic _ None).
Qed.

Lemma decodeObjectForKey_generic_witness :
  PDict [(str "a", PInt 7); (str "@type", PInt 1)] = PNone
  \/ is_generic_mapping (PDict [(str "a", PInt 7); (str "@type", PInt 1)]).
Proof.
  apply (decodeObjectForKey_generic Samples.limit (str "_")
           (PostboxDecoder_init Samples.object_entry) _
           (advance 18 (PostboxDecoder_init Samples.object_entry))).
  reflexivity.
Defined.

(** ** The peer cache *)

Section PeerCacheFacts.

Variable registry : gmap Z (PostboxDecoder -> outcome).
Variable recursion_limit : nat.
Variable t2_value : pystr -> option bytes.

(** X9. [get_peer_info] on a peer id leaves its answer in the cache under
    that id and touches no other entry; an id that is cached is answered
    from the cache, which stays as it is; so a second call gives the answer
    of the first, whatever table t2 holds by then. *)
Theorem get_peer_info_cached pid cache v cache' :
  get_peer_info registry recursion_limit t2_value (Some pid) cache = (Ok v, cache') ->
  cache' !! pid = Some v
  /\ (forall q, q <> pid -> cache' !! q = cache !! q)
  /\ (forall w, cache !! pid = Some w -> v = w /\ cache' = cache)
  /\ (forall t2_later,
        get_peer_info registry recursion_limit t2_later (Some pid) cache' = (Ok v, cache')).
Proof.
  intros H.
  assert (cache' !! pid = Some v
          /\ (forall q, q <> pid -> cache' !! q = cache !! q)
          /\ (forall w, cache !! pid = Some w -> v = w /\ cache' = cache))
    as (H1 & H2 & H3).
  { unfold get_peer_info in H.
    destruct (cache !! pid) as [info|] eqn:Hc.
    - injection H as <- <-. repeat split; congruence.
    - assert (forall x, (Ok x, <[pid:=x]> cache) = (Ok v, cache') ->
                cache' !! pid = Some v
                /\ (forall q, q <> pid -> cache' !! q = cache !! q)
                /\ (forall w : pyvalue, None = Some w -> v = w /\ cache' = cache))
        as Hins.
      { intros x [= <- <-]. split; [apply lookup_insert_eq|].
        split; [|done]. intros q Hq. by apply lookup_insert_ne. }
      destruct (t2_value _) as [bs|]; [|exact (Hins _ H)].
      destruct (decodeRootObject registry recursion_limit (PostboxDecoder_init bs)).1
        as [[]|e|]; try discriminate; exact (Hins _ H). }
  split; [done|]. split; [done|]. split; [done|].
  intros t2_later. unfold get_peer_info. by rewrite H1.
Qed.

End PeerCacheFacts.

Lemma get_peer_info_cached_witness :
  (<[7 := PDict [(str "id", PInt 7); (str "unknown", PBool true)]]> ∅
     : gmap Z pyvalue) !! 7
  = Some (PDict [(str "id", PInt 7); (str "unknown", PBool true)])
  /\ (forall q, q <> 7 ->
        (<[7 := PDict [(str "id", PInt 7); (str "unknown", PBool true)]]> ∅
           : gmap Z pyvalue) !! q = (∅ : gmap Z pyvalue) !! q)
  /\ (forall w, (∅ : gmap Z pyvalue) !! 7 = Some w ->
        PDict [(str "id", PInt 7); (str "unknown", PBool true)] = w
        /\ <[7 := PDict [(str "id", PInt 7); (str "unknown", PBool true)]]> ∅
           = (∅ : gmap Z pyvalue))
  /\ (forall t2_later,
        get_peer_info ∅ Samples.limit t2_later (Some 7)
          (<[7 := PDict [(str "id", PInt 7); (str "unknown", PBool true)]]> ∅)
        = (Ok (PDict [(str "id", PInt 7); (str "unknown", PBool true)]),
           <[7 := PDict [(str "id", PInt 7); (str "unknown", PBool true)]]> ∅)).
Proof.
  apply (get_peer_info_cached ∅ Samples.limit Samples.no_peers 7 ∅). reflexivity.
Defined.

(** ** The scan, row by row *)

Lemma MessageIndex_from_bytes_no_budget key :
  MessageIndex_from_bytes key <> OutOfFuel.
Proof.
  unfold MessageIndex_from_bytes.
  assert (safe any_state
            (peerId <- read_int64 ;;
             namespace <- read_int32 ;;
             timestamp <- read_int32 ;;
             mid <- read_int32 ;;
             ret (mk_MessageIndex peerId namespace mid timestamp))) as H
    by record_reads.
  by apply H.
Qed.

Section ScanOrderFacts.

Variable registry : gmap Z (PostboxDecoder -> outcome).
Variable recursion_limit : nat.
Variable t2_value : pystr -> option bytes.
Variable fromtimestamp : Z -> option (pystr * pystr * pystr).

Local Abbreviation extract := (extract_complete_chat registry recursion_limit t2_value fromtimestamp).

Local Abbreviation peer_info := (get_peer_info registry recursion_limit t2_value).

(** What a round of the loop does with its row, whatever the row holds. *)
Lemma scan_row_emits peer_id row cache :
  exists o cache',
    scan_row registry recursion_limit t2_value fromtimestamp peer_id row cache
    = (Ok o, cache')
    /\ (row_emits fromtimestamp peer_id row = false -> o = None)
    /\ (row_emits fromtimestamp peer_id row = true ->
        exists entry, o = Some entry /\ entry_of_row row entry).
Proof.
  destruct row as [key value]. unfold scan_row, row_emits, entry_of_row. simpl.
  pose proof (MessageIndex_from_bytes_no_budget key) as Hb.
  destruct (MessageIndex_from_bytes key) as [idx|e|] eqn:Hidx; [| |done].
  2: { eexists _, _. split; [reflexivity|]. split; [done | discriminate]. }
  destruct (peerId idx =? peer_id) eqn:Hp; simpl.
  2: { eexists _, _. split; [reflexivity|]. split; [done | discriminate]. }
  unfold bind at 1. unfold lift_res.
  destruct (read_intermediate_message_complete_cases registry recursion_limit value)
    as [[Hinv ->]|[Hinv [msg ->]]]; rewrite Hinv; simpl.
  { eexists _, _. split; [reflexivity|]. split; [done | discriminate]. }
  assert (exists author_info cache1,
             (if truthy (dict_get_default (str "authorId") PNone msg)
              then peer_info (as_peer_id (dict_get_default (str "authorId") PNone msg))
              else ret PNone) cache = (Ok author_info, cache1))
    as (author_info & cache1 & H1).
  { destruct (truthy _); [|by eexists _, _].
    apply (returns_get_peer_info registry recursion_limit t2_value). }
  rewrite (bind_Ok _ _ _ _ _ H1).
  assert (exists forwarded cache2,
             (match dict_get_default (str "forwarded") PNone msg with
              | PDict fwd =>
                  if truthy (PDict fwd)
                     && truthy (dict_get_default (str "authorId") PNone fwd)
                  then
                    info <- peer_info
                              (as_peer_id (dict_get_default (str "authorId") PNone fwd)) ;;
                    ret (PDict (dict_set (str "authorInfo") info fwd))
                  else ret (PDict fwd)
              | other => ret other
              end) cache1 = (Ok forwarded, cache2))
    as (forwarded & cache2 & H2).
  { destruct (dict_get_default (str "forwarded") PNone msg) as [| | | | | | |fwd];
      try by eexists _, _.
    destruct (_ && _); [|by eexists _, _].
    destruct (returns_get_peer_info registry recursion_limit t2_value
                (as_peer_id (dict_get_default (str "authorId") PNone fwd)) cache1)
      as (info & c & Hi).
    rewrite (bind_Ok _ _ _ _ _ Hi). by eexists _, _. }
  rewrite (bind_Ok _ _ _ _ _ H2).
  destruct (fromtimestamp (timestamp idx)) as [[[iso date] time]|].
  - eexists _, _. split; [reflexivity|]. split; [discriminate|].
    intros _. eexists. split; [reflexivity|].
    exists idx. eexists. split; [done|]. split; [reflexivity|].
    repeat split.
  - eexists _, _. split; [reflexivity|]. split; [done|].
    rewrite bool_decide_eq_false_2; [discriminate|]. by intros [x Hx].
Qed.

(** X10. The scan of [extract_complete_chat] never raises, whatever the
    rows hold: it gives exactly one entry, in the order of the rows, for
    each row whose key is a message index of the peer asked for, whose
    record does not have another type byte than 0 and whose timestamp the
    clock converts, with the id, namespace and timestamp of that key; every
    other row is passed over. *)
Theorem extract_complete_chat_rows rows peer_id cache :
  exists messages cache',
    extract rows peer_id cache = (Ok messages, cache')
    /\ Forall2 entry_of_row
         (filter (fun row => row_emits fromtimestamp peer_id row = true) rows)
         messages.
Proof.
  unfold extract_complete_chat. revert cache.
  induction rows as [|row rows IH]; intros cache.
  - eexists _, _. split; [reflexivity | constructor].
  - simpl.
    destruct (scan_row_emits peer_id row cache) as (o & cache1 & H1 & Hno & Hyes).
    rewrite (bind_Ok _ _ _ _ _ H1).
    destruct (IH cache1) as (rest & cache2 & H2 & Hall).
    rewrite (bind_Ok _ _ _ _ _ H2).
    eexists _, _. split; [reflexivity|].
    rewrite filter_cons.
    destruct (row_emits fromtimestamp peer_id row) eqn:E.
    + destruct (Hyes eq_refl) as (entry & -> & Hentry).
      rewrite decide_True by done. by constructor.
    + rewrite (Hno eq_refl). by rewrite decide_False by done.
Qed.

(** X11. Rows whose key is no message index (fewer than 20 bytes) or is the
    index of a message of another peer give no entry and leave the peer
    cache as it is: nothing of another chat gets into the output. *)
Theorem extract_complete_chat_other_rows rows peer_id cache :
  Forall (fun row : bytes * bytes =>
            forall idx, MessageIndex_from_bytes row.1 = Ok idx ->
                        peerId idx <> peer_id) rows ->
  extract rows peer_id cache = (Ok [], cache).
Proof.
  unfold extract_complete_chat. intros Hrows.
  induction Hrows as [|[key value] rows Hrow _ IH]; simpl; [done|].
  assert (scan_row registry recursion_limit t2_value fromtimestamp peer_id (key, value) cache
          = (Ok None, cache)) as Hs.
  { unfold scan_row. simpl in Hrow.
    pose proof (MessageIndex_from_bytes_no_budget key) as Hb.
    destruct (MessageIndex_from_bytes key) as [idx|e|]; try done.
    specialize (Hrow idx eq_refl).
    by rewrite (proj2 (Z.eqb_neq _ _) Hrow). }
  rewrite (bind_Ok _ _ _ _ _ Hs), (bind_Ok _ _ _ _ _ IH). done.
Qed.

End ScanOrderFacts.

Lemma extract_complete_chat_other_rows_witness :
  extract_complete_chat ∅ Samples.limit Samples.no_peers Samples.clock
    [(Samples.message_key, Samples.message_record);
     (take 19 Samples.message_key, Samples.message_record)] 8 ∅
  = (Ok [], ∅).
Proof.
  apply (extract_complete_chat_other_rows ∅ Samples.limit Samples.no_peers Samples.clock).
  repeat constructor; simpl.
  - intros idx H. vm_compute in H. injection H as <-. simpl. lia.
  - intros idx H. vm_compute in H. discriminate.
Defined.

(** ** Flags *)

Lemma flag_in_testbit n flags :
  0 <= n -> flag_in (Z.shiftl 1 n) flags = Z.testbit flags n.
Proof.
  intros Hn. unfold flag_in. rewrite Z.shiftl_1_l.
  assert (Z.land (2 ^ n) flags = if Z.testbit flags n then 2 ^ n else 0) as ->.
  { apply Z.bits_inj'. intros i Hi. rewrite Z.land_spec.
    destruct (Z.testbit flags n) eqn:E.
    - rewrite Z.pow2_bits_eqb by done.
      destruct (Z.eqb_spec n i) as [->|Hne]; [by rewrite E | done].
    - rewrite Z.bits_0, Z.pow2_bits_eqb by done.
      destruct (Z.eqb_spec n i) as [->|Hne]; [by rewrite E | done]. }
  assert (0 < 2 ^ n) by (apply Z.pow_pos_nonneg; lia).
  destruct (Z.testbit flags n); [apply Z.eqb_refl | apply Z.eqb_neq; lia].
Qed.

Lemma flag_names_member members flags name bit :
  NoDup ((fun m : string * Z => str m.1) <$> members) ->
  (name, bit) ∈ members ->
  str_in_list (str name) (flag_names members flags) = flag_in bit flags.
Proof.
  unfold flag_names, str_in_list.
  induction members as [|[n0 b0] members IH]; intros Hnd Hin.
  - by apply elem_of_nil in Hin.
  - rewrite fmap_cons in Hnd. simpl in Hnd.
    pose proof (NoDup_cons_1_1 _ _ Hnd) as Hfresh.
    pose proof (NoDup_cons_1_2 _ _ Hnd) as Hnd'.
    rewrite filter_cons. simpl.
    apply elem_of_cons in Hin as [[= -> ->]|Hin].
    + destruct (decide (flag_in b0 flags = true)) as [E|E].
      * rewrite E. simpl. by rewrite bool_decide_eq_true_2.
      * rewrite (not_true_is_false _ E).
        apply not_true_is_false. intros Hex.
        apply existsb_exists in Hex as (v & Hv & Hs).
        apply list_elem_of_In, list_elem_of_fmap in Hv as ([n1 b1] & -> & Hm).
        apply bool_decide_eq_true in Hs. simpl in Hs.
        apply Hfresh. rewrite <- Hs. apply list_elem_of_fmap.
        exists (n1, b1). split; [done|].
        by apply list_elem_of_filter in Hm as [_ Hm].
    + assert (str n0 <> str name) as Hne.
      { intros Heq. apply Hfresh. rewrite Heq. apply list_elem_of_fmap.
        by exists (name, bit). }
      rewrite <- (IH Hnd' Hin).
      destruct (decide (flag_in b0 flags = true)); [|done].
      simpl. by rewrite bool_decide_eq_false_2.
Qed.

(** X12. The name of a message flag or of a message tag is in the list of
    names that the decoder gives exactly when the bit of that member is set
    in the 32-bit word read from the record; so ['Incoming'], by which the
    scan tells received from sent, is listed exactly when bit 2 of the
    flags is set. *)
Theorem flag_names_bits flags :
  (forall name bit,
      (name, bit) ∈ MessageFlags.members ->
      str_in_list (str name) (flag_names MessageFlags.members flags)
      = Z.testbit flags (Z.log2 bit))
  /\ (forall name bit,
        (name, bit) ∈ MessageTags.members ->
        str_in_list (str name) (flag_names MessageTags.members flags)
        = Z.testbit flags (Z.log2 bit))
  /\ str_in_list (str "Incoming") (flag_names MessageFlags.members flags)
     = Z.testbit flags 2.
Proof.
  assert (forall members,
             NoDup ((fun m : string * Z => str m.1) <$> members) ->
             Forall (fun m : string * Z =>
                       0 <= Z.log2 m.2 /\ m.2 = Z.shiftl 1 (Z.log2 m.2)) members ->
             forall name bit,
               (name, bit) ∈ members ->
               str_in_list (str name) (flag_names members flags)
               = Z.testbit flags (Z.log2 bit)) as H.
  { intros members Hnd Hbits name bit Hin.
    rewrite (flag_names_member _ _ _ _ Hnd Hin).
    rewrite Forall_forall in Hbits.
    destruct (Hbits _ (proj1 (list_elem_of_In _ _) Hin)) as [H0 Hb].
    simpl in *. rewrite Hb at 1. by apply flag_in_testbit. }
  assert (NoDup ((fun m : string * Z => str m.1) <$> MessageFlags.members)) as Hf
    by compute_done.
  assert (NoDup ((fun m : string * Z => str m.1) <$> MessageTags.members)) as Ht
    by compute_done.
  assert (Forall (fun m : string * Z =>
                    0 <= Z.log2 m.2 /\ m.2 = Z.shiftl 1 (Z.log2 m.2))
            MessageFlags.members) as Hfb
    by (repeat constructor; simpl; lia).
  assert (Forall (fun m : string * Z =>
                    0 <= Z.log2 m.2 /\ m.2 = Z.shiftl 1 (Z.log2 m.2))
            MessageTags.members) as Htb
    by (repeat constructor; simpl; lia).
  split; [by apply H|]. split; [by apply H|].
  apply (H _ Hf Hfb "Incoming"%string 4).
  unfold MessageFlags.members. rewrite !elem_of_cons. tauto.
Qed.

Lemma flag_names_bits_witness :
  str_in_list (str "Sending") (flag_names MessageFlags.members 36)
  = Z.testbit 36 (Z.log2 32)
  /\ str_in_list (str "Pinned") (flag_names MessageTags.members 36)
     = Z.testbit 36 (Z.log2 (Z.shiftl 1 10)).
Proof.
  destruct (flag_names_bits 36) as (H1 & H2 & _). split.
  - apply H1. unfold MessageFlags.members. rewrite !elem_of_cons. tauto.
  - apply H2. unfold MessageTags.members. rewrite !elem_of_cons. tauto.
Defined.

(** ** The shapes of a decoded record *)

Lemma repeatM_length {S A} n (m : M S A) s l s' :
  repeatM n m s = (Ok l, s') -> length l = n.
Proof.
  revert s l. induction n as [|n IH]; intros s l H; simpl in H.
  - by injection H as <- _.
  - apply bind_Ok_inv in H as (x & s1 & _ & H).
    apply bind_Ok_inv in H as (xs & s2 & H & [= <- <-]).
    simpl. f_equal. by eapply IH.
Qed.

Section RecordShapeFacts.

Variable registry : gmap Z (PostboxDecoder -> outcome).
Variable recursion_limit : nat.

Lemma message_fields_keys b v b' :
  message_fields registry recursion_limit b = (Ok v, b') ->
  exists d, v = PDict d /\ d.*1 = message_keys.
Proof.
  unfold message_fields. intros H.
  repeat (apply bind_Ok_inv in H as (? & ? & _ & H)).
  injection H as <- _. eexists. split; reflexivity.
Qed.

(** X13. [read_intermediate_message_complete] never raises. It returns
    [None] exactly for a value whose first byte is there and is not 0;
    for every other value it returns either the message, a mapping with
    the fifteen message keys in their order, or the error record, whose
    text is always ['Not enough data'] and whose [raw_hex] is the first 200
    hexadecimal digits of the value. *)
Theorem read_intermediate_message_complete_shapes v :
  (invalid_discriminant v = true
   /\ read_intermediate_message_complete registry recursion_limit v = Ok PNone)
  \/ (invalid_discriminant v = false
      /\ ((exists d,
              read_intermediate_message_complete registry recursion_limit v = Ok (PDict d)
              /\ d.*1 = message_keys)
          \/ read_intermediate_message_complete registry recursion_limit v = Ok (error_record v))).
Proof.
  unfold read_intermediate_message_complete.
  destruct v as [|b rest].
  - right. split; [done|]. right. reflexivity.
  - unfold message_body.
    rewrite (bind_Ok _ _ _ _ _ (read_int8_first b rest)).
    rewrite to_signed_8_zero. simpl invalid_discriminant.
    destruct (byte_val b =? 0); cbn [negb]; [right | left; done].
    split; [done|].
    pose proof (safe_message_fields registry recursion_limit
                  (mk_byteutil LittleEndian (b :: rest) 1) I) as Hs.
    destruct (message_fields registry recursion_limit _) as [[r|e|] b1] eqn:E; cbn [fst] in *.
    + left. apply message_fields_keys in E as (d & -> & Hk). by exists d.
    + right. apply raises_only_message_fields in E. by rewrite E.
    + done.
Qed.

(** X14. The attribute loop and the embedded media loop give as many items
    as the 32-bit count in front of them says, and none, without an error,
    when that count is zero or negative. *)
Theorem read_items_count b count b1 :
  read_int32 b = (Ok count, b1) ->
  (forall v b', read_items registry recursion_limit b = (Ok v, b') ->
                exists l, v = PList l /\ length l = Z.to_nat count)
  /\ (count <= 0 -> read_items registry recursion_limit b = (Ok (PList []), b1)).
Proof.
  intros Hc. unfold read_items. rewrite (bind_Ok _ _ _ _ _ Hc). split.
  - intros v b' H.
    apply bind_Ok_inv in H as (l & b2 & Hl & [= <- _]).
    exists l. split; [done|]. by eapply repeatM_length.
  - intros Hle. by rewrite (Z2Nat.nonpos count Hle).
Qed.

End RecordShapeFacts.

Lemma read_items_count_witness :
  (forall v b',
      read_items ∅ Samples.limit (byteutil_init (mk_bytes [255; 255; 255; 255; 1]) LittleEndian)
      = (Ok v, b') ->
      exists l, v = PList l /\ length l = Z.to_nat (-1))
  /\ (-1 <= 0 ->
      read_items ∅ Samples.limit (byteutil_init (mk_bytes [255; 255; 255; 255; 1]) LittleEndian)
      = (Ok (PList []),
         mk_byteutil LittleEndian (mk_bytes [255; 255; 255; 255; 1]) 4)).
Proof.
  apply (read_items_count ∅ Samples.limit
           (byteutil_init (mk_bytes [255; 255; 255; 255; 1]) LittleEndian) (-1)).
  reflexivity.
Defined.

(** ** Forward info *)

Lemma read_int8_at b x :
  buf_data b !! buf_pos b = Some x ->
  read_int8 b
  = (Ok (to_signed 8 (byte_val x)),
     mk_byteutil (endian b) (buf_data b) (buf_pos b + 1)).
Proof.
  intros Hx. unfold read_int8.
  rewrite read_fmt_Ok by (apply lookup_lt_Some in Hx; simpl; lia).
  f_equal. unfold remaining. rewrite (drop_S _ _ _ Hx). simpl.
  unfold unpack, le_uint. destruct (endian b); simpl; by rewrite Z.add_0_r.
Qed.

(** A number that is not negative is the value of its flags object
    itself: so it is for what [read_uint8] and [read_uint32] hand to
    [MessageDataFlags], [MessageFlags] and [MessageTags]. *)
Lemma IntFlag_value_nonneg flag_mask value :
  0 <= value -> IntFlag_value flag_mask value = value.
Proof.
  intros Hv. unfold IntFlag_value.
  assert ((value <? 0) = false) as Hneg by (apply Z.ltb_ge; lia).
  rewrite Hneg. destruct (_ || _); by rewrite Hneg.
Qed.

(** The members of [FwdInfoFlags] that are in [FwdInfoFlags(int8)] are
    those whose bit is set in the byte read. *)
Lemma FwdInfoFlags_members x :
  Forall (fun k =>
            flag_in (Z.shiftl 1 k) (FwdInfoFlags.of_int (to_signed 8 (byte_val x)))
            = Z.testbit (byte_val x) k) [1; 2; 3; 4; 5].
Proof. destruct x; vm_compute; repeat constructor. Qed.

(** The flags byte for which [FwdInfoFlags(int8) == 0]: byte 0, and byte
    0xC0, which as the signed -64 stands for no flag being set. *)
Lemma FwdInfoFlags_zero x :
  (FwdInfoFlags.of_int (to_signed 8 (byte_val x)) =? 0)
  = (byte_val x =? 0) || (byte_val x =? 192).
Proof. destruct x; vm_compute; reflexivity. Qed.

(** X15. [read_intermediate_fwd_info] returns [None] exactly when the byte
    at the cursor is 0x00 or 0xC0 (the two bytes that [FwdInfoFlags] turns
    into the empty set of flags), and then it has read that byte and
    nothing else; with any other flags byte it goes on to read the author
    and the date, or raises when they are not there. *)
Theorem read_intermediate_fwd_info_absent b b' :
  read_intermediate_fwd_info b = (Ok PNone, b')
  <-> exists x,
        buf_data b !! buf_pos b = Some x
        /\ (byte_val x = 0 \/ byte_val x = 192)
        /\ b' = mk_byteutil (endian b) (buf_data b) (buf_pos b + 1).
Proof.
  split.
  - unfold read_intermediate_fwd_info. intros H.
    apply bind_Ok_inv in H as (infoFlags & b1 & H1 & H).
    pose proof H1 as Hinv. apply read_fmt_Ok_inv in Hinv as (Hle & _ & _).
    simpl in Hle.
    destruct (lookup_lt_is_Some_2 (buf_data b) (buf_pos b) ltac:(lia)) as [x Hx].
    rewrite (read_int8_at _ _ Hx) in H1. injection H1 as <- <-.
    cbv zeta in H. rewrite FwdInfoFlags_zero in H.
    destruct ((byte_val x =? 0) || (byte_val x =? 192)) eqn:E.
    + injection H as <-. exists x. split; [done|]. split; [|done].
      apply orb_true_iff in E as [E|E]; apply Z.eqb_eq in E; auto.
    + exfalso.
      apply bind_Ok_inv in H as (authorId & b2 & _ & H).
      apply bind_Ok_inv in H as (date & b3 & _ & H).
      apply bind_Ok_inv in H as (sourceId & b4 & _ & H).
      apply bind_Ok_inv in H as ([[p n] i] & b5 & _ & H).
      apply bind_Ok_inv in H as (signature & b6 & _ & H).
      apply bind_Ok_inv in H as (psaType & b7 & _ & H).
      apply bind_Ok_inv in H as (flags & b8 & _ & H).
      discriminate.
  - intros (x & Hx & Hz & ->). unfold read_intermediate_fwd_info.
    rewrite (bind_Ok _ _ _ _ _ (read_int8_at _ _ Hx)).
    cbv zeta. rewrite FwdInfoFlags_zero.
    assert ((byte_val x =? 0) || (byte_val x =? 192) = true) as ->; [|reflexivity].
    apply orb_true_iff. destruct Hz as [-> | ->]; auto.
Qed.

Lemma read_intermediate_fwd_info_absent_witness :
  read_intermediate_fwd_info (byteutil_init (mk_bytes [0; 5]) LittleEndian)
  = (Ok PNone, mk_byteutil LittleEndian (mk_bytes [0; 5]) 1)
  /\ read_intermediate_fwd_info (byteutil_init (mk_bytes [192; 5]) LittleEndian)
     = (Ok PNone, mk_byteutil LittleEndian (mk_bytes [192; 5]) 1).
Proof.
  split.
  - apply (proj2 (read_intermediate_fwd_info_absent
                    (byteutil_init (mk_bytes [0; 5]) LittleEndian)
                    (mk_byteutil LittleEndian (mk_bytes [0; 5]) 1))).
    exists Byte.x00. split; [reflexivity|]. split; [left|]; reflexivity.
  - apply (proj2 (read_intermediate_fwd_info_absent
                    (byteutil_init (mk_bytes [192; 5]) LittleEndian)
                    (mk_byteutil LittleEndian (mk_bytes [192; 5]) 1))).
    exists Byte.xc0. split; [reflexivity|]. split; [right|]; reflexivity.
Defined.

(** ** Key material and the key for sqlcipher *)

Section KeyMaterialFacts.

Variable SHA512_digest : bytes -> bytes.
Variable AES_CBC_decrypt : bytes -> bytes -> bytes -> option bytes.

(** X16. What [tempkey_parse] returns is a key of exactly 32 bytes and a
    salt of exactly 16 bytes, cut from a plaintext of at least 52 bytes
    whose stored checksum is the murmur hash of key and salt: a container
    too short for that never gives key material. *)
Theorem tempkey_parse_sizes dataEnc pwd out dbKey dbSalt out' :
  tempkey_parse SHA512_digest AES_CBC_decrypt dataEnc pwd out
  = (Ok (dbKey, dbSalt), out') ->
  length dbKey = 32%nat
  /\ length dbSalt = 16%nat
  /\ exists data,
       AES_CBC_decrypt (tempkey_kdf SHA512_digest pwd).1
         (tempkey_kdf SHA512_digest pwd).2 dataEnc = Some data
       /\ (52 <= length data)%nat
       /\ unpack LittleEndian Fmt_i (take 4 (drop 48 data)) = murmur (dbKey ++ dbSalt).
Proof.
  intros H. unfold tempkey_parse in H.
  destruct (tempkey_kdf SHA512_digest pwd) as [k iv]. simpl.
  destruct (AES_CBC_decrypt k iv dataEnc) as [data|]; [|discriminate].
  apply bind_Ok_inv in H as (dbHash & o1 & Hun & H).
  apply bind_Ok_inv in H as ([] & o2 & _ & H).
  destruct (negb _) eqn:E; [discriminate|]. injection H as <- <- _.
  apply negb_false_iff, Z.eqb_eq in E.
  unfold lift_res, unpack_le_i in Hun.
  case_bool_decide as Hlen; [|discriminate]. injection Hun as <- _.
  rewrite length_take, length_drop in Hlen.
  rewrite !length_take, length_drop.
  split; [lia|]. split; [lia|]. exists data. split; [done|]. split; [lia|done].
Qed.

End KeyMaterialFacts.

Lemma tempkey_parse_sizes_witness :
  length (mk_bytes (seqZ 1 32)) = 32%nat
  /\ length (mk_bytes (seqZ 33 16)) = 16%nat
  /\ exists data,
       Samples.plain_cipher (tempkey_kdf Samples.plain_digest DEFAULT_PASSWORD).1
         (tempkey_kdf Samples.plain_digest DEFAULT_PASSWORD).2 Samples.container
       = Some data
       /\ (52 <= length data)%nat
       /\ unpack LittleEndian Fmt_i (take 4 (drop 48 data))
          = murmur (mk_bytes (seqZ 1 32) ++ mk_bytes (seqZ 33 16)).
Proof.
  apply (tempkey_parse_sizes Samples.plain_digest Samples.plain_cipher
           Samples.container DEFAULT_PASSWORD [] _ _ [WARN_PAD]).
  reflexivity.
Defined.

Lemma hex_digit_is_hex d : 0 <= d < 16 -> is_hex_digit (hex_digit d).
Proof.
  intros Hd. unfold is_hex_digit, hex_digit.
  destruct (d <? 10) eqn:E; [apply Z.ltb_lt in E | apply Z.ltb_ge in E]; lia.
Qed.

Lemma hex_digit_inj d1 d2 :
  0 <= d1 < 16 -> 0 <= d2 < 16 -> hex_digit d1 = hex_digit d2 -> d1 = d2.
Proof.
  unfold hex_digit. intros H1 H2.
  destruct (d1 <? 10) eqn:E1; destruct (d2 <? 10) eqn:E2;
    try apply Z.ltb_lt in E1; try apply Z.ltb_ge in E1;
    try apply Z.ltb_lt in E2; try apply Z.ltb_ge in E2; lia.
Qed.

Lemma byte_val_inj b1 b2 : byte_val b1 = byte_val b2 -> b1 = b2.
Proof.
  unfold byte_val. intros H. apply N2Z.inj in H.
  assert (Some b1 = Some b2) as [= ->]; [|done].
  by rewrite <- (Byte.of_to_N b1), <- (Byte.of_to_N b2), H.
Qed.

Lemma hex_length bs : length (hex bs) = (2 * length bs)%nat.
Proof.
  unfold hex. induction bs as [|b bs IH]; simpl; [done|]. rewrite IH. lia.
Qed.

Lemma hex_digits bs : Forall is_hex_digit (hex bs).
Proof.
  unfold hex. induction bs as [|b bs IH]; simpl; [constructor|].
  pose proof (byte_val_range b).
  apply Forall_cons_2; [|apply Forall_cons_2; [|done]]; apply hex_digit_is_hex.
  - split; [apply Z.div_pos; lia | apply Z.div_lt_upper_bound; lia].
  - apply Z.mod_pos_bound. lia.
Qed.

Lemma hex_inj bs1 bs2 : hex bs1 = hex bs2 -> bs1 = bs2.
Proof.
  unfold hex. revert bs2.
  induction bs1 as [|b1 bs1 IH]; intros [|b2 bs2] H; simpl in H;
    try discriminate; [done|].
  injection H as Hhi Hlo Hrest. f_equal; [|by apply IH].
  pose proof (byte_val_range b1). pose proof (byte_val_range b2).
  apply byte_val_inj.
  apply hex_digit_inj in Hhi;
    [|split; [apply Z.div_pos; lia | apply Z.div_lt_upper_bound; lia]..].
  apply hex_digit_inj in Hlo; [|apply Z.mod_pos_bound; lia..].
  rewrite (Z.div_mod (byte_val b1) 16), (Z.div_mod (byte_val b2) 16) by lia.
  by rewrite Hhi, Hlo.
Qed.

(** X17. The statement of [tempkey_pragma] holds, between [x'] and ['],
    two lowercase hexadecimal digits for every byte of key and salt and
    no other character (so no quote); for a 32-byte key and a 16-byte salt
    that is 96 digits; and two statements are equal only for the same key
    material. *)
Theorem tempkey_pragma_text dbKey dbSalt :
  tempkey_pragma dbKey dbSalt
  = str "PRAGMA key=" ++ [QUOTE] ++ str "x'" ++ hex (dbKey ++ dbSalt)
    ++ str "'" ++ [QUOTE] ++ str ";"
  /\ Forall is_hex_digit (hex (dbKey ++ dbSalt))
  /\ length (hex (dbKey ++ dbSalt)) = (2 * (length dbKey + length dbSalt))%nat
  /\ (length dbKey = 32%nat -> length dbSalt = 16%nat ->
      length (hex (dbKey ++ dbSalt)) = 96%nat)
  /\ (forall dbKey' dbSalt',
        tempkey_pragma dbKey dbSalt = tempkey_pragma dbKey' dbSalt' ->
        dbKey ++ dbSalt = dbKey' ++ dbSalt').
Proof.
  split; [reflexivity|]. split; [apply hex_digits|].
  split; [by rewrite hex_length, length_app|].
  split; [intros Hk Hs; rewrite hex_length, length_app; lia|].
  intros dbKey' dbSalt' H. unfold tempkey_pragma in H.
  do 3 apply app_inv_head in H.
  assert (length (hex (dbKey ++ dbSalt)) = length (hex (dbKey' ++ dbSalt'))) as Hlen.
  { apply (f_equal length) in H. rewrite !length_app in H. simpl in H. lia. }
  apply hex_inj. by apply app_inj_1 in H as [H _].
Qed.

Lemma tempkey_pragma_text_witness :
  length (hex (mk_bytes (seqZ 1 32) ++ mk_bytes (seqZ 33 16))) = 96%nat.
Proof.
  destruct (tempkey_pragma_text (mk_bytes (seqZ 1 32)) (mk_bytes (seqZ 33 16)))
    as (_ & _ & _ & H & _).
  apply H; reflexivity.
Defined.

(** ** [decrypt_database] *)

Lemma strip_key_wrapper_wrapped k :
  strip_key_wrapper (str "x'" ++ k ++ str "'") = k.
Proof.
  unfold strip_key_wrapper, str_suffix.
  assert (str_prefix (str "x'") (str "x'" ++ k ++ str "'") = true) as ->
    by reflexivity.
  assert (str_prefix (reverse (str "'")) (reverse (str "x'" ++ k ++ str "'")) = true)
    as ->.
  { rewrite !reverse_app. reflexivity. }
  cbn [andb].
  replace (length (str "x'" ++ k ++ str "'") - 1)%nat
    with (length (str "x'" ++ k))%nat
    by (rewrite !length_app; simpl; lia).
  rewrite (app_assoc (str "x'") k (str "'")).
  rewrite take_app_length. rewrite drop_app_length'; [done|reflexivity].
Qed.

(** X18. [decrypt_database] takes the key with or without its [x'...']
    wrapper to the same effect; the commands it hands to sqlcipher begin,
    for the hexadecimal text of key and salt, with the very statement that
    [tempkey_pragma] of decrypt_db.py prints; and it answers [True] only
    when the tool and the database were found, the run returned 0 and the
    output file exists afterwards. *)
Theorem decrypt_database_key_forms host encrypted_db_path output_path :
  (forall k,
      strip_key_wrapper k = k ->
      decrypt_database host encrypted_db_path (str "x'" ++ k ++ str "'") output_path
      = decrypt_database host encrypted_db_path k output_path)
  /\ (forall dbKey dbSalt,
        exists rest,
          sql_commands (hex (dbKey ++ dbSalt)) output_path
          = [NEWLINE] ++ tempkey_pragma dbKey dbSalt ++ [NEWLINE] ++ rest)
  /\ (forall key_hex,
        decrypt_database host encrypted_db_path key_hex output_path = true ->
        which_sqlcipher host = true
        /\ path_exists host encrypted_db_path = true
        /\ exists exists_after,
             run_sqlcipher host encrypted_db_path
               (sql_commands (strip_key_wrapper key_hex) output_path)
             = Some (0, exists_after)
             /\ exists_after output_path = true).
Proof.
  split; [|split].
  - intros k Hk. unfold decrypt_database.
    by rewrite strip_key_wrapper_wrapped, Hk.
  - intros dbKey dbSalt. eexists. unfold sql_commands, tempkey_pragma.
    rewrite <- !app_assoc. reflexivity.
  - intros key_hex H. unfold decrypt_database in H.
    destruct (which_sqlcipher host); [|discriminate].
    destruct (path_exists host encrypted_db_path); [|discriminate].
    simpl in H.
    destruct (run_sqlcipher host _ _) as [[rc ex]|]; [|discriminate].
    destruct (rc =? 0) eqn:E; [|discriminate]. apply Z.eqb_eq in E. subst rc.
    simpl in H. destruct (ex output_path) eqn:Ex; [|discriminate].
    repeat split. by exists ex.
Qed.

Lemma decrypt_database_key_forms_witness :
  decrypt_database Samples.good_host (str "db_sqlite") (str "x'0a1b'")
    (str "plaintext.db")
  = decrypt_database Samples.good_host (str "db_sqlite") (str "0a1b")
      (str "plaintext.db")
  /\ (which_sqlcipher Samples.good_host = true
      /\ path_exists Samples.good_host (str "db_sqlite") = true
      /\ exists exists_after,
           run_sqlcipher Samples.good_host (str "db_sqlite")
             (sql_commands (strip_key_wrapper (str "x'0a1b'")) (str "plaintext.db"))
           = Some (0, exists_after)
           /\ exists_after (str "plaintext.db") = true).
Proof.
  destruct (decrypt_database_key_forms Samples.good_host (str "db_sqlite")
              (str "plaintext.db")) as (H1 & _ & H3).
  split.
  - apply (H1 (str "0a1b")). reflexivity.
  - apply (H3 (str "x'0a1b'")). reflexivity.
Defined.

(** ** Media identifiers: the other shapes *)

Section MediaShapeFacts.

Variable str_of_object : pyvalue -> pystr.

(** X19. [parse_media_ids] gives no identifier for an object that is not
    a mapping, that has no ['r'], or whose ['r'] is neither a list nor a
    mapping. When ['r'] is a mapping (a document resource) the result is
    the one identifier [telegram-cloud-document-<d>-<f>] if the resource
    has both ['d'] and ['f'], and empty otherwise; it never raises
    there. *)
Theorem parse_media_ids_document media_obj :
  match media_obj with
  | PDict d =>
      match dict_get (str "r") d with
      | Some (PDict rd) =>
          parse_media_ids str_of_object media_obj
          = Ok match dict_get (str "d") rd, dict_get (str "f") rd with
               | Some dc, Some file_id =>
                   [str "telegram-cloud-document-" ++ py_str str_of_object dc
                    ++ str "-" ++ py_str str_of_object file_id]
               | _, _ => []
               end
      | Some (PList _) => True
      | _ => parse_media_ids str_of_object media_obj = Ok []
      end
  | _ => parse_media_ids str_of_object media_obj = Ok []
  end.
Proof.
  destruct media_obj as [| | | | | | |d]; try reflexivity.
  unfold parse_media_ids.
  destruct (dict_get (str "r") d) as [[| | | | | | |rd]|]; try done.
  unfold res_and, py_contains, py_getitem.
  destruct (dict_get (str "d") rd) as [dc|], (dict_get (str "f") rd) as [fid|];
    reflexivity.
Qed.

Lemma rep_media_ids_mapping rep :
  resource_is_mapping rep ->
  exists ids, rep_media_ids str_of_object rep = Ok ids /\ (length ids <= 1)%nat.
Proof.
  intros H. destruct rep as [| | | | | | |rd];
    try (exists []; split; [reflexivity | simpl; lia]).
  unfold resource_is_mapping in H. unfold rep_media_ids.
  destruct (dict_get (str "r") rd) as [[| | | | | | |res]|]; try done;
    [|exists []; split; [reflexivity | simpl; lia]].
  unfold res_and, py_contains, py_getitem, py_get.
  destruct (dict_get (str "d") res) as [dc|], (dict_get (str "i") res) as [pid|];
    simpl; eexists; (split; [reflexivity | simpl; lia]).
Qed.

Lemma reps_media_ids_mapping reps :
  Forall resource_is_mapping reps ->
  exists ids,
    reps_media_ids str_of_object reps = Ok ids /\ (length ids <= length reps)%nat.
Proof.
  induction 1 as [|rep reps Hrep _ (ids' & IH & Hlen')].
  - exists []. split; [reflexivity | simpl; lia].
  - destruct (rep_media_ids_mapping rep Hrep) as (ids & Hids & Hlen).
    exists (ids ++ ids'). split.
    + simpl. rewrite Hids. simpl. by rewrite IH.
    + rewrite length_app. simpl. lia.
Qed.

(** X20. On a list of representations, [parse_media_ids] returns, with at
    most one identifier per representation, whenever the resource of every
    representation that has one is a mapping. A representation whose ['r']
    is an integer makes the whole call raise [TypeError] (from
    ['d' in res]), whatever the representations before it gave. *)
Theorem parse_media_ids_representations d reps :
  dict_get (str "r") d = Some (PList reps) ->
  (Forall resource_is_mapping reps ->
   exists ids,
     parse_media_ids str_of_object (PDict d) = Ok ids
     /\ (length ids <= length reps)%nat)
  /\ (forall before rd n after,
        reps = before ++ PDict rd :: after ->
        Forall resource_is_mapping before ->
        dict_get (str "r") rd = Some (PInt n) ->
        parse_media_ids str_of_object (PDict d) = Raise TypeError).
Proof.
  intros Hr. split.
  - intros Hall. destruct (reps_media_ids_mapping reps Hall) as (ids & Hids & Hlen).
    exists ids. split; [|done].
    unfold parse_media_ids. rewrite Hr, Hids. simpl. by rewrite app_nil_r.
  - intros before rd n after -> Hbefore Hn.
    unfold parse_media_ids. rewrite Hr.
    assert (reps_media_ids str_of_object (before ++ PDict rd :: after)
            = Raise TypeError) as ->; [|reflexivity].
    clear Hr. induction Hbefore as [|rep before Hrep _ IH].
    + simpl. by rewrite Hn.
    + destruct (rep_media_ids_mapping rep Hrep) as (ids & Hids & _).
      simpl. rewrite Hids. simpl. by rewrite IH.
Qed.

(** X21. [extract_referenced_media_id] gives an identifier exactly for a
    mapping whose ['namespace'] and ['id'] are both present and not
    [None], and then it is [telegram-cloud-document-<namespace>-<id>]; in
    particular every pair that the message decoder reads gets one. *)
Theorem extract_referenced_media_id_defined ref :
  (forall ident,
      extract_referenced_media_id str_of_object ref = Some ident <->
      exists d namespace media_id,
        ref = PDict d
        /\ dict_get (str "namespace") d = Some namespace
        /\ dict_get (str "id") d = Some media_id
        /\ namespace <> PNone /\ media_id <> PNone
        /\ ident = str "telegram-cloud-document-" ++ py_str str_of_object namespace
                   ++ str "-" ++ py_str str_of_object media_id)
  /\ (forall b b',
        read_referenced_media_id b = (Ok ref, b') ->
        exists namespace media_id,
          - 2 ^ 31 <= namespace < 2 ^ 31
          /\ - 2 ^ 63 <= media_id < 2 ^ 63
          /\ extract_referenced_media_id str_of_object ref
             = Some (str "telegram-cloud-document-" ++ str_of_int namespace
                     ++ str "-" ++ str_of_int media_id)).
Proof.
  split.
  - intros ident. split.
    + destruct ref as [| | | | | | |d]; try discriminate.
      unfold extract_referenced_media_id, dict_get_default.
      destruct (dict_get (str "namespace") d) as [ns|] eqn:Hns; [|discriminate].
      destruct (dict_get (str "id") d) as [mid|] eqn:Hid;
        [|by destruct ns].
      intros H. exists d, ns, mid.
      destruct ns; try discriminate; destruct mid; try discriminate;
        injection H as <-; repeat (split; [done|]); done.
    + intros (d & ns & mid & -> & Hns & Hid & Hn1 & Hn2 & ->).
      unfold extract_referenced_media_id, dict_get_default. rewrite Hns, Hid.
      destruct ns; try done; destruct mid; done.
  - intros b b' H. unfold read_referenced_media_id in H.
    apply bind_Ok_inv in H as (ns & b1 & H1 & H).
    apply bind_Ok_inv in H as (mid & b2 & H2 & H).
    injection H as <- _. exists ns, mid.
    split; [|split; [|reflexivity]].
    + unfold read_int32 in H1. destruct b as [e data pos].
      destruct (decide (pos + calcsize Fmt_i <= length data)%nat) as [Hle|Hgt].
      * rewrite read_fmt_at in H1 by done. injection H1 as <- _.
        apply (unpack_range e Fmt_i).
        rewrite length_take, length_drop. unfold calcsize in *. lia.
      * exfalso. pose proof (read_fmt_at_EOF Fmt_i e data pos ltac:(lia)) as E.
        by rewrite H1 in E.
    + unfold read_int64 in H2. destruct b1 as [e data pos].
      destruct (decide (pos + calcsize Fmt_q <= length data)%nat) as [Hle|Hgt].
      * rewrite read_fmt_at in H2 by done. injection H2 as <- _.
        apply (unpack_range e Fmt_q).
        rewrite length_take, length_drop. unfold calcsize in *. lia.
      * exfalso. pose proof (read_fmt_at_EOF Fmt_q e data pos ltac:(lia)) as E.
        by rewrite H2 in E.
Qed.

End MediaShapeFacts.

Lemma parse_media_ids_representations_witness :
  exists ids,
    parse_media_ids Samples.no_object (PDict Samples.image) = Ok ids
    /\ (length ids <= length Samples.image_reps)%nat.
Proof.
  apply (parse_media_ids_representations Samples.no_object Samples.image
           Samples.image_reps eq_refl).
  repeat (apply Forall_cons_2; [exact I|]). apply Forall_nil_2.
Defined.

Lemma extract_referenced_media_id_defined_witness :
  extract_referenced_media_id Samples.no_object
    (PDict [(str "namespace", PInt 7); (str "id", PInt 99)])
  = Some (str "telegram-cloud-document-7-99").
Proof.
  apply (extract_referenced_media_id_defined Samples.no_object
           (PDict [(str "namespace", PInt 7); (str "id", PInt 99)])).
  exists [(str "namespace", PInt 7); (str "id", PInt 99)], (PInt 7), (PInt 99).
  repeat (split; [done|]). reflexivity.
Defined.
